(** * The test result stream correlator of [github-post]

    A shallow embedding of [listFailures] and [genSlowTestsReport]
    (command [github-post], package [main]) and the properties of the
    correlator that follow from the code.

    Conventions of the embedding:
    - Go [string] is [string] (a sequence of bytes);
    - Go [float64] is the kernel's binary64 [float], so [+], [-], [*] and the
      comparisons are the IEEE 754 ones of the source;
    - [time.Time] is a number of nanoseconds counted from the zero [Time]
      (the value of a field that is absent from the JSON object);
    - Go maps are [gmap]s; a [nil] slice and an empty slice are both [[]];
    - [log.Printf] appends a [logEntry] to the log carried by the state;
    - the collaborators that live outside the file under verification (the
      posting callback, [git], the file system, [sort.Slice], the order in
      which [range] walks a map, the environment) are variables of a
      section.

    The file holds the generated marshalling code of package [types] as
    well: its embedding is the module [types], and the properties of the
    wire format come last. *)

From Stdlib Require Import ZArith String Ascii List Floats DecimalString Lia.
From Stdlib Require Import Sorting.Sorted Sorting.Permutation.
From stdpp Require Import gmap strings list fin_maps.
Import ListNotations.

Local Open Scope string_scope.
Local Open Scope Z_scope.

(** ** Package [strings] *)

Module strings.

(** [strings.HasPrefix(s, prefix)] *)
Fixpoint HasPrefix (s prefix : string) {struct prefix} : bool :=
  match prefix, s with
  | EmptyString, _ => true
  | String _ _, EmptyString => false
  | String p prefix', String c s' => Ascii.eqb c p && HasPrefix s' prefix'
  end.

(** [strings.Index(s, substr)]: the byte offset of the first occurrence. *)
Fixpoint Index (s substr : string) : option nat :=
  if HasPrefix s substr then Some 0%nat
  else match s with
       | EmptyString => None
       | String _ s' => S <$> Index s' substr
       end.

(** [strings.Contains(s, substr)] is [strings.Index(s, substr) >= 0]. *)
Definition Contains (s substr : string) : bool :=
  bool_decide (is_Some (Index s substr)).

(** [strings.TrimPrefix(s, prefix)] *)
Definition TrimPrefix (s prefix : string) : string :=
  if HasPrefix s prefix
  then String.substring (String.length prefix)
                        (String.length s - String.length prefix) s
  else s.

(** [strings.SplitN(s, sep, 2)] for a non-empty separator: the text before
    and after the first [sep], or [s] alone when there is none. *)
Definition SplitN2 (s sep : string) : list string :=
  match Index s sep with
  | None => [s]
  | Some i =>
      [ String.substring 0 i s;
        String.substring (i + String.length sep)
                         (String.length s - (i + String.length sep)) s ]
  end.

(** [strings.Join(elems, "")] *)
Definition Join0 (elems : list string) : string :=
  fold_right String.append "" elems.

End strings.

(** ** Package [regexp], as far as the timeout pattern needs it

    Go's matcher returns the match a backtracking engine finds first
    (leftmost, then preferring the greedy choice). [.] stands for one
    character other than a newline; the embedding consumes one byte for it,
    so for a multi-byte character the second group holds its first byte,
    which is enough to decide the comparisons with ["m"] and ["s"]. *)

Module regexp.

Inductive re :=
| Chr (c : ascii)            (* a literal byte *)
| Digit                      (* \d *)
| Dot                        (* . *)
| Cat (r1 r2 : re)           (* r1 r2 *)
| Star (r : re)              (* r*, greedy *)
| Opt (r : re)               (* r?, greedy *)
| NCap (r : re)              (* (?:r) *)
| Cap (i : nat) (r : re).    (* (r), the i-th group *)

Fixpoint lit (s : string) (rest : re) : re :=
  match s with
  | EmptyString => rest
  | String c s' => Cat (Chr c) (lit s' rest)
  end.

Definition is_digit (c : ascii) : bool :=
  let n := nat_of_ascii c in (48 <=? n)%nat && (n <=? 57)%nat.

Definition newline : ascii := ascii_of_nat 10.

(** The groups matched so far, by number. *)
Definition groups := list (nat * string).

Definition consumed (before after : string) : string :=
  String.substring 0 (String.length before - String.length after) before.

(** [run r s g k]: match [r] at the head of [s], then continue with [k] on
    what is left; the first success in preference order is the result. *)
Fixpoint run {A} (r : re) (s : string) (g : groups)
         (k : string -> groups -> option A) : option A :=
  match r with
  | Chr c =>
      match s with
      | String d s' => if Ascii.eqb c d then k s' g else None
      | EmptyString => None
      end
  | Digit =>
      match s with
      | String d s' => if is_digit d then k s' g else None
      | EmptyString => None
      end
  | Dot =>
      match s with
      | String d s' => if Ascii.eqb d newline then None else k s' g
      | EmptyString => None
      end
  | Cat r1 r2 => run r1 s g (fun s' g' => run r2 s' g' k)
  | Star r1 =>
      (fix loop (fuel : nat) (s : string) (g : groups) : option A :=
         match fuel with
         | O => k s g
         | S fuel' =>
             match run r1 s g
                     (fun s' g' =>
                        if (String.length s' <? String.length s)%nat
                        then loop fuel' s' g' else None) with
             | Some a => Some a
             | None => k s g
             end
         end) (String.length s) s g
  | Opt r1 =>
      match run r1 s g k with
      | Some a => Some a
      | None => k s g
      end
  | NCap r1 => run r1 s g k
  | Cap i r1 => run r1 s g (fun s' g' => k s' ((i, consumed s s') :: g'))
  end.

Definition group (g : groups) (i : nat) : string :=
  match List.find (fun p => Nat.eqb (fst p) i) g with
  | Some p => snd p
  | None => ""
  end.

(** [re.FindStringSubmatch(s)] for a pattern with [n] groups: the whole
    match followed by the groups, at the leftmost position that matches. *)
Fixpoint FindStringSubmatch (r : re) (n : nat) (s : string)
  : option (list string) :=
  match run r s [] (fun s' g => Some (consumed s s' :: map (group g) (seq 1 n))) with
  | Some m => Some m
  | None =>
      match s with
      | EmptyString => None
      | String _ s' => FindStringSubmatch r n s'
      end
  end.

End regexp.

(** ** [float64] and the library functions that produce or print one *)

Module float64.

(** Conversion of an integer, [float64(n)]: rounded to nearest, ties to
    even. *)
Definition of_Z (n : Z) : float :=
  SF2Prim (binary_normalize prec emax n 0 false).

(** The correctly rounded quotient of two positive integers; [None] when it
    is too large for a finite [float64]. Decimal text denotes such a
    quotient, and both [strconv.ParseFloat] and the JSON decoder round it
    this way. *)
Definition of_ratio (num den : Z) : option float :=
  if num =? 0 then Some PrimFloat.zero
  else
    let '(q, e, l) := SFdiv_core_binary prec emax num 0 den 0 in
    match binary_round_aux prec emax false q e l with
    | S754_infinity _ | S754_nan => None
    | x => Some (SF2Prim x)
    end.

(** The value of the decimal [num / 10^digits], as the JSON decoder reads
    it; [+Inf] stands for a text the decoder rejects and is never built
    here from a text it accepts. *)
Definition decimal (num : Z) (digits : nat) : float :=
  default PrimFloat.infinity (of_ratio num (10 ^ Z.of_nat digits)).

Definition gt (x y : float) : bool := PrimFloat.ltb y x.   (* x > y *)
Definition ne (x y : float) : bool := negb (PrimFloat.eqb x y). (* x != y *)

End float64.

Module strconv.

Definition digit_value (c : ascii) : Z := Z.of_nat (nat_of_ascii c) - 48.

(** Reads a run of decimal digits: their value, their number, the rest. *)
Fixpoint digits (s : string) (acc : Z) (n : nat) : Z * nat * string :=
  match s with
  | String c s' =>
      if regexp.is_digit c then digits s' (10 * acc + digit_value c) (S n)
      else (acc, n, s)
  | EmptyString => (acc, n, s)
  end.

(** [strconv.ParseFloat(s, 64)] on unsigned decimal text without exponent,
    which is all the timeout pattern can capture: digits, optionally a
    point and more digits, at least one digit in all. Any other text is an
    error here ([None]), and so is a value out of range. *)
Definition ParseFloat (s : string) : option float :=
  let '(ip, ni, rest) := digits s 0 0 in
  match rest with
  | EmptyString =>
      if (ni =? 0)%nat then None else float64.of_ratio ip 1
  | String c rest' =>
      if Ascii.eqb c "." then
        let '(v, nf, rest'') := digits rest' ip 0 in
        match rest'' with
        | EmptyString =>
            if (ni + nf =? 0)%nat then None
            else float64.of_ratio v (10 ^ Z.of_nat nf)
        | String _ _ => None
        end
      else None
  end.

End strconv.

Module time.

(** A [time.Time] without monotonic reading: nanoseconds since the zero
    [Time]. A [time.Duration] is an [int64] number of nanoseconds. *)
Definition Time := Z.
Definition Duration := Z.

Definition maxDuration : Duration := 2 ^ 63 - 1.
Definition minDuration : Duration := - 2 ^ 63.
Definition Second : Duration := 1000000000.

(** [t.Sub(u)]: the difference, saturated to the range of [Duration]. *)
Definition Sub (t u : Time) : Duration :=
  let d := t - u in
  if d <? minDuration then minDuration
  else if maxDuration <? d then maxDuration
  else d.

(** [d.Seconds()]: [float64(d / Second) + float64(d % Second) / 1e9], with
    Go's truncating division. *)
Definition Seconds (d : Duration) : float :=
  PrimFloat.add (float64.of_Z (Z.quot d Second))
                (PrimFloat.div (float64.of_Z (Z.rem d Second))
                               (float64.of_Z 1000000000)).

End time.

Module fmt.

Definition two_digits (n : Z) : string :=
  (if n <? 10 then "0" else "") ++
  NilZero.string_of_uint (N.to_uint (Z.to_N n)).

(** The nearest integer to [num / den], ties to even ([den > 0]). *)
Definition round_half_even (num den : Z) : Z :=
  let q := num / den in
  let r := num mod den in
  match 2 * r ?= den with
  | Lt => q
  | Gt => q + 1
  | Eq => if Z.even q then q else q + 1
  end.

Definition fixed2 (neg : bool) (hundredths : Z) : string :=
  (if neg then "-" else "") ++
  NilZero.string_of_uint (N.to_uint (Z.to_N (hundredths / 100))) ++
  "." ++ two_digits (hundredths mod 100).

(** The verb [%.2f]: the exact value rounded to two decimals, ties to
    even; the sign is kept when the digits are all zero. *)
Definition f2 (x : float) : string :=
  match Prim2SF x with
  | S754_nan => "NaN"
  | S754_infinity s => if s then "-Inf" else "+Inf"
  | S754_zero s => fixed2 s 0
  | S754_finite s m e =>
      fixed2 s (if 0 <=? e
                then Z.pos m * 2 ^ e * 100
                else round_half_even (Z.pos m * 100) (2 ^ (- e)))
  end.

End fmt.

(** ** The data of [listFailures] *)

(** [testEvent], as described in the test2json documentation. *)
Record testEvent := {
  Action : string;
  Test : string;
  Output : string;
  Time : time.Time;
  Elapsed : float   (* seconds *)
}.

(** The zero value of [testEvent]. *)
Definition testEvent_zero : testEvent :=
  {| Action := ""; Test := ""; Output := ""; Time := 0;
     Elapsed := PrimFloat.zero |}.

Definition with_Elapsed (e : float) (te : testEvent) : testEvent :=
  {| Action := Action te; Test := Test te; Output := Output te;
     Time := Time te; Elapsed := e |}.

(** The arguments of one call of the posting callback [f]. *)
Record issue := {
  title : string;
  packageName : string;
  testName : string;
  testMessage : string;
  authorEmail : string
}.

(** What [log.Printf] is called with. *)
Inductive logEntry :=
| LogFailedToParseTimeout (output : string)
| LogOutstandingOutput (lastTestName : string)
| LogConsolidating (subTest parentTest : string)
| LogFailedParent (test : string)
| LogNoAuthorEmail (err : string)
| LogNoSlowTestsReport (err : string)
| LogCulpritFound (test : string)
| LogCulpritNotFound.

(** The errors [listFailures] returns. *)
Inductive error :=
| errPkgEnvNotSet
| errDecode (err : string)
| errPostIssue (cause : string).

(** The ways [listFailures] ends other than by [return nil]. *)
Inductive stop :=
| ReturnErr (e : error)
| PanicTimeoutButPassed (te : testEvent)
| PanicIndexOutOfRange
| FatalParseFloat (text : string)
| FatalTimeUnit (output : string).

Inductive res (A : Type) :=
| Ok (a : A)
| Stop (s : stop).
Arguments Ok {A} a.
Arguments Stop {A} s.

#[global] Instance res_bind : MBind res :=
  fun A B (k : A -> res B) (r : res A) =>
    match r with
    | Ok a => k a
    | Stop s => Stop s
    end.

(** The value of a computation that did not stop. *)
Definition value {A} (r : res A) : option A :=
  match r with
  | Ok a => Some a
  | Stop _ => None
  end.

(** The variables [listFailures] declares before its loop and updates in
    it. *)
Record runState := {
  packageOutput : string;
  outstandingOutput : gmap string (list testEvent);
  failures : gmap string (list testEvent);
  slowPassingTests : list testEvent;
  slowFailingTests : list testEvent;
  init : bool;
  trustTimestamps : bool;
  elapsedTotalSec : float;
  timedOutTestName : string;
  timedOutEvent : testEvent;
  curTestStart : time.Time;
  lastTestName : string;
  lastEvent : testEvent;
  logged : list logEntry
}.

Definition runState_start : runState :=
  {| packageOutput := ""; outstandingOutput := ∅; failures := ∅;
     slowPassingTests := []; slowFailingTests := [];
     init := true; trustTimestamps := true;
     elapsedTotalSec := PrimFloat.zero;
     timedOutTestName := ""; timedOutEvent := testEvent_zero;
     curTestStart := 0; lastTestName := ""; lastEvent := testEvent_zero;
     logged := [] |}.

Definition set_packageOutput v st :=
  {| packageOutput := v; outstandingOutput := outstandingOutput st;
     failures := failures st; slowPassingTests := slowPassingTests st;
     slowFailingTests := slowFailingTests st; init := init st;
     trustTimestamps := trustTimestamps st;
     elapsedTotalSec := elapsedTotalSec st;
     timedOutTestName := timedOutTestName st;
     timedOutEvent := timedOutEvent st; curTestStart := curTestStart st;
     lastTestName := lastTestName st; lastEvent := lastEvent st;
     logged := logged st |}.
Definition set_outstandingOutput v st :=
  {| packageOutput := packageOutput st; outstandingOutput := v;
     failures := failures st; slowPassingTests := slowPassingTests st;
     slowFailingTests := slowFailingTests st; init := init st;
     trustTimestamps := trustTimestamps st;
     elapsedTotalSec := elapsedTotalSec st;
     timedOutTestName := timedOutTestName st;
     timedOutEvent := timedOutEvent st; curTestStart := curTestStart st;
     lastTestName := lastTestName st; lastEvent := lastEvent st;
     logged := logged st |}.
Definition set_failures v st :=
  {| packageOutput := packageOutput st;
     outstandingOutput := outstandingOutput st;
     failures := v; slowPassingTests := slowPassingTests st;
     slowFailingTests := slowFailingTests st; init := init st;
     trustTimestamps := trustTimestamps st;
     elapsedTotalSec := elapsedTotalSec st;
     timedOutTestName := timedOutTestName st;
     timedOutEvent := timedOutEvent st; curTestStart := curTestStart st;
     lastTestName := lastTestName st; lastEvent := lastEvent st;
     logged := logged st |}.
Definition set_slowPassingTests v st :=
  {| packageOutput := packageOutput st;
     outstandingOutput := outstandingOutput st;
     failures := failures st; slowPassingTests := v;
     slowFailingTests := slowFailingTests st; init := init st;
     trustTimestamps := trustTimestamps st;
     elapsedTotalSec := elapsedTotalSec st;
     timedOutTestName := timedOutTestName st;
     timedOutEvent := timedOutEvent st; curTestStart := curTestStart st;
     lastTestName := lastTestName st; lastEvent := lastEvent st;
     logged := logged st |}.
Definition set_slowFailingTests v st :=
  {| packageOutput := packageOutput st;
     outstandingOutput := outstandingOutput st;
     failures := failures st; slowPassingTests := slowPassingTests st;
     slowFailingTests := v; init := init st;
     trustTimestamps := trustTimestamps st;
     elapsedTotalSec := elapsedTotalSec st;
     timedOutTestName := timedOutTestName st;
     timedOutEvent := timedOutEvent st; curTestStart := curTestStart st;
     lastTestName := lastTestName st; lastEvent := lastEvent st;
     logged := logged st |}.
Definition set_init v st :=
  {| packageOutput := packageOutput st;
     outstandingOutput := outstandingOutput st;
     failures := failures st; slowPassingTests := slowPassingTests st;
     slowFailingTests := slowFailingTests st; init := v;
     trustTimestamps := trustTimestamps st;
     elapsedTotalSec := elapsedTotalSec st;
     timedOutTestName := timedOutTestName st;
     timedOutEvent := timedOutEvent st; curTestStart := curTestStart st;
     lastTestName := lastTestName st; lastEvent := lastEvent st;
     logged := logged st |}.
Definition set_trustTimestamps v st :=
  {| packageOutput := packageOutput st;
     outstandingOutput := outstandingOutput st;
     failures := failures st; slowPassingTests := slowPassingTests st;
     slowFailingTests := slowFailingTests st; init := init st;
     trustTimestamps := v;
     elapsedTotalSec := elapsedTotalSec st;
     timedOutTestName := timedOutTestName st;
     timedOutEvent := timedOutEvent st; curTestStart := curTestStart st;
     lastTestName := lastTestName st; lastEvent := lastEvent st;
     logged := logged st |}.
Definition set_elapsedTotalSec v st :=
  {| packageOutput := packageOutput st;
     outstandingOutput := outstandingOutput st;
     failures := failures st; slowPassingTests := slowPassingTests st;
     slowFailingTests := slowFailingTests st; init := init st;
     trustTimestamps := trustTimestamps st;
     elapsedTotalSec := v;
     timedOutTestName := timedOutTestName st;
     timedOutEvent := timedOutEvent st; curTestStart := curTestStart st;
     lastTestName := lastTestName st; lastEvent := lastEvent st;
     logged := logged st |}.
(** [timedOutTestName] and [timedOutEvent] are assigned together. *)
Definition set_timedOut name ev st :=
  {| packageOutput := packageOutput st;
     outstandingOutput := outstandingOutput st;
     failures := failures st; slowPassingTests := slowPassingTests st;
     slowFailingTests := slowFailingTests st; init := init st;
     trustTimestamps := trustTimestamps st;
     elapsedTotalSec := elapsedTotalSec st;
     timedOutTestName := name;
     timedOutEvent := ev; curTestStart := curTestStart st;
     lastTestName := lastTestName st; lastEvent := lastEvent st;
     logged := logged st |}.
Definition set_curTestStart v st :=
  {| packageOutput := packageOutput st;
     outstandingOutput := outstandingOutput st;
     failures := failures st; slowPassingTests := slowPassingTests st;
     slowFailingTests := slowFailingTests st; init := init st;
     trustTimestamps := trustTimestamps st;
     elapsedTotalSec := elapsedTotalSec st;
     timedOutTestName := timedOutTestName st;
     timedOutEvent := timedOutEvent st; curTestStart := v;
     lastTestName := lastTestName st; lastEvent := lastEvent st;
     logged := logged st |}.
Definition set_lastTestName v st :=
  {| packageOutput := packageOutput st;
     outstandingOutput := outstandingOutput st;
     failures := failures st; slowPassingTests := slowPassingTests st;
     slowFailingTests := slowFailingTests st; init := init st;
     trustTimestamps := trustTimestamps st;
     elapsedTotalSec := elapsedTotalSec st;
     timedOutTestName := timedOutTestName st;
     timedOutEvent := timedOutEvent st; curTestStart := curTestStart st;
     lastTestName := v; lastEvent := lastEvent st;
     logged := logged st |}.
Definition set_lastEvent v st :=
  {| packageOutput := packageOutput st;
     outstandingOutput := outstandingOutput st;
     failures := failures st; slowPassingTests := slowPassingTests st;
     slowFailingTests := slowFailingTests st; init := init st;
     trustTimestamps := trustTimestamps st;
     elapsedTotalSec := elapsedTotalSec st;
     timedOutTestName := timedOutTestName st;
     timedOutEvent := timedOutEvent st; curTestStart := curTestStart st;
     lastTestName := lastTestName st; lastEvent := v;
     logged := logged st |}.
Definition add_log (l : list logEntry) st :=
  {| packageOutput := packageOutput st;
     outstandingOutput := outstandingOutput st;
     failures := failures st; slowPassingTests := slowPassingTests st;
     slowFailingTests := slowFailingTests st; init := init st;
     trustTimestamps := trustTimestamps st;
     elapsedTotalSec := elapsedTotalSec st;
     timedOutTestName := timedOutTestName st;
     timedOutEvent := timedOutEvent st; curTestStart := curTestStart st;
     lastTestName := lastTestName st; lastEvent := lastEvent st;
     logged := (logged st ++ l)%list |}.


(** ** The loop of [listFailures] *)

(** [shortTestFilterSecs]: tests that took less than this are not considered
    for slow test reporting. *)
Definition shortTestFilterSecs : float := 0.5%float.

Definition timeoutMsg : string := "panic: test timed out after".

(** The pattern compiled by [regexp.MustCompile]: the text
    ["panic: test timed out after "], then a first group of digits with an
    optional point and more digits (each run greedy and possibly empty, the
    fraction in a non-capturing optional group), then a second group of one
    character. *)
Definition timeoutRe : regexp.re :=
  regexp.lit "panic: test timed out after "
    (regexp.Cat
       (regexp.Cap 1
          (regexp.Cat (regexp.Star regexp.Digit)
             (regexp.Opt
                (regexp.NCap
                   (regexp.Cat (regexp.Chr ".") (regexp.Star regexp.Digit))))))
       (regexp.Cap 2 regexp.Dot)).

(** [matches[i]] of a slice of strings. The pattern has two groups, so the
    indexes 1 and 2 are in range whenever there is a match. *)
Definition at_ (matches : list string) (i : nat) : string := nth i matches "".

(** The duration of the test that timed out: the value [te.Elapsed] is given
    in the [output] case once the timeout message is found, and the line
    that is logged when the message does not parse. *)
Definition timeoutElapsed (trustTimestamps : bool) (curTestStart : time.Time)
    (elapsedTotalSec : float) (te : testEvent) : res (float * list logEntry) :=
  if trustTimestamps then
    Ok (time.Seconds (time.Sub (Time te) curTestStart), [])
  else
    match regexp.FindStringSubmatch timeoutRe 2 (Output te) with
    | None => Ok (PrimFloat.opp 1%float, [LogFailedToParseTimeout (Output te)])
    | Some matches =>
        match strconv.ParseFloat (at_ matches 1) with
        | None => Stop (FatalParseFloat (at_ matches 1))
        | Some dur =>
            dur' ← (if String.eqb (at_ matches 2) "m"
                    then Ok (PrimFloat.mul dur 60%float)   (* minutes to seconds *)
                    else if negb (String.eqb (at_ matches 2) "s")
                         then Stop (FatalTimeUnit (Output te))
                         else Ok dur);
            Ok (PrimFloat.sub dur' elapsedTotalSec, [])
        end
    end.

(** [append(outstandingOutput[te.Test], te)]; a missing key reads as [nil]. *)
Definition events_of (m : gmap string (list testEvent)) (test : string)
  : list testEvent := default [] (m !! test).

(** [case "run"] *)
Definition onRun (st : runState) (te : testEvent) : runState :=
  let st := set_lastTestName (Test te) st in
  if trustTimestamps st then set_curTestStart (Time te) st else st.

(** [case "output"]: the event joins the outstanding output of its test; if
    it carries the timeout message, the test and the event, with its
    [Elapsed] filled in, are recorded as timed out. *)
Definition onOutput (st : runState) (te : testEvent) : res runState :=
  let st :=
    set_outstandingOutput
      (<[Test te := (events_of (outstandingOutput st) (Test te) ++ [te])%list]>
         (outstandingOutput st)) st in
  if strings.Contains (Output te) timeoutMsg then
    '(elapsed, lines) ←
      timeoutElapsed (trustTimestamps st) (curTestStart st)
                     (elapsedTotalSec st) te;
    Ok (set_timedOut (Test te) (with_Elapsed elapsed te) (add_log lines st))
  else Ok st.

(** [case "pass", "skip"] *)
Definition onPassSkip (st : runState) (te : testEvent) : res runState :=
  if negb (String.eqb (timedOutTestName st) "") then
    Stop (PanicTimeoutButPassed te)
  else
    let st :=
      set_outstandingOutput (delete (Test te) (outstandingOutput st)) st in
    Ok (if float64.gt (Elapsed te) shortTestFilterSecs then
          (* subtests are ignored; their time contributes to the parent's *)
          if negb (strings.Contains (Test te) "/")
          then set_slowPassingTests (slowPassingTests st ++ [te])%list st
          else st
        else st).

(** [case "fail"] *)
Definition onFail (st : runState) (te : testEvent) : runState :=
  let st :=
    if negb (strings.Contains (Test te) "/")
       || String.eqb (timedOutTestName st) (Test te)
    then set_slowFailingTests (slowFailingTests st ++ [te])%list st
    else st in
  (* the test moves to the failures collection unless it timed out *)
  let st :=
    if negb (String.eqb (timedOutTestName st) (Test te))
    then set_failures
           (<[Test te := events_of (outstandingOutput st) (Test te)]>
              (failures st)) st
    else st in
  set_outstandingOutput (delete (Test te) (outstandingOutput st)) st.

(** The [switch te.Action] of the loop, entered when [te.Test] is not
    empty. *)
Definition onTestEvent (st : runState) (te : testEvent) : res runState :=
  if String.eqb (Action te) "run" then Ok (onRun st te)
  else if String.eqb (Action te) "output" then onOutput st te
  else if String.eqb (Action te) "pass" || String.eqb (Action te) "skip"
       then onPassSkip st te
  else if String.eqb (Action te) "fail" then Ok (onFail st te)
  else Ok st.

(** The statements of the loop body before [te.Elapsed] is adjusted. *)
Definition beforeSwitch (st : runState) (te : testEvent) : runState :=
  let st := set_lastEvent te st in
  let st := if negb (String.eqb (Test te) "") then set_init false st else st in
  let st :=
    if init st && strings.Contains (Output te) "-exec 'stress '"
    then set_trustTimestamps false st else st in
  if String.eqb (timedOutTestName st) ""
     && float64.gt (Elapsed te) PrimFloat.zero
  then
    (* subtests are not counted, as those are counted in the parent *)
    if (length (strings.SplitN2 (Test te) "/") =? 1)%nat
    then set_elapsedTotalSec
           (PrimFloat.add (elapsedTotalSec st) (Elapsed te)) st
    else st
  else st.

(** [if timedOutTestName == te.Test && te.Elapsed != 0] *)
Definition adjustElapsed (st : runState) (te : testEvent) : testEvent :=
  if String.eqb (timedOutTestName st) (Test te)
     && float64.ne (Elapsed te) PrimFloat.zero
  then with_Elapsed (Elapsed (timedOutEvent st)) te else te.

(** One iteration of the loop, for a decoded event. *)
Definition step (st : runState) (te : testEvent) : res runState :=
  let st := beforeSwitch st te in
  let te := adjustElapsed st te in
  (* events for the overall package test do not set Test *)
  if (0 <? String.length (Test te))%nat then onTestEvent st te
  else if String.eqb (Action te) "output"
       then Ok (set_packageOutput (packageOutput st ++ Output te) st)
       else Ok st.

(** The loop over the events the decoder yields before [io.EOF]. *)
Fixpoint loop (st : runState) (events : list testEvent) : res runState :=
  match events with
  | [] => Ok st
  | te :: events' => st' ← step st te; loop st' events'
  end.

(** The statements between the loop and the posting of issues: on a
    timeout whose test never got a [fail] event the test is entered in
    [slowFailingTests]; without a timeout, output that is still outstanding
    for the last test makes that test a failure. *)
Definition afterLoop (st : runState) : runState :=
  if negb (String.eqb (timedOutTestName st) "") then
    match outstandingOutput st !! timedOutTestName st with
    | Some _ =>
        set_outstandingOutput
          (delete (timedOutTestName st) (outstandingOutput st))
          (set_slowFailingTests (slowFailingTests st ++ [timedOutEvent st])%list st)
    | None => st
    end
  else
    match outstandingOutput st !! lastTestName st with
    | Some events =>
        set_failures (<[lastTestName st := events]> (failures st))
          (add_log [LogOutstandingOutput (lastTestName st)] st)
    | None => st
    end.

(** ** [genSlowTestsReport] *)

(** The line feed, written ["\n"] in the source. *)
Definition nl : string := String (ascii_of_nat 10) "".

(** [fmt.Fprintf(&b, "%s - %.2fs\n", te.Test, te.Elapsed)] *)
Definition reportLine (te : testEvent) : string :=
  Test te ++ " - " ++ fmt.f2 (Elapsed te) ++ "s" ++ nl.

(** [for i, te := range tests { if i == 20 { break }; fmt.Fprintf(...) }],
    entered with the builder's text [b] at index [i]. *)
Fixpoint writeLines (b : string) (i : nat) (tests : list testEvent) : string :=
  match tests with
  | [] => b
  | te :: tests' =>
      if (i =? 20)%nat then b
      else writeLines (b ++ reportLine te) (S i) tests'
  end.

Definition genSlowTestsReport (slowPassingTests slowFailingTests : list testEvent)
  : string :=
  let b := "" in
  let b := b ++ "Slow failing tests:" ++ nl in
  let b := writeLines b 0 slowFailingTests in
  let b := if (length slowFailingTests =? 0)%nat
           then b ++ "<none>" ++ nl else b in
  let b := b ++ nl ++ "Slow passing tests:" ++ nl in
  let b := writeLines b 0 slowPassingTests in
  let b := if (length slowPassingTests =? 0)%nat
           then b ++ "<none>" ++ nl else b in
  b.

(** ** Package [sort] *)

Module sort.

(** [sort.Strings]: the names are the keys of a map, hence distinct, and
    the sorted sequence of distinct strings is unique; insertion gives
    it. *)
Fixpoint insert (x : string) (l : list string) : list string :=
  match l with
  | [] => [x]
  | y :: l' => if String.leb x y then x :: l else y :: insert x l'
  end.

Definition Strings (l : list string) : list string :=
  fold_right insert [] l.

End sort.

(** ** [listFailures] after the loop *)

(** What a run of [listFailures] does that can be seen from outside: the
    calls of [f], the lines logged, the report handed to
    [writeSlowTestsReport], and how the function ends ([None] for
    [return nil]). *)
Record outcome := {
  posted : list issue;
  logs : list logEntry;
  slowTestsReport : option string;
  ended : option stop
}.

(** The comparison functions given to [sort.Slice]: by [Elapsed],
    descending. *)
Definition byElapsedDesc (a b : testEvent) : bool :=
  float64.gt (Elapsed a) (Elapsed b).

Section listFailures.

(** [os.LookupEnv(pkgEnv)] *)
Variable lookupEnvPKG : option string.
(** [issues.CockroachPkgPrefix] *)
Variable CockroachPkgPrefix : string.
(** The callback [f], by the error it returns for an issue ([None] for
    [nil]). *)
Variable f : issue -> option string.
(** [getAuthorEmail(ctx, packageName, testName)], which asks [git]: the
    address, or the error it returns together with an empty address. *)
Variable getAuthorEmail : string -> string -> string + string.
(** [writeSlowTestsReport(report)], which writes a file. *)
Variable writeSlowTestsReport : string -> option string.
(** [sort.Slice(x, less)], which is not stable: any sorting function. *)
Variable sortSlice :
  (testEvent -> testEvent -> bool) -> list testEvent -> list testEvent.
(** The keys [for test := range failures] produces, in order, for the map
    the loop starts from. *)
Variable rangeOrder : gmap string (list testEvent) -> list string.

(** The author lookup of both posting sites, with its log line. *)
Definition authorOf (packageName test : string) : string * list logEntry :=
  match getAuthorEmail packageName test with
  | inl email => (email, [])
  | inr err => ("", [LogNoAuthorEmail err])
  end.

(** The body of [for test, testEvents := range failures], run for the
    keys [range] produces. A key that is not in the map when its turn
    comes is not produced at all. *)
Fixpoint consolidate (keys : list string)
    (failures : gmap string (list testEvent)) (log : list logEntry)
  : gmap string (list testEvent) * list logEntry :=
  match keys with
  | [] => (failures, log)
  | test :: keys' =>
      match failures !! test with
      | None => consolidate keys' failures log
      | Some testEvents =>
          match strings.SplitN2 test "/" with
          | [parentTest; subTest] =>
              consolidate keys'
                (delete test
                   (<[parentTest :=
                        (events_of failures parentTest ++ testEvents)%list]>
                      failures))
                (log ++ [LogConsolidating subTest parentTest])%list
          | _ => consolidate keys' failures (log ++ [LogFailedParent test])%list
          end
      end
  end.

(** [for _, test := range failedTestNames]: one issue per failed test,
    until [f] returns an error. *)
Fixpoint postFailures (packageName trimmedPkgName : string)
    (failures : gmap string (list testEvent)) (failedTestNames : list string)
    (posted : list issue) (log : list logEntry)
  : list issue * list logEntry * option error :=
  match failedTestNames with
  | [] => (posted, log, None)
  | test :: names' =>
      let testEvents := events_of failures test in
      let '(authorEmail, line) := authorOf packageName test in
      let message := strings.Join0 (map Output testEvents) in
      let title := trimmedPkgName ++ ": " ++ test ++ " failed under stress" in
      let i := {| title := title; packageName := packageName;
                  testName := test; testMessage := message;
                  authorEmail := authorEmail |} in
      match f i with
      | Some err => ((posted ++ [i])%list, (log ++ line)%list,
                     Some (errPostIssue err))
      | None => postFailures packageName trimmedPkgName failures names'
                  (posted ++ [i])%list (log ++ line)%list
      end
  end.

(** The [if]/[else] that posts either the package failure or the failed
    tests. *)
Definition postIssues (packageName trimmedPkgName : string) (st : runState)
  : list issue * list logEntry * option error :=
  if String.eqb (Action (lastEvent st)) "fail"
     && (size (failures st) =? 0)%nat
     && String.eqb (timedOutTestName st) ""
  then
    let i := {| title := trimmedPkgName ++ ": package failed under stress";
                packageName := packageName; testName := "(unknown)";
                testMessage := packageOutput st; authorEmail := "" |} in
    ([i], logged st,
     match f i with Some err => Some (errPostIssue err) | None => None end)
  else
    let '(failures', log) :=
      consolidate (rangeOrder (failures st)) (failures st) (logged st) in
    let failedTestNames := sort.Strings (elements (dom failures')) in
    postFailures packageName trimmedPkgName failures' failedTestNames [] log.

(** The slowest of the heads of the two sorted lists. *)
Definition slowestOf (slowFailingHead : testEvent)
    (slowPassingTests : list testEvent) : testEvent :=
  match slowPassingTests with
  | p :: _ =>
      if float64.gt (Elapsed p) (Elapsed slowFailingHead)
      then p else slowFailingHead
  | [] => slowFailingHead
  end.

(** [if timedOutTestName != "" { ... }]: the issue for a timeout. *)
Definition postTimeout (packageName trimmedPkgName timedOutTestName report : string)
    (slowPassingTests slowFailingTests : list testEvent)
  : res (issue * list logEntry) :=
  match slowFailingTests with
  | [] => Stop PanicIndexOutOfRange     (* slowFailingTests[0] *)
  | head :: _ =>
      let slowest := slowestOf head slowPassingTests in
      if String.eqb timedOutTestName (Test slowest) then
        (* the test that was running when the timeout hit ran the longest *)
        let '(authorEmail, line) := authorOf packageName timedOutTestName in
        Ok ({| title := trimmedPkgName ++ ": " ++ timedOutTestName
                        ++ " timed out under stress";
               packageName := packageName; testName := timedOutTestName;
               testMessage := report; authorEmail := authorEmail |},
            (line ++ [LogCulpritFound timedOutTestName])%list)
      else
        Ok ({| title := trimmedPkgName ++ ": package timed out under stress";
               packageName := packageName; testName := "(unknown)";
               testMessage := report;
               authorEmail := "andreimatei1@gmail.com" |},
            [LogCulpritNotFound])
  end.

(** Everything after the loop, for the state [afterLoop] leaves. *)
Definition finish (packageName : string) (st : runState) : outcome :=
  let trimmedPkgName := strings.TrimPrefix packageName CockroachPkgPrefix in
  match postIssues packageName trimmedPkgName st with
  | (posted, log, Some err) =>
      {| posted := posted; logs := log; slowTestsReport := None;
         ended := Some (ReturnErr err) |}
  | (posted, log, None) =>
      (* sort slow tests descendingly by duration *)
      let slowPassingTests := sortSlice byElapsedDesc (slowPassingTests st) in
      let slowFailingTests := sortSlice byElapsedDesc (slowFailingTests st) in
      let report := genSlowTestsReport slowPassingTests slowFailingTests in
      let log :=
        match writeSlowTestsReport report with
        | Some err => (log ++ [LogNoSlowTestsReport err])%list
        | None => log
        end in
      if negb (String.eqb (timedOutTestName st) "") then
        match postTimeout packageName trimmedPkgName (timedOutTestName st)
                          report slowPassingTests slowFailingTests with
        | Stop s =>
            {| posted := posted; logs := log;
               slowTestsReport := Some report; ended := Some s |}
        | Ok (i, lines) =>
            {| posted := (posted ++ [i])%list; logs := (log ++ lines)%list;
               slowTestsReport := Some report;
               ended := match f i with
                        | Some err => Some (ReturnErr (errPostIssue err))
                        | None => None
                        end |}
        end
      else
        {| posted := posted; logs := log; slowTestsReport := Some report;
           ended := None |}
  end.

(** [listFailures(ctx, input, f)], for an input from which the decoder
    reads [events] and then either [io.EOF] ([decodeErr = None]) or an
    error. *)
Definition listFailures (events : list testEvent) (decodeErr : option string)
  : outcome :=
  match lookupEnvPKG with
  | None =>
      {| posted := []; logs := []; slowTestsReport := None;
         ended := Some (ReturnErr errPkgEnvNotSet) |}
  | Some packageName =>
      match loop runState_start events with
      | Stop s =>
          {| posted := []; logs := []; slowTestsReport := None;
             ended := Some s |}
      | Ok st =>
          match decodeErr with
          | Some err =>
              {| posted := []; logs := logged st; slowTestsReport := None;
                 ended := Some (ReturnErr (errDecode err)) |}
          | None => finish packageName (afterLoop st)
          end
      end
  end.

End listFailures.

(** ** Notions used to state the properties *)

(** An event without a [/] in its test name: a top-level test, or the
    package itself when the name is empty. *)
Definition topLevel (te : testEvent) : bool :=
  negb (strings.Contains (Test te) "/").

(** An event that makes the loop record a timeout: output of a test that
    contains the timeout message. *)
Definition recordsTimeout (te : testEvent) : bool :=
  negb (String.eqb (Test te) "")
  && String.eqb (Action te) "output"
  && strings.Contains (Output te) timeoutMsg.

(** The events that arrive while no timeout is recorded: all of them up to
    and including the first one that records a timeout. *)
Fixpoint untilTimeout (events : list testEvent) : list testEvent :=
  match events with
  | [] => []
  | te :: events' =>
      te :: (if recordsTimeout te then [] else untilTimeout events')
  end.

(** The sum of [float64]s, added from left to right as the loop does. *)
Definition sumElapsed (events : list testEvent) : float :=
  fold_left (fun acc te => PrimFloat.add acc (Elapsed te)) events
            PrimFloat.zero.

(** The events whose [Elapsed] is added to [elapsedTotalSec] when they
    arrive without a timeout recorded. *)
Definition counted (te : testEvent) : bool :=
  float64.gt (Elapsed te) PrimFloat.zero && topLevel te.

(** A run of decimal digits. *)
Fixpoint digitsOnly (s : string) : bool :=
  match s with
  | EmptyString => true
  | String c s' => regexp.is_digit c && digitsOnly s'
  end.

(** One section of the slow-test report, in the words of its description:
    the first 20 entries, one per line, or the placeholder line. *)
Definition reportSection (tests : list testEvent) : string :=
  match tests with
  | [] => "<none>" ++ nl
  | _ => strings.Join0 (map reportLine (take 20 tests))
  end.

(** [less] orders the elements of [l] as a strict weak order, which is what
    [sort.Slice] asks of it. *)
Definition strictWeakOn (less : testEvent -> testEvent -> bool)
    (l : list testEvent) : Prop :=
  (forall x, In x l -> less x x = false)
  /\ (forall x y z, In x l -> In y l -> In z l ->
        less x y = true -> less y z = true -> less x z = true)
  /\ (forall x y z, In x l -> In y l -> In z l ->
        less x y = false -> less y z = false -> less x z = false).

(** No element is out of order with a later one. *)
Definition sortedBy (less : testEvent -> testEvent -> bool)
    (l : list testEvent) : Prop :=
  StronglySorted (fun a b => less b a = false) l.

(** Descending by [Elapsed]. *)
Definition descending (l : list testEvent) : Prop :=
  StronglySorted (fun a b => PrimFloat.leb (Elapsed b) (Elapsed a) = true) l.

Definition noNaN (l : list testEvent) : Prop :=
  Forall (fun te => PrimFloat.is_nan (Elapsed te) = false) l.

(** While a timeout is recorded, either output is outstanding for the test
    that timed out or [slowFailingTests] has an entry. *)
Definition timeoutAccounted (st : runState) : Prop :=
  timedOutTestName st <> "" ->
  is_Some (outstandingOutput st !! timedOutTestName st)
  \/ slowFailingTests st <> [].

(** What the loop enters in [slowPassingTests]: the [pass] or [skip] event
    of a top-level test that took longer than [shortTestFilterSecs]. *)
Definition slowPassed (te : testEvent) : Prop :=
  (Action te = "pass" \/ Action te = "skip")
  /\ Test te <> "" /\ topLevel te = true
  /\ float64.gt (Elapsed te) shortTestFilterSecs = true.

(** The same, as a test on an event of the stream. *)
Definition slowPass (te : testEvent) : bool :=
  (String.eqb (Action te) "pass" || String.eqb (Action te) "skip")
  && negb (String.eqb (Test te) "") && topLevel te
  && float64.gt (Elapsed te) shortTestFilterSecs.

(** The preamble of the input: the events before the first one that names
    a test. *)
Fixpoint preamble (events : list testEvent) : list testEvent :=
  match events with
  | [] => []
  | te :: events' =>
      if String.eqb (Test te) "" then te :: preamble events' else []
  end.

(** The input comes from a stress run: the preamble prints the marker. *)
Definition stressRun (events : list testEvent) : bool :=
  existsb (fun te => strings.Contains (Output te) "-exec 'stress '")
          (preamble events).

(** Output outside the context of a test. *)
Definition packageLevelOutput (te : testEvent) : bool :=
  String.eqb (Test te) "" && String.eqb (Action te) "output".

(** The event that ends a test. *)
Definition final (te : testEvent) : bool :=
  String.eqb (Action te) "pass" || String.eqb (Action te) "skip"
  || String.eqb (Action te) "fail".

(** The output of [test] that no [pass], [skip] or [fail] event of the
    test has followed yet: [None] when there is no such output. *)
Definition pendingStep (test : string) (acc : option (list string))
    (te : testEvent) : option (list string) :=
  if String.eqb (Test te) test then
    if String.eqb (Action te) "output"
    then Some (default [] acc ++ [Output te])%list
    else if final te then None else acc
  else acc.

Definition pending (test : string) (events : list testEvent)
  : option (list string) :=
  fold_left (pendingStep test) events None.

(** [listFailures] comes back to its caller, with [nil] or with an error:
    it neither panics nor ends the process. *)
Definition returns (o : outcome) : Prop :=
  match ended o with
  | None | Some (ReturnErr _) => True
  | Some _ => False
  end.

(** [listFailures] ends the process through [log.Fatal]. *)
Definition exits (o : outcome) : Prop :=
  match ended o with
  | Some (FatalParseFloat _) | Some (FatalTimeUnit _) => True
  | _ => False
  end.

(** The issues posted so far and the error returned, if any: [f] accepted
    every issue but the last, and the error is that of the last. *)
Definition failFast (f : issue -> option string) (posted : list issue)
    (err : option error) : Prop :=
  match err with
  | None => Forall (fun i => f i = None) posted
  | Some e =>
      exists l i cause,
        posted = (l ++ [i])%list /\ Forall (fun i => f i = None) l
        /\ f i = Some cause /\ e = errPostIssue cause
  end.

(** The output a test is reported with: what was outstanding for the test
    when its last [fail] event arrived. The first component is the
    outstanding output, as in [pending]. *)
Definition reportStep (test : string)
    (acc : option (list string) * option (list string)) (te : testEvent)
  : option (list string) * option (list string) :=
  (pendingStep test acc.1 te,
   if String.eqb (Test te) test && String.eqb (Action te) "fail"
   then Some (default [] acc.1) else acc.2).

Definition reported (test : string) (events : list testEvent)
  : option (list string) :=
  (fold_left (reportStep test) events (None, None)).2.

(** The test started last. *)
Definition lastRun (events : list testEvent) : string :=
  fold_left (fun name te =>
               if negb (String.eqb (Test te) "") && String.eqb (Action te) "run"
               then Test te else name)
            events "".

(** The [fail] event of a top-level test. *)
Definition failedTopLevel (te : testEvent) : bool :=
  String.eqb (Action te) "fail" && negb (String.eqb (Test te) "")
  && topLevel te.

(** An event is held by the map: it is in the list of some key. *)
Definition holds (m : gmap string (list testEvent)) (te : testEvent) : Prop :=
  exists k l, m !! k = Some l /\ In te l.

(** *** The order of [float64]

    [PrimFloat.ltb] and [PrimFloat.leb] are specified by comparisons of
    [spec_float]s, which order the numbers as [lexlt] orders their keys. *)

(** The place of a number on the line: its class (infinities, negative,
    zero, positive), then exponent and mantissa, both negated for a
    negative number. *)
Definition fkey (x : spec_float) : Z * Z * Z :=
  match x with
  | S754_zero _ => (0, 0, 0)
  | S754_infinity s => (if s then -2 else 2, 0, 0)
  | S754_nan => (3, 0, 0)
  | S754_finite s m e =>
      if s then (-1, - e, Z.neg m) else (1, e, Z.pos m)
  end.

Definition lexlt (a b : Z * Z * Z) : Prop :=
  a.1.1 < b.1.1
  \/ (a.1.1 = b.1.1 /\ (a.1.2 < b.1.2 \/ (a.1.2 = b.1.2 /\ a.2 < b.2))).

(** ** Instances of the collaborators, for running the embedding *)

Module Sample.

(** A sorting function: insertion, before the first element that sorts
    after the new one. *)
Fixpoint insert (less : testEvent -> testEvent -> bool) (x : testEvent)
    (l : list testEvent) : list testEvent :=
  match l with
  | [] => [x]
  | y :: l' => if less x y then x :: l else y :: insert less x l'
  end.

Definition sortSlice (less : testEvent -> testEvent -> bool)
    (l : list testEvent) : list testEvent :=
  fold_right (insert less) [] l.

(** An order of iteration: the keys of the map, each once. *)
Definition rangeOrder (m : gmap string (list testEvent)) : list string :=
  elements (dom m).

Definition pkg : string := "github.com/cockroachdb/cockroach/pkg/storage".
Definition prefix : string := "github.com/cockroachdb/cockroach/pkg/".

(** A run in which every post succeeds, [git] finds no author and the
    report is written. *)
Abbreviation run events :=
  (listFailures (Some pkg) prefix (fun _ => None) (fun _ _ => inr "no git")
                (fun _ => None) sortSlice rangeOrder events None).

(** An event as the decoder builds it from
    [{"Action":a,"Test":t,"Output":o,"Elapsed":n/10^k}]. *)
Definition event (a t o : string) (n : Z) (k : nat) : testEvent :=
  {| Action := a; Test := t; Output := o; Time := 0;
     Elapsed := float64.decimal n k |}.

(** The event that ends a package that passes: no test name, and the
    duration of the whole package. *)
Definition packageEnd : testEvent := event "pass" "" "" 15 1.

(** Events with a duration: a test, a subtest, a package, a test. *)
Definition durations : list testEvent :=
  [event "pass" "TestA" "" 25 2; event "pass" "TestB/sub" "" 1 0;
   event "pass" "" "" 2 0; event "fail" "TestC" "" 1 0].

(** A test whose output carries the timeout message 30.4 seconds after it
    started, in a run whose timestamps are trusted. *)
Definition timedOutAfter30s : list testEvent :=
  [ {| Action := "run"; Test := "TestB"; Output := "";
       Time := 1000000000; Elapsed := PrimFloat.zero |};
    {| Action := "output"; Test := "TestB";
       Output := "panic: test timed out after 30s";
       Time := 31400000000; Elapsed := PrimFloat.zero |} ].

(** A test that passes. *)
Definition passing : list testEvent :=
  [event "run" "TestA" "" 0 0; event "output" "TestA" "ok" 0 0;
   event "pass" "TestA" "" 1 1].

(** A test binary that dies while [TestA] runs: no event ends the test. *)
Definition truncated : list testEvent :=
  [event "run" "TestA" "" 0 0; event "output" "TestA" "boom" 0 0].

(** The timeout message in the output of [TestA], and later in the output
    of [TestB]. *)
Definition firstTimeout : list testEvent :=
  [event "run" "TestA" "" 0 0;
   event "output" "TestA" "panic: test timed out after 30s" 0 0].

Definition secondTimeout : testEvent :=
  event "output" "TestB" "panic: test timed out after 30s" 0 0.

(** The state the loop is in after [firstTimeout]. *)
Definition afterFirstTimeout : runState :=
  default runState_start (value (loop runState_start firstTimeout)).

(** A top-level test that fails after a tenth of a second. *)
Definition quickFailure : list testEvent :=
  [event "run" "TestA" "" 0 0; event "output" "TestA" "boom" 0 0;
   event "fail" "TestA" "" 1 1].

(** A stress run ([trustTimestamps] is unset by the preamble) in which
    [TestP] passes after 45 seconds and [TestA] runs into the timeout of
    two minutes, after which nothing more is printed for it. *)
Definition deadlock : list testEvent :=
  [event "output" "" "-exec 'stress '" 0 0;
   event "run" "TestP" "" 0 0; event "pass" "TestP" "" 45 0;
   event "run" "TestA" "" 0 0;
   event "output" "TestA" "panic: test timed out after 2m0s" 0 0].

(** The state the loop is in after [deadlock]. *)
Definition afterDeadlock : runState :=
  default runState_start (value (loop runState_start deadlock)).

(** A stress run whose test binary was given a timeout of one hour, which
    Go prints as [1h0m0s]. *)
Definition hourTimeout : list testEvent :=
  [event "output" "" "-exec 'stress '" 0 0;
   event "run" "TestA" "" 0 0;
   event "output" "TestA" "panic: test timed out after 1h0m0s" 0 0].

(** The timeout message cut short by the end of the line. *)
Definition cutTimeout : testEvent :=
  event "output" "TestA" ("panic: test timed out after" ++ nl) 0 0.

(** The state of a stress run in which [TestA] has started. *)
Definition stressRunning : runState :=
  default runState_start
    (value (loop runState_start
              [event "output" "" "-exec 'stress '" 0 0;
               event "run" "TestA" "" 0 0])).

(** Two subtests of [TestA] and the test [TestB] have failed. *)
Definition subtestFailures : gmap string (list testEvent) :=
  {[ "TestA/sub1" := [event "output" "TestA/sub1" "one" 0 0];
     "TestA/sub2" := [event "output" "TestA/sub2" "two" 0 0];
     "TestB" := [event "output" "TestB" "three" 0 0] ]}.

(** Slow tests, not in the order of their durations. *)
Definition slowTests : list testEvent :=
  [event "pass" "TestA" "" 1 0; event "pass" "TestB" "" 25 1;
   event "pass" "TestQuick" "" 1 1;
   event "fail" "TestC" "" 7 1; event "fail" "TestD" "" 3 0].

(** The state the loop is in after [slowTests], and the report of the
    run. *)
Definition afterSlowTests : runState :=
  default runState_start (value (loop runState_start slowTests)).

Definition slowTestsReport : string :=
  "Slow failing tests:" ++ nl
  ++ "TestD - 3.00s" ++ nl ++ "TestC - 0.70s" ++ nl
  ++ nl ++ "Slow passing tests:" ++ nl
  ++ "TestB - 2.50s" ++ nl ++ "TestA - 1.00s" ++ nl.

(** The package does not build: output outside of any test, then the
    [fail] event of the package. *)
Definition buildFailure : list testEvent :=
  [event "output" "" "# build failed" 0 0; event "fail" "" "" 0 0].

(** The state the loop is in after [truncated]. *)
Definition afterTruncated : runState :=
  default runState_start (value (loop runState_start truncated)).

(** [TestB] passes after the timeout of [TestA]. *)
Definition lateSuccess : testEvent := event "pass" "TestB" "" 1 0.

(** A stress run in which [TestF] fails before [TestA] runs into the
    timeout, and a posting function that refuses every issue. *)
Definition refusedPost : list testEvent :=
  [event "output" "" "-exec 'stress '" 0 0;
   event "run" "TestF" "" 0 0; event "output" "TestF" "boom" 0 0;
   event "fail" "TestF" "" 1 0;
   event "run" "TestA" "" 0 0;
   event "output" "TestA" "panic: test timed out after 2m0s" 0 0].

Definition refuse (i : issue) : option string := Some "refused".

Fixpoint zeros (n : nat) : string :=
  match n with
  | O => ""
  | S n' => String "0" (zeros n')
  end.

(** A stress run in which two tests pass after 1e308 seconds each, so that
    [elapsedTotalSec] is [+Inf], and the output of [TestA] carries the
    timeout message with a duration of 1e308 minutes, which is [+Inf]
    seconds: the [Elapsed] recorded for [TestA] is their difference.
    [TestF1] fails before the timeout, [TestA] and [TestF2] after it. *)
Definition nanTimeout : list testEvent :=
  [event "output" "" "-exec 'stress '" 0 0;
   event "pass" "TestP1" "" (10 ^ 308) 0;
   event "pass" "TestP2" "" (10 ^ 308) 0;
   event "fail" "TestF1" "" 1 0;
   event "run" "TestA" "" 0 0;
   event "output" "TestA"
     ("panic: test timed out after 1" ++ zeros 308 ++ "m0s") 0 0;
   event "fail" "TestA" "" 1 0;
   event "fail" "TestF2" "" 2 0].

(** The state the loop is in after [nanTimeout]. *)
Definition afterNanTimeout : runState :=
  default runState_start (value (loop runState_start nanTimeout)).

(** Three tests fail, one of them through a subtest; the events do not
    come in the order of the names. *)
Definition severalFailures : list testEvent :=
  [event "run" "Test_c" "" 0 0; event "output" "Test_c" "c" 0 0;
   event "fail" "Test_c" "" 1 1;
   event "run" "TestB" "" 0 0; event "run" "TestB/sub" "" 0 0;
   event "output" "TestB/sub" "sub" 0 0;
   event "fail" "TestB/sub" "" 1 1; event "fail" "TestB" "" 1 1;
   event "run" "TestA" "" 0 0; event "output" "TestA" "a" 0 0;
   event "fail" "TestA" "" 1 1].

End Sample.

(** * Package [types]: the wire format of [InternalColumnType]

    A shallow embedding of the marshalling code that [protoc-gen-gogo]
    generates for the message [InternalColumnType].

    Conventions of the embedding:
    - a [byte] is a [Byte.byte], a slice of bytes a [list] of them, and a
      [string] the sequence of its bytes;
    - the integers of Go are [Z] with the wrap-around of their type written
      out: [uint64], [int32], [uint32] and [int], which is 64 bits wide on
      the platforms CockroachDB is built for; an index that has just been
      used to read or write an element is below the length of the slice, so
      its increment is left as it is;
    - a slice that the code writes to is passed along and returned;
      indexing and slicing out of range panic;
    - a pointer that may be [nil] is an [option], and a [nil] slice is
      [[]];
    - on an error [Unmarshal] leaves the message partly updated; the
      embedding returns the error alone;
    - [ColumnType], the custom type of the field [TupleContents], is defined
      elsewhere: it and its methods are variables of a section. *)

Module types.

(** ** Integers and bytes *)

Abbreviation byte := Byte.byte.

(** The conversions of Go between integer types keep the low bits. *)
Definition uint64 (x : Z) : Z := x mod 2 ^ 64.
Definition uint32 (x : Z) : Z := x mod 2 ^ 32.
Definition int32 (x : Z) : Z := (x + 2 ^ 31) mod 2 ^ 32 - 2 ^ 31.
Definition int (x : Z) : Z := (x + 2 ^ 63) mod 2 ^ 64 - 2 ^ 63.

Definition uint8 (x : Z) : byte :=
  default Byte.x00 (Byte.of_N (Z.to_N (x mod 256))).

(** The number a byte stands for. *)
Definition val (b : byte) : Z := Z.of_N (Byte.to_N b).

(** [len(s)] *)
Definition len {A} (s : list A) : Z := Z.of_nat (length s).

(** [[]byte(s)] and [string(b)] *)
Definition bytes (s : string) : list byte := list_byte_of_string s.

(** ** The enumerations *)

(** [SemanticType_name] and [SemanticType_value], the maps between the
    numbers and the names of [SemanticType]. *)
Definition SemanticType_name : gmap Z string :=
  list_to_map
    [(0, "BOOL"); (1, "INT"); (2, "FLOAT"); (3, "DECIMAL"); (4, "DATE");
     (5, "TIMESTAMP"); (6, "INTERVAL"); (7, "STRING"); (8, "BYTES");
     (9, "TIMESTAMPTZ"); (10, "COLLATEDSTRING"); (12, "OID"); (13, "NULL");
     (14, "UUID"); (15, "ARRAY"); (16, "INET"); (17, "TIME"); (18, "JSON");
     (20, "TUPLE"); (21, "BIT"); (100, "ANY")].

Definition SemanticType_value : gmap string Z :=
  list_to_map
    [("BOOL", 0); ("INT", 1); ("FLOAT", 2); ("DECIMAL", 3); ("DATE", 4);
     ("TIMESTAMP", 5); ("INTERVAL", 6); ("STRING", 7); ("BYTES", 8);
     ("TIMESTAMPTZ", 9); ("COLLATEDSTRING", 10); ("OID", 12); ("NULL", 13);
     ("UUID", 14); ("ARRAY", 15); ("INET", 16); ("TIME", 17); ("JSON", 18);
     ("TUPLE", 20); ("BIT", 21); ("ANY", 100)].

(** [VisibleType_name] and [VisibleType_value] *)
Definition VisibleType_name : gmap Z string := list_to_map [(0, "NONE")].

Definition VisibleType_value : gmap string Z := list_to_map [("NONE", 0)].

(** ** Results *)

Inductive error :=
| ErrInvalidLengthTypes       (* proto: negative length found during unmarshaling *)
| ErrIntOverflowTypes         (* proto: integer overflow *)
| ErrUnexpectedEOF            (* io.ErrUnexpectedEOF *)
| ErrEndGroup                 (* wiretype end group for non-group *)
| ErrIllegalTag (fieldNum wire : Z)
| ErrWrongWireType (wireType : Z) (field : string)
| ErrIllegalWireType (wireType : Z)
| ErrColumnType (err : string).  (* an error of a method of ColumnType *)

Inductive panic :=
| IndexOutOfRange
| SliceBoundsOutOfRange
| MakeSliceLenOutOfRange
| Unreachable.                (* panic("unreachable") *)

(** How a call ends: with a value, with an error, in a panic; [OutOfFuel]
    stands for a loop the embedding has cut short, which the properties
    show not to happen. *)
Inductive result (A : Type) :=
| Done (a : A)
| Error (e : error)
| Panic (p : panic)
| OutOfFuel.
Arguments Done {A} a.
Arguments Error {A} e.
Arguments Panic {A} p.
Arguments OutOfFuel {A}.

#[global] Instance result_bind : MBind result :=
  fun A B (k : A -> result B) (r : result A) =>
    match r with
    | Done a => k a
    | Error e => Error e
    | Panic p => Panic p
    | OutOfFuel => OutOfFuel
    end.

(** ** Slices *)

(** [dAtA[i] = b] *)
Definition store (dAtA : list byte) (i : Z) (b : byte) : result (list byte) :=
  if (0 <=? i) && (i <? len dAtA)
  then Done (<[Z.to_nat i := b]> dAtA)
  else Panic IndexOutOfRange.

(** [dAtA[i]] *)
Definition index (dAtA : list byte) (i : Z) : result byte :=
  if (0 <=? i) && (i <? len dAtA)
  then match dAtA !! Z.to_nat i with
       | Some b => Done b
       | None => Panic IndexOutOfRange
       end
  else Panic IndexOutOfRange.

(** [dAtA[lo:hi]], for a slice whose capacity is its length *)
Definition slice (dAtA : list byte) (lo hi : Z) : result (list byte) :=
  if (0 <=? lo) && (lo <=? hi) && (hi <=? len dAtA)
  then Done (take (Z.to_nat (hi - lo)) (drop (Z.to_nat lo) dAtA))
  else Panic SliceBoundsOutOfRange.

(** [copy(dAtA[i:], src)]: the slice after the copy and the number of bytes
    copied, which is the smaller of the two lengths. *)
Definition copy (dAtA : list byte) (i : Z) (src : list byte)
  : result (list byte * Z) :=
  if (0 <=? i) && (i <=? len dAtA) then
    let n := Z.min (len dAtA - i) (len src) in
    Done ((take (Z.to_nat i) dAtA ++ take (Z.to_nat n) src
           ++ drop (Z.to_nat (i + n)) dAtA)%list, n)
  else Panic SliceBoundsOutOfRange.

(** ** Varints *)

(** The rounds a loop that drops seven binary digits of [v] at a time can
    take: no more than [v] has digits. *)
Definition digits (v : Z) : nat := Z.to_nat (Z.log2 v).

(** [for v >= 1<<7 { dAtA[offset] = uint8(v&0x7f | 0x80); v >>= 7; offset++ }] *)
Fixpoint encodeVarintTypes_loop (fuel : nat) (dAtA : list byte)
    (offset v : Z) : result (list byte * Z * Z) :=
  if 128 <=? v then
    match fuel with
    | O => OutOfFuel
    | S fuel' =>
        dAtA ← store dAtA offset (uint8 (Z.lor (Z.land v 127) 128));
        encodeVarintTypes_loop fuel' dAtA (offset + 1) (Z.shiftr v 7)
    end
  else Done (dAtA, offset, v).

(** [encodeVarintTypes(dAtA, offset, v)], for [v] of type [uint64]: the
    slice as the call leaves it, and the offset it returns. *)
Definition encodeVarintTypes (dAtA : list byte) (offset v : Z)
  : result (list byte * Z) :=
  '(dAtA, offset, v) ← encodeVarintTypes_loop (digits v) dAtA offset v;
  dAtA ← store dAtA offset (uint8 v);
  Done (dAtA, offset + 1).

(** [for { n++; x >>= 7; if x == 0 { break } }] *)
Fixpoint sovTypes_loop (fuel : nat) (x n : Z) : Z :=
  let n := n + 1 in
  let x := Z.shiftr x 7 in
  if x =? 0 then n
  else match fuel with
       | O => n
       | S fuel' => sovTypes_loop fuel' x n
       end.

(** [sovTypes(x)], for [x] of type [uint64] *)
Definition sovTypes (x : Z) : Z := sovTypes_loop (digits x) x 0.

(** [sozTypes(x)] *)
Definition sozTypes (x : Z) : Z :=
  sovTypes (uint64 (Z.lxor (uint64 (Z.shiftl x 1))
                           (uint64 (Z.shiftr (int x) 63)))).

(** The values of [shift] for which the loop that reads a varint goes on:
    0, 7, ... below 64. *)
Definition shifts : list Z := [0; 7; 14; 21; 28; 35; 42; 49; 56; 63].

(** The loop that reads a varint into a variable of an integer type, which
    the generated code repeats for every field:
    [for shift := uint(0); ; shift += 7 {
       if shift >= 64 { return ErrIntOverflowTypes }
       if iNdEx >= l { return io.ErrUnexpectedEOF }
       b := dAtA[iNdEx]; iNdEx++
       v |= (T(b) & 0x7F) << shift
       if b < 0x80 { break } }].
    [conv] is the conversion to the type [T] of the variable; the result is
    the variable and [iNdEx]. *)
Fixpoint readVarint (conv : Z -> Z) (shifts : list Z) (dAtA : list byte)
    (l iNdEx v : Z) : result (Z * Z) :=
  match shifts with
  | [] => Error ErrIntOverflowTypes
  | shift :: shifts' =>
      if l <=? iNdEx then Error ErrUnexpectedEOF
      else
        b ← index dAtA iNdEx;
        let iNdEx := iNdEx + 1 in
        let v := Z.lor v (conv (Z.shiftl (Z.land (conv (val b)) 127) shift)) in
        if val b <? 128 then Done (v, iNdEx)
        else readVarint conv shifts' dAtA l iNdEx v
  end.

(** The loop of [skipTypes] that passes over a varint:
    [for shift := uint(0); ; shift += 7 {
       if shift >= 64 { return 0, ErrIntOverflowTypes }
       if iNdEx >= l { return 0, io.ErrUnexpectedEOF }
       iNdEx++
       if dAtA[iNdEx-1] < 0x80 { break } }] *)
Fixpoint skipVarint (shifts : list Z) (dAtA : list byte) (l iNdEx : Z)
  : result Z :=
  match shifts with
  | [] => Error ErrIntOverflowTypes
  | _ :: shifts' =>
      if l <=? iNdEx then Error ErrUnexpectedEOF
      else
        let iNdEx := iNdEx + 1 in
        b ← index dAtA (iNdEx - 1);
        if val b <? 128 then Done iNdEx
        else skipVarint shifts' dAtA l iNdEx
  end.

(** The loop of [skipTypes] over the fields of a group:
    [for { var start int = iNdEx; ...; if innerWireType == 4 { break }
           next, err := skipTypes(dAtA[start:]); ...; iNdEx = start + next }],
    where [skip] is [skipTypes]. *)
Fixpoint skipGroup (skip : list byte -> result Z) (rounds : nat)
    (dAtA : list byte) (l iNdEx : Z) : result Z :=
  let start := iNdEx in
  '(innerWire, iNdEx) ← readVarint uint64 shifts dAtA l iNdEx 0;
  let innerWireType := int (Z.land innerWire 7) in
  if innerWireType =? 4 then Done iNdEx
  else
    match rounds with
    | O => OutOfFuel
    | S rounds' =>
        rest ← slice dAtA start l;
        next ← skip rest;
        skipGroup skip rounds' dAtA l (int (start + next))
    end.

(** [skipTypes(dAtA)]. A group is skipped by calling [skipTypes] on what
    follows each of its tags, which is shorter than [dAtA]: [fuel] bounds
    the depth of the calls and the rounds of the loop over the group. *)
Fixpoint skipTypes (fuel : nat) (dAtA : list byte) : result Z :=
  let l := len dAtA in
  let iNdEx := 0 in
  if iNdEx <? l then
    '(wire, iNdEx) ← readVarint uint64 shifts dAtA l iNdEx 0;
    let wireType := int (Z.land wire 7) in
    if wireType =? 0 then skipVarint shifts dAtA l iNdEx
    else if wireType =? 1 then Done (int (iNdEx + 8))
    else if wireType =? 2 then
      '(length, iNdEx) ← readVarint int shifts dAtA l iNdEx 0;
      let iNdEx := int (iNdEx + length) in
      if length <? 0 then Error ErrInvalidLengthTypes else Done iNdEx
    else if wireType =? 3 then
      match fuel with
      | O => OutOfFuel
      | S fuel' => skipGroup (skipTypes fuel') fuel' dAtA l iNdEx
      end
    else if wireType =? 4 then Done iNdEx
    else if wireType =? 5 then Done (int (iNdEx + 4))
    else Error (ErrIllegalWireType wireType)
  else Panic Unreachable.

(** ** The message *)

Section InternalColumnType.

(** The custom type of [TupleContents], with its zero value and the
    methods the generated code calls: [Size], [MarshalTo], which is given
    the slice [dAtA[i:]] and leaves it as returned here, and [Unmarshal],
    which fills in the value it is called on. *)
Variable ColumnType : Type.
Variable ColumnType_zero : ColumnType.
Variable ColumnType_Size : ColumnType -> Z.
Variable ColumnType_MarshalTo :
  ColumnType -> list byte -> result (list byte * Z).
Variable ColumnType_Unmarshal :
  ColumnType -> list byte -> result ColumnType.

Record InternalColumnType := {
  SemanticType : Z;               (* SemanticType, an int32 *)
  Width : Z;                      (* int32 *)
  Precision : Z;                  (* int32 *)
  ArrayDimensions : list Z;       (* []int32 *)
  Locale : option string;         (* *string *)
  ZZZ_VisibleType : Z;            (* VisibleType, an int32 *)
  ArrayContents : option Z;       (* *SemanticType *)
  TupleContents : list ColumnType;
  TupleLabels : list string;
  ZZZ_Oid : Z                     (* oid.Oid, a uint32 *)
}.

(** [InternalColumnType{}] *)
Definition zero : InternalColumnType :=
  {| SemanticType := 0; Width := 0; Precision := 0; ArrayDimensions := [];
     Locale := None; ZZZ_VisibleType := 0; ArrayContents := None;
     TupleContents := []; TupleLabels := []; ZZZ_Oid := 0 |}.

Definition set_SemanticType v m :=
  {| SemanticType := v; Width := Width m; Precision := Precision m;
     ArrayDimensions := ArrayDimensions m; Locale := Locale m;
     ZZZ_VisibleType := ZZZ_VisibleType m; ArrayContents := ArrayContents m;
     TupleContents := TupleContents m; TupleLabels := TupleLabels m;
     ZZZ_Oid := ZZZ_Oid m |}.
Definition set_Width v m :=
  {| SemanticType := SemanticType m; Width := v; Precision := Precision m;
     ArrayDimensions := ArrayDimensions m; Locale := Locale m;
     ZZZ_VisibleType := ZZZ_VisibleType m; ArrayContents := ArrayContents m;
     TupleContents := TupleContents m; TupleLabels := TupleLabels m;
     ZZZ_Oid := ZZZ_Oid m |}.
Definition set_Precision v m :=
  {| SemanticType := SemanticType m; Width := Width m; Precision := v;
     ArrayDimensions := ArrayDimensions m; Locale := Locale m;
     ZZZ_VisibleType := ZZZ_VisibleType m; ArrayContents := ArrayContents m;
     TupleContents := TupleContents m; TupleLabels := TupleLabels m;
     ZZZ_Oid := ZZZ_Oid m |}.
Definition set_ArrayDimensions v m :=
  {| SemanticType := SemanticType m; Width := Width m;
     Precision := Precision m;
     ArrayDimensions := v; Locale := Locale m;
     ZZZ_VisibleType := ZZZ_VisibleType m; ArrayContents := ArrayContents m;
     TupleContents := TupleContents m; TupleLabels := TupleLabels m;
     ZZZ_Oid := ZZZ_Oid m |}.
Definition set_Locale v m :=
  {| SemanticType := SemanticType m; Width := Width m;
     Precision := Precision m;
     ArrayDimensions := ArrayDimensions m; Locale := v;
     ZZZ_VisibleType := ZZZ_VisibleType m; ArrayContents := ArrayContents m;
     TupleContents := TupleContents m; TupleLabels := TupleLabels m;
     ZZZ_Oid := ZZZ_Oid m |}.
Definition set_ZZZ_VisibleType v m :=
  {| SemanticType := SemanticType m; Width := Width m;
     Precision := Precision m;
     ArrayDimensions := ArrayDimensions m; Locale := Locale m;
     ZZZ_VisibleType := v; ArrayContents := ArrayContents m;
     TupleContents := TupleContents m; TupleLabels := TupleLabels m;
     ZZZ_Oid := ZZZ_Oid m |}.
Definition set_ArrayContents v m :=
  {| SemanticType := SemanticType m; Width := Width m;
     Precision := Precision m;
     ArrayDimensions := ArrayDimensions m; Locale := Locale m;
     ZZZ_VisibleType := ZZZ_VisibleType m; ArrayContents := v;
     TupleContents := TupleContents m; TupleLabels := TupleLabels m;
     ZZZ_Oid := ZZZ_Oid m |}.
Definition set_TupleContents v m :=
  {| SemanticType := SemanticType m; Width := Width m;
     Precision := Precision m;
     ArrayDimensions := ArrayDimensions m; Locale := Locale m;
     ZZZ_VisibleType := ZZZ_VisibleType m; ArrayContents := ArrayContents m;
     TupleContents := v; TupleLabels := TupleLabels m;
     ZZZ_Oid := ZZZ_Oid m |}.
Definition set_TupleLabels v m :=
  {| SemanticType := SemanticType m; Width := Width m;
     Precision := Precision m;
     ArrayDimensions := ArrayDimensions m; Locale := Locale m;
     ZZZ_VisibleType := ZZZ_VisibleType m; ArrayContents := ArrayContents m;
     TupleContents := TupleContents m; TupleLabels := v;
     ZZZ_Oid := ZZZ_Oid m |}.
Definition set_ZZZ_Oid v m :=
  {| SemanticType := SemanticType m; Width := Width m;
     Precision := Precision m;
     ArrayDimensions := ArrayDimensions m; Locale := Locale m;
     ZZZ_VisibleType := ZZZ_VisibleType m; ArrayContents := ArrayContents m;
     TupleContents := TupleContents m; TupleLabels := TupleLabels m;
     ZZZ_Oid := v |}.

(** *** [MarshalTo] *)

(** [for _, num := range m.ArrayDimensions { ... }] *)
Fixpoint marshalArrayDimensions (nums : list Z) (dAtA : list byte) (i : Z)
  : result (list byte * Z) :=
  match nums with
  | [] => Done (dAtA, i)
  | num :: nums' =>
      dAtA ← store dAtA i Byte.x20;
      let i := i + 1 in
      '(dAtA, i) ← encodeVarintTypes dAtA i (uint64 num);
      marshalArrayDimensions nums' dAtA i
  end.

(** [for _, msg := range m.TupleContents { ... }]; an error of
    [msg.MarshalTo] is returned, with 0. *)
Fixpoint marshalTupleContents (msgs : list ColumnType) (dAtA : list byte)
    (i : Z) : result (list byte * Z) :=
  match msgs with
  | [] => Done (dAtA, i)
  | msg :: msgs' =>
      dAtA ← store dAtA i Byte.x42;
      let i := i + 1 in
      '(dAtA, i) ← encodeVarintTypes dAtA i (uint64 (ColumnType_Size msg));
      rest ← slice dAtA i (len dAtA);
      '(rest, n) ← ColumnType_MarshalTo msg rest;
      let dAtA := (take (Z.to_nat i) dAtA ++ rest)%list in
      let i := int (i + n) in
      marshalTupleContents msgs' dAtA i
  end.

(** [for l >= 1<<7 { dAtA[i] = uint8(uint64(l)&0x7f | 0x80); l >>= 7; i++ }],
    for [l] of type [int] *)
Fixpoint marshalLen_loop (fuel : nat) (dAtA : list byte) (i l : Z)
  : result (list byte * Z * Z) :=
  if 128 <=? l then
    match fuel with
    | O => OutOfFuel
    | S fuel' =>
        dAtA ← store dAtA i (uint8 (Z.lor (Z.land (uint64 l) 127) 128));
        marshalLen_loop fuel' dAtA (i + 1) (Z.shiftr l 7)
    end
  else Done (dAtA, i, l).

(** [for _, s := range m.TupleLabels { ... }] *)
Fixpoint marshalTupleLabels (labels : list string) (dAtA : list byte)
    (i : Z) : result (list byte * Z) :=
  match labels with
  | [] => Done (dAtA, i)
  | s :: labels' =>
      dAtA ← store dAtA i Byte.x4a;
      let i := i + 1 in
      let l := len (bytes s) in
      '(dAtA, i, l) ← marshalLen_loop (digits l) dAtA i l;
      dAtA ← store dAtA i (uint8 l);
      let i := i + 1 in
      '(dAtA, n) ← copy dAtA i (bytes s);
      let i := i + n in
      marshalTupleLabels labels' dAtA i
  end.

(** [m.MarshalTo(dAtA)]: the slice as the call leaves it, and the number
    of bytes written. *)
Definition MarshalTo (m : InternalColumnType) (dAtA : list byte)
  : result (list byte * Z) :=
  let i := 0 in
  dAtA ← store dAtA i Byte.x08;
  let i := i + 1 in
  '(dAtA, i) ← encodeVarintTypes dAtA i (uint64 (SemanticType m));
  dAtA ← store dAtA i Byte.x10;
  let i := i + 1 in
  '(dAtA, i) ← encodeVarintTypes dAtA i (uint64 (Width m));
  dAtA ← store dAtA i Byte.x18;
  let i := i + 1 in
  '(dAtA, i) ← encodeVarintTypes dAtA i (uint64 (Precision m));
  '(dAtA, i) ←
    (if 0 <? len (ArrayDimensions m)
     then marshalArrayDimensions (ArrayDimensions m) dAtA i
     else Done (dAtA, i));
  '(dAtA, i) ←
    match Locale m with
    | Some s =>
        dAtA ← store dAtA i Byte.x2a;
        let i := i + 1 in
        '(dAtA, i) ← encodeVarintTypes dAtA i (uint64 (len (bytes s)));
        '(dAtA, n) ← copy dAtA i (bytes s);
        Done (dAtA, i + n)
    | None => Done (dAtA, i)
    end;
  dAtA ← store dAtA i Byte.x30;
  let i := i + 1 in
  '(dAtA, i) ← encodeVarintTypes dAtA i (uint64 (ZZZ_VisibleType m));
  '(dAtA, i) ←
    match ArrayContents m with
    | Some c =>
        dAtA ← store dAtA i Byte.x38;
        let i := i + 1 in
        encodeVarintTypes dAtA i (uint64 c)
    | None => Done (dAtA, i)
    end;
  '(dAtA, i) ←
    (if 0 <? len (TupleContents m)
     then marshalTupleContents (TupleContents m) dAtA i
     else Done (dAtA, i));
  '(dAtA, i) ←
    (if 0 <? len (TupleLabels m)
     then marshalTupleLabels (TupleLabels m) dAtA i
     else Done (dAtA, i));
  dAtA ← store dAtA i Byte.x50;
  let i := i + 1 in
  '(dAtA, i) ← encodeVarintTypes dAtA i (uint64 (ZZZ_Oid m));
  Done (dAtA, i).

(** *** [Size] *)

(** [m.Size()] for a receiver that is not [nil]; the sum is of type
    [int]. *)
Definition Size (m : InternalColumnType) : Z :=
  let n := 0 in
  let n := int (n + (1 + sovTypes (uint64 (SemanticType m)))) in
  let n := int (n + (1 + sovTypes (uint64 (Width m)))) in
  let n := int (n + (1 + sovTypes (uint64 (Precision m)))) in
  let n :=
    if 0 <? len (ArrayDimensions m)
    then fold_left (fun n e => int (n + (1 + sovTypes (uint64 e))))
                   (ArrayDimensions m) n
    else n in
  let n :=
    match Locale m with
    | Some s =>
        let l := len (bytes s) in int (n + (1 + l + sovTypes (uint64 l)))
    | None => n
    end in
  let n := int (n + (1 + sovTypes (uint64 (ZZZ_VisibleType m)))) in
  let n :=
    match ArrayContents m with
    | Some c => int (n + (1 + sovTypes (uint64 c)))
    | None => n
    end in
  let n :=
    if 0 <? len (TupleContents m)
    then fold_left (fun n e =>
                      let l := ColumnType_Size e in
                      int (n + (1 + l + sovTypes (uint64 l))))
                   (TupleContents m) n
    else n in
  let n :=
    if 0 <? len (TupleLabels m)
    then fold_left (fun n s =>
                      let l := len (bytes s) in
                      int (n + (1 + l + sovTypes (uint64 l))))
                   (TupleLabels m) n
    else n in
  int (n + (1 + sovTypes (uint64 (ZZZ_Oid m)))).

(** [m.Size()] for a receiver that may be [nil] *)
Definition Size_of (m : option InternalColumnType) : Z :=
  match m with
  | None => 0
  | Some m => Size m
  end.

(** *** [Marshal] *)

(** [make([]byte, size)] *)
Definition make (size : Z) : result (list byte) :=
  if size <? 0 then Panic MakeSliceLenOutOfRange
  else Done (replicate (Z.to_nat size) Byte.x00).

Definition Marshal (m : InternalColumnType) : result (list byte) :=
  let size := Size m in
  dAtA ← make size;
  '(dAtA, n) ← MarshalTo m dAtA;
  slice dAtA 0 n.

(** *** [Unmarshal] *)

(** [for iNdEx < postIndex { var v int32; ...; m.ArrayDimensions =
    append(m.ArrayDimensions, v) }], the loop over a packed field *)
Fixpoint unmarshalPacked (fuel : nat) (m : InternalColumnType)
    (dAtA : list byte) (l postIndex iNdEx : Z)
  : result (InternalColumnType * Z) :=
  if iNdEx <? postIndex then
    match fuel with
    | O => OutOfFuel
    | S fuel' =>
        '(v, iNdEx) ← readVarint int32 shifts dAtA l iNdEx 0;
        unmarshalPacked fuel'
          (set_ArrayDimensions (ArrayDimensions m ++ [v])%list m)
          dAtA l postIndex iNdEx
    end
  else Done (m, iNdEx).

(** The [switch fieldNum] of the loop: the message and [iNdEx] after the
    field. *)
Definition unmarshalField (m : InternalColumnType) (fieldNum wireType : Z)
    (dAtA : list byte) (l preIndex iNdEx : Z)
  : result (InternalColumnType * Z) :=
  if fieldNum =? 1 then
    if negb (wireType =? 0)
    then Error (ErrWrongWireType wireType "SemanticType")
    else
      '(v, iNdEx) ← readVarint int32 shifts dAtA l iNdEx 0;
      Done (set_SemanticType v m, iNdEx)
  else if fieldNum =? 2 then
    if negb (wireType =? 0)
    then Error (ErrWrongWireType wireType "Width")
    else
      '(v, iNdEx) ← readVarint int32 shifts dAtA l iNdEx 0;
      Done (set_Width v m, iNdEx)
  else if fieldNum =? 3 then
    if negb (wireType =? 0)
    then Error (ErrWrongWireType wireType "Precision")
    else
      '(v, iNdEx) ← readVarint int32 shifts dAtA l iNdEx 0;
      Done (set_Precision v m, iNdEx)
  else if fieldNum =? 4 then
    if wireType =? 0 then
      '(v, iNdEx) ← readVarint int32 shifts dAtA l iNdEx 0;
      Done (set_ArrayDimensions (ArrayDimensions m ++ [v])%list m, iNdEx)
    else if wireType =? 2 then
      '(packedLen, iNdEx) ← readVarint int shifts dAtA l iNdEx 0;
      if packedLen <? 0 then Error ErrInvalidLengthTypes
      else
        let postIndex := int (iNdEx + packedLen) in
        if l <? postIndex then Error ErrUnexpectedEOF
        else unmarshalPacked (length dAtA) m dAtA l postIndex iNdEx
    else Error (ErrWrongWireType wireType "ArrayDimensions")
  else if fieldNum =? 5 then
    if negb (wireType =? 2)
    then Error (ErrWrongWireType wireType "Locale")
    else
      '(stringLen, iNdEx) ← readVarint uint64 shifts dAtA l iNdEx 0;
      let intStringLen := int stringLen in
      if intStringLen <? 0 then Error ErrInvalidLengthTypes
      else
        let postIndex := int (iNdEx + intStringLen) in
        if l <? postIndex then Error ErrUnexpectedEOF
        else
          s ← slice dAtA iNdEx postIndex;
          Done (set_Locale (Some (string_of_list_byte s)) m, postIndex)
  else if fieldNum =? 6 then
    if negb (wireType =? 0)
    then Error (ErrWrongWireType wireType "ZZZ_VisibleType")
    else
      '(v, iNdEx) ← readVarint int32 shifts dAtA l iNdEx 0;
      Done (set_ZZZ_VisibleType v m, iNdEx)
  else if fieldNum =? 7 then
    if negb (wireType =? 0)
    then Error (ErrWrongWireType wireType "ArrayContents")
    else
      '(v, iNdEx) ← readVarint int32 shifts dAtA l iNdEx 0;
      Done (set_ArrayContents (Some v) m, iNdEx)
  else if fieldNum =? 8 then
    if negb (wireType =? 2)
    then Error (ErrWrongWireType wireType "TupleContents")
    else
      '(byteLen, iNdEx) ← readVarint int shifts dAtA l iNdEx 0;
      if byteLen <? 0 then Error ErrInvalidLengthTypes
      else
        let postIndex := int (iNdEx + byteLen) in
        if l <? postIndex then Error ErrUnexpectedEOF
        else
          b ← slice dAtA iNdEx postIndex;
          v ← ColumnType_Unmarshal ColumnType_zero b;
          Done (set_TupleContents (TupleContents m ++ [v])%list m, postIndex)
  else if fieldNum =? 9 then
    if negb (wireType =? 2)
    then Error (ErrWrongWireType wireType "TupleLabels")
    else
      '(stringLen, iNdEx) ← readVarint uint64 shifts dAtA l iNdEx 0;
      let intStringLen := int stringLen in
      if intStringLen <? 0 then Error ErrInvalidLengthTypes
      else
        let postIndex := int (iNdEx + intStringLen) in
        if l <? postIndex then Error ErrUnexpectedEOF
        else
          s ← slice dAtA iNdEx postIndex;
          Done (set_TupleLabels
                  (TupleLabels m ++ [string_of_list_byte s])%list m,
                postIndex)
  else if fieldNum =? 10 then
    if negb (wireType =? 0)
    then Error (ErrWrongWireType wireType "ZZZ_Oid")
    else
      '(v, iNdEx) ← readVarint uint32 shifts dAtA l iNdEx 0;
      Done (set_ZZZ_Oid v m, iNdEx)
  else
    let iNdEx := preIndex in
    rest ← slice dAtA iNdEx l;
    skippy ← skipTypes (length rest) rest;
    if skippy <? 0 then Error ErrInvalidLengthTypes
    else if l <? int (iNdEx + skippy) then Error ErrUnexpectedEOF
    else Done (m, int (iNdEx + skippy)).

(** [for iNdEx < l { ... }] and what follows it *)
Fixpoint unmarshalFields (fuel : nat) (m : InternalColumnType)
    (dAtA : list byte) (l iNdEx : Z) : result InternalColumnType :=
  if iNdEx <? l then
    match fuel with
    | O => OutOfFuel
    | S fuel' =>
        let preIndex := iNdEx in
        '(wire, iNdEx) ← readVarint uint64 shifts dAtA l iNdEx 0;
        let fieldNum := int32 (Z.shiftr wire 3) in
        let wireType := int (Z.land wire 7) in
        if wireType =? 4 then Error ErrEndGroup
        else if fieldNum <=? 0 then Error (ErrIllegalTag fieldNum wire)
        else
          '(m, iNdEx) ← unmarshalField m fieldNum wireType dAtA l preIndex iNdEx;
          unmarshalFields fuel' m dAtA l iNdEx
    end
  else if l <? iNdEx then Error ErrUnexpectedEOF
  else Done m.

(** [m.Unmarshal(dAtA)]: the message after the call. Every round of the
    loop reads a byte at least, so the length of [dAtA] bounds their
    number. *)
Definition Unmarshal (m : InternalColumnType) (dAtA : list byte)
  : result InternalColumnType :=
  unmarshalFields (length dAtA) m dAtA (len dAtA) 0.

End InternalColumnType.

Arguments SemanticType {ColumnType} _.
Arguments Width {ColumnType} _.
Arguments Precision {ColumnType} _.
Arguments ArrayDimensions {ColumnType} _.
Arguments Locale {ColumnType} _.
Arguments ZZZ_VisibleType {ColumnType} _.
Arguments ArrayContents {ColumnType} _.
Arguments TupleContents {ColumnType} _.
Arguments TupleLabels {ColumnType} _.
Arguments ZZZ_Oid {ColumnType} _.
Arguments zero {ColumnType}.

(** ** The wire format, to state the properties *)

(** The number of groups of seven binary digits of [v]. *)
Definition groups (v : Z) : nat := S (Z.to_nat (Z.log2 v / 7)).

(** The varint of [v]: its groups of seven binary digits, the least
    significant first, each in a byte whose high bit says that another
    group follows. *)
Definition varint (v : Z) : list byte :=
  map (fun k : nat =>
         uint8 (Z.land (Z.shiftr v (7 * Z.of_nat k)) 127
                + (if (S k <? groups v)%nat then 128 else 0)))
      (seq 0 (groups v)).

(** A field of wire type 0: the tag and the varint of the value. *)
Definition varintField (tag : byte) (v : Z) : list byte :=
  tag :: varint v.

(** A field of wire type 2: the tag, the varint of the length, the
    bytes. *)
Definition bytesField (tag : byte) (b : list byte) : list byte :=
  (tag :: varint (len b) ++ b)%list.

(** The values of an [int32]. *)
Definition in_int32 (x : Z) : Prop := - 2 ^ 31 <= x < 2 ^ 31.

(** What follows the tag of a field, by its wire type: a varint, eight
    bytes, a length and as many bytes, four bytes. *)
Inductive payload : Z -> list byte -> Prop :=
| payload_varint v : 0 <= v < 2 ^ 64 -> payload 0 (varint v)
| payload_fixed64 p : length p = 8%nat -> payload 1 p
| payload_bytes b : payload 2 (varint (len b) ++ b)
| payload_fixed32 p : length p = 4%nat -> payload 5 p.

(** A field: the varint of its tag, [number << 3 | wireType], and its
    payload. *)
Definition field (number wireType : Z) (p : list byte) : list byte :=
  (varint (Z.lor (Z.shiftl number 3) wireType) ++ p)%list.

Section encoding.

Context {ColumnType : Type}.

(** The encoding of a [ColumnType]. *)
Variable wire : ColumnType -> list byte.

(** The encoding of a message: its fields in the order of their numbers,
    the fields 1, 2, 3, 6 and 10 always, the others when they are set. *)
Definition encoding (m : InternalColumnType ColumnType) : list byte :=
  (varintField Byte.x08 (uint64 (SemanticType m))
   ++ varintField Byte.x10 (uint64 (Width m))
   ++ varintField Byte.x18 (uint64 (Precision m))
   ++ flat_map (fun num => varintField Byte.x20 (uint64 num))
               (ArrayDimensions m)
   ++ match Locale m with
      | Some s => bytesField Byte.x2a (bytes s)
      | None => []
      end
   ++ varintField Byte.x30 (uint64 (ZZZ_VisibleType m))
   ++ match ArrayContents m with
      | Some c => varintField Byte.x38 (uint64 c)
      | None => []
      end
   ++ flat_map (fun msg => bytesField Byte.x42 (wire msg)) (TupleContents m)
   ++ flat_map (fun s => bytesField Byte.x4a (bytes s)) (TupleLabels m)
   ++ varintField Byte.x50 (uint64 (ZZZ_Oid m)))%list.

(** The fields of the message hold values of their Go types. *)
Definition typed (m : InternalColumnType ColumnType) : Prop :=
  in_int32 (SemanticType m) /\ in_int32 (Width m) /\ in_int32 (Precision m)
  /\ Forall in_int32 (ArrayDimensions m)
  /\ in_int32 (ZZZ_VisibleType m)
  /\ (forall c, ArrayContents m = Some c -> in_int32 c)
  /\ 0 <= ZZZ_Oid m < 2 ^ 32.

(** What [Unmarshal] makes of a message [m0] when it is given the encoding
    of [m]: the fields that are always written and the optional fields
    that are set take the values they have in [m], and the repeated fields
    grow by the elements of [m]. *)
Definition merge (m0 m : InternalColumnType ColumnType)
  : InternalColumnType ColumnType :=
  {| SemanticType := SemanticType m;
     Width := Width m;
     Precision := Precision m;
     ArrayDimensions := (ArrayDimensions m0 ++ ArrayDimensions m)%list;
     Locale := match Locale m with
               | Some s => Some s
               | None => Locale m0
               end;
     ZZZ_VisibleType := ZZZ_VisibleType m;
     ArrayContents := match ArrayContents m with
                      | Some c => Some c
                      | None => ArrayContents m0
                      end;
     TupleContents := (TupleContents m0 ++ TupleContents m)%list;
     TupleLabels := (TupleLabels m0 ++ TupleLabels m)%list;
     ZZZ_Oid := ZZZ_Oid m |}.

End encoding.

(** ** Notions used in the proofs *)

(** The writers: calls that, given room, put [bs] behind what is written
    so far and return the new offset. *)
Definition writes (op : list byte -> Z -> result (list byte * Z))
    (bs : list byte) : Prop :=
  forall w rest i,
    i = len w -> len (w ++ rest) < 2 ^ 63 ->
    (length bs <= length rest)%nat ->
    op (w ++ rest)%list i
    = Done ((w ++ bs) ++ drop (length bs) rest, len (w ++ bs))%list.

(** The conversions commute with [|]. *)
Definition bitwise (conv : Z -> Z) : Prop :=
  (forall a b, conv (Z.lor a b) = Z.lor (conv a) (conv b))
  /\ (forall x, 0 <= x < 256 -> conv x = x).

(** A call that ends, and leaves an index in the range of [skipTypes]:
    behind the first byte, or below zero after an overflow, which takes two
    bytes at least. *)
Definition skips (l : Z) (r : result Z) : Prop :=
  r <> OutOfFuel
  /\ forall n, r = Done n ->
       (1 <= n \/ n < - 2 ^ 62) /\ - 2 ^ 63 <= n < 2 ^ 63
       /\ (2 ^ 62 <= n -> 2 <= l).

(** A round of the loop of [Unmarshal] that ends, and leaves the index
    further on, or below zero after an overflow. *)
Definition advances {A} (l preIndex : Z) (r : result (A * Z)) : Prop :=
  r <> OutOfFuel
  /\ forall m iNdEx, r = Done (m, iNdEx) ->
       preIndex < iNdEx <= l \/ (iNdEx < 0 /\ preIndex + 2 <= l).

Section parses.

Variable ColumnType : Type.
Variable ColumnType_zero : ColumnType.
Variable ColumnType_Unmarshal :
  ColumnType -> list byte -> result ColumnType.

(** The loop of [Unmarshal], at the head of [bs], passes over [bs] and
    changes the message by [f]. *)
Definition parses (bs : list byte)
    (f : (InternalColumnType ColumnType) -> (InternalColumnType ColumnType)) : Prop :=
  forall fuel m w rest,
    (length (bs ++ rest) <= fuel)%nat ->
    len (w ++ bs ++ rest) < 2 ^ 63 ->
    exists fuel',
      (length rest <= fuel')%nat
      /\ unmarshalFields ColumnType ColumnType_zero ColumnType_Unmarshal fuel m (w ++ bs ++ rest)
           (len (w ++ bs ++ rest)) (len w)
         = unmarshalFields ColumnType ColumnType_zero ColumnType_Unmarshal fuel' (f m) (w ++ bs ++ rest)
             (len (w ++ bs ++ rest)) (len (w ++ bs)).

End parses.

(** ** A sample to run the embedding on

    A custom type that is its own encoding: a slice of bytes, which
    [MarshalTo] copies to the head of the slice it is given and
    [Unmarshal] appends to the value it is called on. *)
Module Raw.

Definition ColumnType : Type := list byte.

Definition zero : ColumnType := [].

Definition Size (v : ColumnType) : Z := len v.

Definition MarshalTo (v : ColumnType) (dAtA : list byte)
  : result (list byte * Z) :=
  if len dAtA <? len v then Panic IndexOutOfRange
  else Done ((v ++ drop (length v) dAtA)%list, len v).

Definition Unmarshal (v : ColumnType) (dAtA : list byte)
  : result ColumnType :=
  Done (v ++ dAtA)%list.

Definition wire (v : ColumnType) : list byte := v.

(** A tuple of a collated string and an array of integers. *)
Definition message : InternalColumnType ColumnType :=
  {| SemanticType := 20; Width := 0; Precision := -1;
     ArrayDimensions := [3; 300];
     Locale := Some "en_US";
     ZZZ_VisibleType := 0;
     ArrayContents := Some 1;
     TupleContents := [[Byte.x08; Byte.x0a]; [Byte.x08; Byte.x0f]];
     TupleLabels := ["name"; "scores"];
     ZZZ_Oid := 2249 |}.

(** A message with the fields that are always written alone. *)
Definition scalar : InternalColumnType ColumnType :=
  {| SemanticType := 1; Width := 64; Precision := 0;
     ArrayDimensions := [];
     Locale := None;
     ZZZ_VisibleType := 0;
     ArrayContents := None;
     TupleContents := [];
     TupleLabels := [];
     ZZZ_Oid := 20 |}.

End Raw.

End types.

(** * Properties *)

(** ** Strings *)

Lemma SplitN2_length s sep :
  (length (strings.SplitN2 s sep) =? 1)%nat = negb (strings.Contains s sep).
Proof.
  unfold strings.SplitN2, strings.Contains. by destruct (strings.Index s sep).
Qed.

Lemma nonempty_length s : (0 <? String.length s)%nat = negb (String.eqb s "").
Proof. by destruct s. Qed.

Lemma append_nil_r s : s ++ "" = s.
Proof.
  induction s as [|c s IH]; [done|].
  change (String c (s ++ "") = String c s). by rewrite IH.
Qed.

Lemma append_assoc s1 s2 s3 : (s1 ++ s2) ++ s3 = s1 ++ (s2 ++ s3).
Proof.
  induction s1 as [|c s1 IH]; [done|].
  change (String c ((s1 ++ s2) ++ s3) = String c (s1 ++ (s2 ++ s3))).
  by rewrite IH.
Qed.

Lemma length_append s1 s2 :
  String.length (s1 ++ s2) = (String.length s1 + String.length s2)%nat.
Proof.
  induction s1 as [|c s1 IH]; [done|].
  change (S (String.length (s1 ++ s2))
          = S (String.length s1 + String.length s2)).
  by rewrite IH.
Qed.

(** ** The loop body, field by field *)

Create Rewrite HintDb frame.

(** Computes the fields of updated states and the boolean connectives,
    leaving the maps alone. *)
Ltac fields :=
  cbn [packageOutput outstandingOutput failures slowPassingTests
       slowFailingTests init trustTimestamps elapsedTotalSec timedOutTestName
       timedOutEvent curTestStart lastTestName lastEvent logged
       set_packageOutput set_outstandingOutput set_failures
       set_slowPassingTests set_slowFailingTests set_init set_trustTimestamps
       set_elapsedTotalSec set_timedOut set_curTestStart set_lastTestName
       set_lastEvent add_log with_Elapsed Action Test Output Time Elapsed
       negb andb orb].

Ltac frame_beforeSwitch := intros; unfold beforeSwitch; by repeat case_match.

Lemma beforeSwitch_packageOutput st te :
  packageOutput (beforeSwitch st te) = packageOutput st.
Proof. frame_beforeSwitch. Qed.
Lemma beforeSwitch_outstandingOutput st te :
  outstandingOutput (beforeSwitch st te) = outstandingOutput st.
Proof. frame_beforeSwitch. Qed.
Lemma beforeSwitch_failures st te :
  failures (beforeSwitch st te) = failures st.
Proof. frame_beforeSwitch. Qed.
Lemma beforeSwitch_slowPassingTests st te :
  slowPassingTests (beforeSwitch st te) = slowPassingTests st.
Proof. frame_beforeSwitch. Qed.
Lemma beforeSwitch_slowFailingTests st te :
  slowFailingTests (beforeSwitch st te) = slowFailingTests st.
Proof. frame_beforeSwitch. Qed.
Lemma beforeSwitch_timedOutTestName st te :
  timedOutTestName (beforeSwitch st te) = timedOutTestName st.
Proof. frame_beforeSwitch. Qed.
Lemma beforeSwitch_timedOutEvent st te :
  timedOutEvent (beforeSwitch st te) = timedOutEvent st.
Proof. frame_beforeSwitch. Qed.
Lemma beforeSwitch_curTestStart st te :
  curTestStart (beforeSwitch st te) = curTestStart st.
Proof. frame_beforeSwitch. Qed.
Lemma beforeSwitch_lastTestName st te :
  lastTestName (beforeSwitch st te) = lastTestName st.
Proof. frame_beforeSwitch. Qed.
Lemma beforeSwitch_logged st te :
  logged (beforeSwitch st te) = logged st.
Proof. frame_beforeSwitch. Qed.
Lemma beforeSwitch_lastEvent st te :
  lastEvent (beforeSwitch st te) = te.
Proof. frame_beforeSwitch. Qed.

Lemma beforeSwitch_trustTimestamps st te :
  trustTimestamps (beforeSwitch st te) =
    if String.eqb (Test te) "" && init st
       && strings.Contains (Output te) "-exec 'stress '"
    then false else trustTimestamps st.
Proof.
  unfold beforeSwitch.
  destruct st as [? ? ? ? ? ini ? ? name ? ? ? ? ?]; simpl.
  destruct (String.eqb (Test te) ""); simpl; destruct ini; simpl;
    destruct (strings.Contains (Output te) "-exec 'stress '"); simpl;
    destruct (String.eqb name ""); simpl;
    destruct (float64.gt (Elapsed te) PrimFloat.zero); simpl;
    destruct ((length (strings.SplitN2 (Test te) "/") =? 1)%nat);
    reflexivity.
Qed.

Lemma beforeSwitch_elapsedTotalSec st te :
  elapsedTotalSec (beforeSwitch st te) =
    if String.eqb (timedOutTestName st) "" && counted te
    then PrimFloat.add (elapsedTotalSec st) (Elapsed te)
    else elapsedTotalSec st.
Proof.
  unfold beforeSwitch, counted, topLevel. rewrite SplitN2_length.
  destruct st as [? ? ? ? ? ini ? ? name ? ? ? ? ?]; simpl.
  destruct (String.eqb (Test te) ""); simpl; destruct ini; simpl;
    destruct (strings.Contains (Output te) "-exec 'stress '"); simpl;
    destruct (String.eqb name ""); simpl;
    destruct (float64.gt (Elapsed te) PrimFloat.zero); simpl;
    destruct (strings.Contains (Test te) "/"); reflexivity.
Qed.

#[global] Hint Rewrite beforeSwitch_packageOutput beforeSwitch_outstandingOutput
  beforeSwitch_failures beforeSwitch_slowPassingTests
  beforeSwitch_slowFailingTests beforeSwitch_timedOutTestName
  beforeSwitch_timedOutEvent beforeSwitch_curTestStart
  beforeSwitch_lastTestName beforeSwitch_logged beforeSwitch_lastEvent : frame.

Lemma adjustElapsed_Test st te : Test (adjustElapsed st te) = Test te.
Proof. unfold adjustElapsed. by case_match. Qed.
Lemma adjustElapsed_Action st te : Action (adjustElapsed st te) = Action te.
Proof. unfold adjustElapsed. by case_match. Qed.
Lemma adjustElapsed_Output st te : Output (adjustElapsed st te) = Output te.
Proof. unfold adjustElapsed. by case_match. Qed.

#[global] Hint Rewrite adjustElapsed_Test adjustElapsed_Action
  adjustElapsed_Output : frame.

(** The shapes of a successful iteration. *)
Lemma step_inv st te st' :
  step st te = Ok st' ->
  (Test te = "" /\ Action te = "output"
   /\ st' = set_packageOutput
              (packageOutput (beforeSwitch st te)
               ++ Output (adjustElapsed (beforeSwitch st te) te))
              (beforeSwitch st te))
  \/ (Test te = "" /\ Action te <> "output" /\ st' = beforeSwitch st te)
  \/ (Test te <> "" /\ Action te = "run"
      /\ st' = onRun (beforeSwitch st te)
                     (adjustElapsed (beforeSwitch st te) te))
  \/ (Test te <> "" /\ Action te = "output"
      /\ onOutput (beforeSwitch st te)
                  (adjustElapsed (beforeSwitch st te) te) = Ok st')
  \/ (Test te <> "" /\ (Action te = "pass" \/ Action te = "skip")
      /\ onPassSkip (beforeSwitch st te)
                    (adjustElapsed (beforeSwitch st te) te) = Ok st')
  \/ (Test te <> "" /\ Action te = "fail"
      /\ st' = onFail (beforeSwitch st te)
                      (adjustElapsed (beforeSwitch st te) te))
  \/ (Test te <> "" /\ Action te <> "run" /\ Action te <> "output"
      /\ Action te <> "pass" /\ Action te <> "skip" /\ Action te <> "fail"
      /\ st' = beforeSwitch st te).
Proof.
  unfold step, onTestEvent. intros H.
  rewrite nonempty_length, adjustElapsed_Test, ?adjustElapsed_Action in H.
  destruct (String.eqb_spec (Test te) "") as [Ht|Ht]; simpl in H.
  - destruct (String.eqb_spec (Action te) "output") as [Ha|Ha];
      inversion H; [left | right; left]; auto.
  - destruct (String.eqb_spec (Action te) "run") as [Hr|Hr].
    { inversion H. do 2 right; left. auto. }
    destruct (String.eqb_spec (Action te) "output") as [Ho|Ho].
    { do 3 right; left. auto. }
    destruct (String.eqb_spec (Action te) "pass") as [Hp|Hp].
    { simpl in H. do 4 right; left. auto. }
    destruct (String.eqb_spec (Action te) "skip") as [Hs|Hs].
    { simpl in H. do 4 right; left. auto. }
    simpl in H.
    destruct (String.eqb_spec (Action te) "fail") as [Hf|Hf].
    { inversion H. do 5 right; left. auto. }
    inversion H. subst st'. do 6 right. auto 10.
Qed.

Lemma onOutput_inv st te st' :
  onOutput st te = Ok st' ->
  (strings.Contains (Output te) timeoutMsg = false
   /\ st' = set_outstandingOutput
              (<[Test te := (events_of (outstandingOutput st) (Test te)
                             ++ [te])%list]> (outstandingOutput st)) st)
  \/ (strings.Contains (Output te) timeoutMsg = true
      /\ exists elapsed lines,
          timeoutElapsed (trustTimestamps st) (curTestStart st)
                         (elapsedTotalSec st) te = Ok (elapsed, lines)
          /\ st' = set_timedOut (Test te) (with_Elapsed elapsed te)
                     (add_log lines
                        (set_outstandingOutput
                           (<[Test te := (events_of (outstandingOutput st)
                                            (Test te) ++ [te])%list]>
                              (outstandingOutput st)) st))).
Proof.
  unfold onOutput. intros H.
  destruct (strings.Contains (Output te) timeoutMsg).
  - right. split; [done|]. simpl in H.
    destruct (timeoutElapsed _ _ _ _) as [[elapsed lines]|] eqn:E;
      simpl in H; [|done].
    exists elapsed, lines. by inversion H.
  - left. by inversion H.
Qed.

Lemma onPassSkip_inv st te st' :
  onPassSkip st te = Ok st' ->
  timedOutTestName st = ""
  /\ st' =
     let st0 :=
       set_outstandingOutput (delete (Test te) (outstandingOutput st)) st in
     if float64.gt (Elapsed te) shortTestFilterSecs && topLevel te
     then set_slowPassingTests (slowPassingTests st ++ [te])%list st0
     else st0.
Proof.
  unfold onPassSkip, topLevel. intros H.
  destruct (String.eqb_spec (timedOutTestName st) "") as [Hn|Hn];
    simpl in H; [|done].
  split; [done|]. inversion H.
  by destruct (float64.gt _ _), (strings.Contains _ _).
Qed.

(** Splits a successful iteration into its shapes, with the state and the
    event the [switch] sees named [st1] and [te1]. *)
Ltac step_shapes H st1 te1 :=
  let H' := fresh H in
  pose proof (step_inv _ _ _ H) as H';
  match type of H with
  | step ?st ?te = _ =>
      set (st1 := beforeSwitch st te) in *;
      set (te1 := adjustElapsed st1 te) in *
  end;
  destruct H' as [(Ht & Ha & ->)|[(Ht & Ha & ->)|[(Ht & Ha & ->)|
    [(Ht & Ha & H')|[(Ht & Ha & H')|[(Ht & Ha & ->)|
    (Ht & Hr & Ho & Hp & Hs & Hf & ->)]]]]]];
  [ | | | apply onOutput_inv in H';
          destruct H' as [(Hm & ->)|(Hm & elapsed & lines & Hel & ->)];
          unfold te1 in Hm; rewrite adjustElapsed_Output in Hm
    | apply onPassSkip_inv in H'; destruct H' as (Hnone & ->) | | ].

Lemma recordsTimeout_Test te : recordsTimeout te = true -> Test te <> "".
Proof.
  unfold recordsTimeout. intros H e. rewrite e in H. done.
Qed.

Lemma step_timedOutTestName st te st' :
  step st te = Ok st' ->
  timedOutTestName st' =
    if recordsTimeout te then Test te else timedOutTestName st.
Proof.
  intros H. unfold recordsTimeout. step_shapes H st1 te1; subst st1 te1.
  1,2: rewrite Ht; fields; by autorewrite with frame.
  all: apply String.eqb_neq in Ht; rewrite Ht; fields.
  - rewrite Ha. fields. unfold onRun.
    case_match; fields; by autorewrite with frame.
  - rewrite Ha, Hm. fields. by autorewrite with frame.
  - rewrite Ha, Hm. fields. by autorewrite with frame.
  - assert ((Action te =? "output")%string = false) as ->
      by (by destruct Ha as [-> | ->]).
    fields. case_match; fields; by autorewrite with frame.
  - rewrite Ha. fields. unfold onFail.
    repeat case_match; fields; by autorewrite with frame.
  - apply String.eqb_neq in Ho. rewrite Ho. fields.
    by autorewrite with frame.
Qed.

Lemma step_elapsedTotalSec st te st' :
  step st te = Ok st' ->
  elapsedTotalSec st' =
    if String.eqb (timedOutTestName st) "" && counted te
    then PrimFloat.add (elapsedTotalSec st) (Elapsed te)
    else elapsedTotalSec st.
Proof.
  intros H. rewrite <- beforeSwitch_elapsedTotalSec.
  step_shapes H st1 te1; try done.
  - unfold onRun. by case_match.
  - simpl. by case_match.
  - unfold onFail. by repeat case_match.
Qed.

(** ** [elapsedTotalSec] *)

Lemma loop_timedOut_elapsedTotalSec events : forall st st',
  timedOutTestName st <> "" ->
  loop st events = Ok st' ->
  elapsedTotalSec st' = elapsedTotalSec st.
Proof.
  induction events as [|te events IH]; intros st st' Hn H; simpl in H.
  - by inversion H.
  - destruct (step st te) as [st1|] eqn:E; simpl in H; [|done].
    rewrite (IH st1 st'); [| |exact H].
    + rewrite (step_elapsedTotalSec _ _ _ E).
      apply String.eqb_neq in Hn. by rewrite Hn.
    + rewrite (step_timedOutTestName _ _ _ E).
      destruct (recordsTimeout te) eqn:R; [|done].
      by apply recordsTimeout_Test.
Qed.

Lemma loop_elapsedTotalSec events : forall st st',
  timedOutTestName st = "" ->
  loop st events = Ok st' ->
  elapsedTotalSec st' =
    fold_left (fun acc te => PrimFloat.add acc (Elapsed te))
              (List.filter counted (untilTimeout events)) (elapsedTotalSec st).
Proof.
  induction events as [|te events IH]; intros st st' Hn H; simpl in H.
  - by inversion H.
  - destruct (step st te) as [st1|] eqn:E; simpl in H; [|done].
    pose proof (step_elapsedTotalSec _ _ _ E) as He.
    pose proof (step_timedOutTestName _ _ _ E) as Hname.
    rewrite Hn in He. simpl in He.
    cbn [untilTimeout List.filter].
    destruct (recordsTimeout te) eqn:R.
    + rewrite (loop_timedOut_elapsedTotalSec events st1 st'); [| |done].
      * rewrite He. by destruct (counted te).
      * rewrite Hname. by apply recordsTimeout_Test.
    + rewrite (IH st1 st'); [| |done].
      * rewrite He. by destruct (counted te).
      * by rewrite Hname.
Qed.

(** C8, as the code has it. At every point of the stream, that is after
    any number [n] of its events, [elapsedTotalSec] is the sum, taken from
    left to right, of the [Elapsed] of the events seen so far that arrived
    while no timeout was recorded, have a positive [Elapsed] and a test name
    without [/]. An event with an empty test name is one of them. *)
Theorem C8_elapsedTotalSec_sum (events : list testEvent) (n : nat)
    (st : runState) :
  loop runState_start (take n events) = Ok st ->
  elapsedTotalSec st =
    sumElapsed (List.filter counted (untilTimeout (take n events))).
Proof.
  intros H. by apply (loop_elapsedTotalSec _ runState_start st).
Qed.

Lemma C8_elapsedTotalSec_sum_witness :
  elapsedTotalSec <$> value (loop runState_start (take 3 Sample.durations))
  = Some 2.25%float.
Proof.
  destruct (loop _ _) as [st|] eqn:E.
  - simpl. f_equal.
    rewrite (C8_elapsedTotalSec_sum Sample.durations 3 st E).
    vm_compute. reflexivity.
  - vm_compute in E. discriminate E.
Defined.

(** C8 as stated fails: the event that ends a package, which has an empty
    test name, is added to [elapsedTotalSec]. *)
Lemma C8_package_event_counted :
  exists st,
    step runState_start Sample.packageEnd = Ok st
    /\ Test Sample.packageEnd = ""
    /\ elapsedTotalSec runState_start = 0%float
    /\ elapsedTotalSec st = 1.5%float.
Proof.
  eexists. split; [vm_compute; reflexivity|]. vm_compute. repeat split.
Qed.

Lemma step_lastEvent st te st' : step st te = Ok st' -> lastEvent st' = te.
Proof.
  intros H. rewrite <- (beforeSwitch_lastEvent st te).
  step_shapes H st1 te1; try done.
  - unfold onRun. by case_match.
  - simpl. by case_match.
  - unfold onFail. by repeat case_match.
Qed.

Lemma step_failures st te st' :
  step st te = Ok st' ->
  failures st' =
    if negb (String.eqb (Test te) "") && String.eqb (Action te) "fail"
       && negb (String.eqb (timedOutTestName st) (Test te))
    then <[Test te := events_of (outstandingOutput st) (Test te)]> (failures st)
    else failures st.
Proof.
  intros H. step_shapes H st1 te1; subst st1 te1.
  1,2: rewrite Ht; fields; by autorewrite with frame.
  all: apply String.eqb_neq in Ht; rewrite Ht; fields.
  - rewrite Ha. fields. unfold onRun.
    case_match; fields; by autorewrite with frame.
  - rewrite Ha. fields. by autorewrite with frame.
  - rewrite Ha. fields. by autorewrite with frame.
  - assert ((Action te =? "fail")%string = false) as ->
      by (by destruct Ha as [-> | ->]).
    fields. case_match; fields; by autorewrite with frame.
  - rewrite Ha. fields. unfold onFail. autorewrite with frame.
    destruct (negb (strings.Contains (Test te) "/")
              || (timedOutTestName st =? Test te)%string); fields;
      autorewrite with frame;
      destruct (timedOutTestName st =? Test te)%string; fields;
      by autorewrite with frame.
  - apply String.eqb_neq in Hf. rewrite Hf. fields.
    by autorewrite with frame.
Qed.

(** ** Streams without failure and without timeout *)

Lemma loop_quiet events : forall st st',
  Forall (fun te => Action te <> "fail") events ->
  Forall (fun te => strings.Contains (Output te) timeoutMsg = false) events ->
  loop st events = Ok st' ->
  failures st = ∅ -> timedOutTestName st = "" ->
  Action (lastEvent st) <> "fail" ->
  failures st' = ∅ /\ timedOutTestName st' = ""
  /\ Action (lastEvent st') <> "fail".
Proof.
  induction events as [|te events IH]; intros st st' Hf Hm H Hfs Hn Hl;
    simpl in H.
  - inversion H. by subst.
  - destruct (step st te) as [st1|] eqn:E; simpl in H; [|done].
    inversion Hf as [|? ? Hf1 Hf2]. inversion Hm as [|? ? Hm1 Hm2]. subst.
    apply (IH st1 st' Hf2 Hm2 H).
    + rewrite (step_failures _ _ _ E).
      apply String.eqb_neq in Hf1. rewrite Hf1.
      by rewrite andb_false_r.
    + rewrite (step_timedOutTestName _ _ _ E). unfold recordsTimeout.
      rewrite Hm1. by rewrite andb_false_r.
    + by rewrite (step_lastEvent _ _ _ E).
Qed.

Lemma consolidate_empty keys log : consolidate keys ∅ log = (∅, log).
Proof.
  induction keys as [|k keys IH]; simpl; [done|]. by rewrite lookup_empty.
Qed.

Section no_reports.

Variable lookupEnvPKG : option string.
Variable CockroachPkgPrefix : string.
Variable f : issue -> option string.
Variable getAuthorEmail : string -> string -> string + string.
Variable writeSlowTestsReport : string -> option string.
Variable sortSlice :
  (testEvent -> testEvent -> bool) -> list testEvent -> list testEvent.
Variable rangeOrder : gmap string (list testEvent) -> list string.

Local Abbreviation listFailures' :=
  (listFailures lookupEnvPKG CockroachPkgPrefix f getAuthorEmail
                writeSlowTestsReport sortSlice rangeOrder).

(** C1, as the code has it. A stream without [fail] events (so its last
    event is not one) and without the timeout message, at the end of
    which no output is outstanding for the test started last, makes
    [listFailures] call [f] not even once. *)
Theorem C1_no_reports (events : list testEvent) (decodeErr : option string) :
  Forall (fun te => Action te <> "fail") events ->
  Forall (fun te => strings.Contains (Output te) timeoutMsg = false) events ->
  (forall st, loop runState_start events = Ok st ->
              outstandingOutput st !! lastTestName st = None) ->
  posted (listFailures' events decodeErr) = [].
Proof.
  intros Hf Hm Hout. unfold listFailures.
  destruct lookupEnvPKG as [packageName|]; [|done].
  destruct (loop runState_start events) as [st|] eqn:E; [|done].
  destruct decodeErr; [done|].
  destruct (loop_quiet events _ _ Hf Hm E) as (Hfs & Hn & Hl); try done.
  specialize (Hout st eq_refl).
  assert (afterLoop st = st) as ->.
  { unfold afterLoop. by rewrite Hn, Hout. }
  unfold finish, postIssues.
  apply String.eqb_neq in Hl. rewrite Hl, Hfs, Hn. fields.
  rewrite consolidate_empty. by rewrite dom_empty_L, elements_empty.
Qed.

End no_reports.

Lemma C1_no_reports_witness : posted (Sample.run Sample.passing) = [].
Proof.
  apply C1_no_reports.
  - repeat constructor; discriminate.
  - repeat constructor.
  - intros st H. vm_compute in H. inversion H. vm_compute. reflexivity.
Defined.

(** C1 as stated fails: a stream without [fail] events and without the
    timeout message whose last event is an [output] event leaves output
    outstanding for the last test, which is then reported as failed. *)
Lemma C1_outstanding_output_reported :
  forallb (fun te => negb (String.eqb (Action te) "fail")
                     && negb (strings.Contains (Output te) timeoutMsg))
          Sample.truncated = true
  /\ map testName (posted (Sample.run Sample.truncated)) = ["TestA"]
  /\ map testMessage (posted (Sample.run Sample.truncated)) = ["boom"].
Proof. vm_compute. repeat split. Qed.

(** ** Recording a timeout *)

Lemma step_output st te :
  Test te <> "" -> Action te = "output" ->
  step st te =
    onOutput (beforeSwitch st te) (adjustElapsed (beforeSwitch st te) te).
Proof.
  intros Ht Ha. unfold step, onTestEvent.
  rewrite nonempty_length, adjustElapsed_Test, !adjustElapsed_Action, Ha.
  apply String.eqb_neq in Ht. by rewrite Ht.
Qed.

Lemma timeoutElapsed_adjustElapsed trust start total st te :
  timeoutElapsed trust start total (adjustElapsed st te) =
  timeoutElapsed trust start total te.
Proof. unfold adjustElapsed. by case_match. Qed.

Lemma with_Elapsed_adjustElapsed e st te :
  with_Elapsed e (adjustElapsed st te) = with_Elapsed e te.
Proof. unfold adjustElapsed. by case_match. Qed.

Lemma recordsTimeout_inv te :
  recordsTimeout te = true ->
  Test te <> "" /\ Action te = "output"
  /\ strings.Contains (Output te) timeoutMsg = true.
Proof.
  unfold recordsTimeout. intros H.
  apply andb_prop in H as [H Hm]. apply andb_prop in H as [Ht Ha].
  apply negb_true_iff, String.eqb_neq in Ht. apply String.eqb_eq in Ha.
  done.
Qed.

(** C2, as the code has it: the last timeout wins. An [output] event of a
    test that carries the timeout message records a timeout whatever was
    recorded before: after it [timedOutTestName] is the test of the event
    and [timedOutEvent] is the event with the duration computed for it.
    With trusted timestamps the iteration always gets that far. *)
Theorem C2_last_timeout_wins (st : runState) (te : testEvent) :
  recordsTimeout te = true ->
  (trustTimestamps st = true -> exists st', step st te = Ok st')
  /\ forall st', step st te = Ok st' ->
       timedOutTestName st' = Test te
       /\ exists elapsed lines,
            timeoutElapsed (trustTimestamps st') (curTestStart st')
                           (elapsedTotalSec st') te = Ok (elapsed, lines)
            /\ timedOutEvent st' = with_Elapsed elapsed te.
Proof.
  intros R. destruct (recordsTimeout_inv _ R) as (Ht & Ha & Hm).
  rewrite (step_output _ _ Ht Ha). unfold onOutput.
  rewrite adjustElapsed_Output, Hm, timeoutElapsed_adjustElapsed. fields.
  split.
  - intros Htrust. rewrite beforeSwitch_trustTimestamps.
    apply String.eqb_neq in Ht. rewrite Ht, Htrust. fields.
    unfold timeoutElapsed. simpl. eauto.
  - intros st' H.
    destruct (timeoutElapsed _ _ _ te) as [[elapsed lines]|] eqn:E;
      simpl in H; [|done].
    inversion H. subst st'. fields.
    rewrite adjustElapsed_Test, with_Elapsed_adjustElapsed.
    split; [done|]. by exists elapsed, lines.
Qed.

Lemma C2_last_timeout_wins_witness :
  timedOutTestName Sample.afterFirstTimeout = "TestA"
  /\ exists st',
       step Sample.afterFirstTimeout Sample.secondTimeout = Ok st'
       /\ timedOutTestName st' = "TestB".
Proof.
  split; [reflexivity|].
  destruct (C2_last_timeout_wins Sample.afterFirstTimeout
              Sample.secondTimeout eq_refl) as [Hgoes Hrecords].
  destruct (Hgoes eq_refl) as [st' Hstep].
  exists st'. split; [exact Hstep|]. exact (proj1 (Hrecords st' Hstep)).
Defined.

(** C2 as stated fails: after the timeout message in the output of [TestA]
    the same message in the output of [TestB] changes both
    [timedOutTestName] and [timedOutEvent]. *)
Lemma C2_second_timeout_overwrites :
  exists st st',
    loop runState_start Sample.firstTimeout = Ok st
    /\ timedOutTestName st = "TestA"
    /\ Test (timedOutEvent st) = "TestA"
    /\ step st Sample.secondTimeout = Ok st'
    /\ timedOutTestName st' = "TestB"
    /\ Test (timedOutEvent st') = "TestB".
Proof.
  eexists. eexists. split; [vm_compute; reflexivity|].
  split; [reflexivity|]. split; [reflexivity|].
  split; [vm_compute; reflexivity|]. split; reflexivity.
Qed.

(** ** The slow test lists *)

(** C3 fails on the code at a test that fails quickly: the [fail] event of
    a top-level test is entered in [slowFailingTests] whatever its
    [Elapsed], here a tenth of a second, although no timeout is recorded;
    the [pass] case compares with [shortTestFilterSecs] first. *)
Lemma C3_quick_failure_listed :
  exists st,
    loop runState_start Sample.quickFailure = Ok st
    /\ timedOutTestName st = ""
    /\ map Test (slowFailingTests st) = ["TestA"]
    /\ map Action (slowFailingTests st) = ["fail"]
    /\ forallb (fun te => float64.gt (Elapsed te) shortTestFilterSecs)
               (slowFailingTests st) = false.
Proof.
  eexists. split; [vm_compute; reflexivity|]. vm_compute. repeat split.
Qed.

Lemma onRun_timedOutTestName st te :
  timedOutTestName (onRun st te) = timedOutTestName st.
Proof. unfold onRun. by case_match. Qed.
Lemma onRun_outstandingOutput st te :
  outstandingOutput (onRun st te) = outstandingOutput st.
Proof. unfold onRun. by case_match. Qed.
Lemma onRun_slowFailingTests st te :
  slowFailingTests (onRun st te) = slowFailingTests st.
Proof. unfold onRun. by case_match. Qed.
Lemma onRun_slowPassingTests st te :
  slowPassingTests (onRun st te) = slowPassingTests st.
Proof. unfold onRun. by case_match. Qed.

Lemma onFail_timedOutTestName st te :
  timedOutTestName (onFail st te) = timedOutTestName st.
Proof. unfold onFail. by repeat case_match. Qed.
Lemma onFail_outstandingOutput st te :
  outstandingOutput (onFail st te) = delete (Test te) (outstandingOutput st).
Proof. unfold onFail. by repeat case_match. Qed.
Lemma onFail_slowPassingTests st te :
  slowPassingTests (onFail st te) = slowPassingTests st.
Proof. unfold onFail. by repeat case_match. Qed.
Lemma onFail_slowFailingTests st te :
  slowFailingTests (onFail st te) =
    if topLevel te || String.eqb (timedOutTestName st) (Test te)
    then (slowFailingTests st ++ [te])%list else slowFailingTests st.
Proof. unfold onFail, topLevel. by repeat case_match. Qed.

#[global] Hint Rewrite onRun_timedOutTestName onRun_outstandingOutput
  onRun_slowFailingTests onRun_slowPassingTests onFail_timedOutTestName
  onFail_outstandingOutput onFail_slowPassingTests : frame.

Lemma app_one_not_nil {A} (l : list A) (x : A) : (l ++ [x])%list <> [].
Proof. by destruct l. Qed.

Lemma step_timeoutAccounted st te st' :
  step st te = Ok st' -> timeoutAccounted st -> timeoutAccounted st'.
Proof.
  unfold timeoutAccounted. intros H Inv.
  step_shapes H st1 te1; subst st1 te1; fields; autorewrite with frame;
    try done.
  - intros Hn. destruct (Inv Hn) as [Ho|Hs]; [left|by right].
    destruct (decide (Test te = timedOutTestName st)) as [->|Hne].
    + rewrite lookup_insert_eq. by eexists.
    + by rewrite lookup_insert_ne.
  - intros _. left. rewrite lookup_insert_eq. by eexists.
  - revert Hnone. autorewrite with frame. intros Hnone.
    case_match; fields; autorewrite with frame; by intros Hn.
  - rewrite onFail_slowFailingTests. autorewrite with frame. intros Hn.
    destruct (String.eqb_spec (timedOutTestName st) (Test te)) as [He|He].
    + right. rewrite orb_true_r. apply app_one_not_nil.
    + destruct (Inv Hn) as [Ho|Hs].
      * left. by rewrite lookup_delete_ne.
      * right. case_match; [apply app_one_not_nil | done].
Qed.

Lemma loop_timeoutAccounted events : forall st st',
  loop st events = Ok st' -> timeoutAccounted st -> timeoutAccounted st'.
Proof.
  induction events as [|te events IH]; intros st st' H Inv; simpl in H.
  - inversion H. by subst.
  - destruct (step st te) as [st1|] eqn:E; simpl in H; [|done].
    eauto using step_timeoutAccounted.
Qed.

Lemma afterLoop_timedOutTestName st :
  timedOutTestName (afterLoop st) = timedOutTestName st.
Proof. unfold afterLoop. by repeat case_match. Qed.

Lemma afterLoop_slowFailingTests st :
  timeoutAccounted st -> timedOutTestName st <> "" ->
  slowFailingTests (afterLoop st) <> [].
Proof.
  intros Inv Hn. unfold afterLoop.
  apply String.eqb_neq in Hn as Hn'. rewrite Hn'. fields.
  destruct (outstandingOutput st !! timedOutTestName st) eqn:E; fields.
  - by destruct (slowFailingTests st).
  - destruct (Inv Hn) as [[? Ho]|Hs]; congruence.
Qed.

(** ** The issue for a timeout *)

Section timeout.

Variable lookupEnvPKG : option string.
Variable CockroachPkgPrefix : string.
Variable f : issue -> option string.
Variable getAuthorEmail : string -> string -> string + string.
Variable writeSlowTestsReport : string -> option string.
Variable sortSlice :
  (testEvent -> testEvent -> bool) -> list testEvent -> list testEvent.
Variable rangeOrder : gmap string (list testEvent) -> list string.

(** [sort.Slice] reorders the slice it is given. *)
Hypothesis sortSlice_Permutation :
  forall less l, Permutation (sortSlice less l) l.

Local Abbreviation listFailures' :=
  (listFailures lookupEnvPKG CockroachPkgPrefix f getAuthorEmail
                writeSlowTestsReport sortSlice rangeOrder).
Local Abbreviation postIssues' := (postIssues f getAuthorEmail rangeOrder).

Lemma sorted_slowFailingTests_not_nil events st :
  loop runState_start events = Ok st ->
  timedOutTestName st <> "" ->
  sortSlice byElapsedDesc (slowFailingTests (afterLoop st)) <> [].
Proof.
  intros H Hn Hnil.
  assert (timeoutAccounted st) as Inv.
  { apply (loop_timeoutAccounted _ _ _ H). by intros ?. }
  apply (afterLoop_slowFailingTests st Inv Hn).
  apply Permutation_nil. rewrite <- Hnil. apply sortSlice_Permutation.
Qed.

(** C4. When the loop has recorded a timeout, the sorted
    [slowFailingTests] the timeout issue is computed from is not empty,
    and no run of [listFailures] ends in the panic of an index out of
    range. *)
Theorem C4_slowFailingTests_not_empty (events : list testEvent)
    (decodeErr : option string) :
  (forall st, loop runState_start events = Ok st ->
              timedOutTestName st <> "" ->
              sortSlice byElapsedDesc (slowFailingTests (afterLoop st)) <> [])
  /\ ended (listFailures' events decodeErr) <> Some PanicIndexOutOfRange.
Proof.
  split; [apply sorted_slowFailingTests_not_nil|].
  unfold listFailures. destruct lookupEnvPKG as [packageName|]; [|done].
  destruct (loop runState_start events) as [st|] eqn:E.
  2:{ simpl. intros [= ->].
      clear -E. revert E. generalize runState_start.
      induction events as [|te events IH]; intros st0 E; simpl in E;
        [done|].
      destruct (step st0 te) as [st1|s1] eqn:E1; simpl in E; [by eauto|].
      inversion E. subst s1. clear -E1. unfold step in E1.
      destruct (0 <? String.length _)%nat; [|by case_match].
      unfold onTestEvent, onOutput, onPassSkip, timeoutElapsed in E1.
      repeat (case_match; simpl in *; try done). }
  destruct decodeErr; [done|].
  unfold finish.
  destruct (postIssues _ _ _ _ _ _) as [[posted log] [err|]]; [done|].
  rewrite afterLoop_timedOutTestName.
  destruct (String.eqb_spec (timedOutTestName st) "") as [Hn|Hn];
    fields; [done|].
  pose proof (sorted_slowFailingTests_not_nil events st E Hn) as Hs.
  unfold postTimeout.
  destruct (sortSlice byElapsedDesc (slowFailingTests (afterLoop st)))
    as [|head rest]; [done|].
  repeat case_match; simpl; congruence.
Qed.

(** C5. When the loop has recorded a timeout and every issue for a failed
    test has been posted, [listFailures] calls [f] exactly once more, with
    the slow test report as message. With [slowest] the head of the sorted
    [slowFailingTests], or the head of the sorted [slowPassingTests] when
    that one has the larger [Elapsed]: if [slowest] is the test that timed
    out, the issue names that test; otherwise it is the issue for the
    package, with test name ["(unknown)"]. *)
Theorem C5_one_timeout_issue (events : list testEvent) (st : runState)
    (pkg : string) (earlier : list issue) (log : list logEntry) :
  lookupEnvPKG = Some pkg ->
  loop runState_start events = Ok st ->
  timedOutTestName st <> "" ->
  postIssues' pkg (strings.TrimPrefix pkg CockroachPkgPrefix) (afterLoop st)
    = (earlier, log, None) ->
  let failing := sortSlice byElapsedDesc (slowFailingTests (afterLoop st)) in
  let passing := sortSlice byElapsedDesc (slowPassingTests (afterLoop st)) in
  exists first i,
    head failing = Some first
    /\ posted (listFailures' events None) = (earlier ++ [i])%list
    /\ packageName i = pkg
    /\ testMessage i = genSlowTestsReport passing failing
    /\ let slowest :=
         match passing with
         | p :: _ =>
             if float64.gt (Elapsed p) (Elapsed first) then p else first
         | [] => first
         end in
       if String.eqb (timedOutTestName st) (Test slowest)
       then testName i = timedOutTestName st
            /\ title i = strings.TrimPrefix pkg CockroachPkgPrefix ++ ": "
                         ++ timedOutTestName st ++ " timed out under stress"
       else testName i = "(unknown)"
            /\ title i = strings.TrimPrefix pkg CockroachPkgPrefix
                         ++ ": package timed out under stress".
Proof.
  intros Hpkg E Hn Hpost failing passing.
  pose proof (sorted_slowFailingTests_not_nil events st E Hn) as Hs.
  unfold listFailures, finish. rewrite Hpkg, E, Hpost.
  rewrite afterLoop_timedOutTestName.
  apply String.eqb_neq in Hn as Hn'. rewrite Hn'. fields.
  unfold postTimeout. fold failing passing. fold failing in Hs.
  destruct failing as [|first rest]; [done|].
  exists first. unfold slowestOf.
  destruct (timedOutTestName st =? Test _)%string.
  - destruct (authorOf _ _ _) as [email line].
    eexists. repeat split; reflexivity.
  - eexists. repeat split; reflexivity.
Qed.

End timeout.

(** ** The sorting function of the examples *)

Lemma Sample_insert_Permutation less x l :
  Permutation (Sample.insert less x l) (x :: l).
Proof.
  induction l as [|y l IH]; simpl; [done|].
  destruct (less x y); [done|].
  rewrite IH. apply perm_swap.
Qed.

Lemma Sample_sortSlice_Permutation less l :
  Permutation (Sample.sortSlice less l) l.
Proof.
  induction l as [|x l IH]; simpl; [done|].
  unfold Sample.sortSlice in *. simpl.
  rewrite Sample_insert_Permutation. by constructor.
Qed.

Lemma Sample_deadlock_loop :
  loop runState_start Sample.deadlock = Ok Sample.afterDeadlock.
Proof. vm_compute. reflexivity. Qed.

Lemma Sample_deadlock_timedOut :
  timedOutTestName Sample.afterDeadlock <> "".
Proof. vm_compute. discriminate. Qed.

Lemma C4_slowFailingTests_not_empty_witness :
  Sample.sortSlice byElapsedDesc
    (slowFailingTests (afterLoop Sample.afterDeadlock)) <> []
  /\ ended (Sample.run Sample.deadlock) <> Some PanicIndexOutOfRange.
Proof.
  destruct (C4_slowFailingTests_not_empty (Some Sample.pkg) Sample.prefix
              (fun _ => None) (fun _ _ => inr "no git") (fun _ => None)
              Sample.sortSlice Sample.rangeOrder
              Sample_sortSlice_Permutation Sample.deadlock None)
    as [Hlist Hended].
  split; [|exact Hended].
  exact (Hlist Sample.afterDeadlock Sample_deadlock_loop
               Sample_deadlock_timedOut).
Defined.

Lemma Sample_deadlock_posts :
  postIssues (fun _ => None) (fun _ _ => inr "no git") Sample.rangeOrder
             Sample.pkg (strings.TrimPrefix Sample.pkg Sample.prefix)
             (afterLoop Sample.afterDeadlock)
  = ([], [], None).
Proof. vm_compute. reflexivity. Qed.

Lemma C5_one_timeout_issue_witness :
  exists i,
    posted (Sample.run Sample.deadlock) = [i] /\ testName i = "TestA".
Proof.
  destruct (C5_one_timeout_issue (Some Sample.pkg) Sample.prefix
              (fun _ => None) (fun _ _ => inr "no git") (fun _ => None)
              Sample.sortSlice Sample.rangeOrder
              Sample_sortSlice_Permutation Sample.deadlock
              Sample.afterDeadlock Sample.pkg [] []
              eq_refl Sample_deadlock_loop Sample_deadlock_timedOut
              Sample_deadlock_posts)
    as (first & i & Hfirst & Hposted & _ & _ & Hname).
  exists i. split; [exact Hposted|].
  vm_compute in Hfirst. injection Hfirst as <-.
  vm_compute in Hname. exact (proj1 Hname).
Defined.

(** C5 as stated fails: a timeout is recorded for [TestA], the posting
    function refuses the issue for [TestF], which failed, and
    [listFailures] returns this error: no issue is posted for the timeout
    and no report is written. *)
Lemma C5_refused_post_no_timeout_issue :
  let o := listFailures (Some Sample.pkg) Sample.prefix Sample.refuse
             (fun _ _ => inr "no git") (fun _ => None) Sample.sortSlice
             Sample.rangeOrder Sample.refusedPost None in
  timedOutTestName <$> value (loop runState_start Sample.refusedPost)
  = Some "TestA"
  /\ map testName (posted o) = ["TestF"]
  /\ ended o = Some (ReturnErr (errPostIssue "refused"))
  /\ slowTestsReport o = None.
Proof. vm_compute. repeat split. Qed.

(** ** The timeout pattern on the message Go prints *)

Lemma run_lit {A} (l : string) r s g (k : string -> regexp.groups -> option A) :
  regexp.run (regexp.lit l r) (l ++ s) g k = regexp.run r s g k.
Proof.
  induction l as [|c l IH]; [done|].
  change (regexp.run (regexp.lit l r) (l ++ s) g k = regexp.run r s g k)
    in IH.
  change (regexp.run (regexp.Chr c) (String c (l ++ s)) g
            (fun s' g' => regexp.run (regexp.lit l r) s' g' k)
          = regexp.run r s g k).
  cbn [regexp.run]. by rewrite Ascii.eqb_refl.
Qed.

Lemma run_star_digit_cons {A} d s g
    (k : string -> regexp.groups -> option A) :
  regexp.run (regexp.Star regexp.Digit) (String d s) g k
  = if regexp.is_digit d
    then match regexp.run (regexp.Star regexp.Digit) s g k with
         | Some a => Some a
         | None => k (String d s) g
         end
    else k (String d s) g.
Proof.
  cbn [regexp.run String.length].
  destruct (regexp.is_digit d); [|done].
  by rewrite (proj2 (Nat.ltb_lt _ _) (Nat.lt_succ_diag_r _)).
Qed.

(** The digits are taken as far as they go when what follows can be
    matched from there. *)
Lemma run_star_digit_greedy {A} ds : forall s g
    (k : string -> regexp.groups -> option A) a,
  digitsOnly ds = true ->
  match s with String c _ => regexp.is_digit c = false | EmptyString => True end ->
  k s g = Some a ->
  regexp.run (regexp.Star regexp.Digit) (ds ++ s) g k = Some a.
Proof.
  induction ds as [|d ds IH]; intros s g k a Hds Hs Hk.
  - change ("" ++ s) with s. destruct s as [|c s].
    + exact Hk.
    + by rewrite run_star_digit_cons, Hs.
  - change (String d ds ++ s) with (String d (ds ++ s)).
    cbn [digitsOnly] in Hds. apply andb_prop in Hds as [Hd Hds].
    rewrite run_star_digit_cons, Hd. by rewrite (IH s g k a).
Qed.

Lemma consumed_app p s : regexp.consumed (p ++ s) s = p.
Proof.
  unfold regexp.consumed. rewrite length_append.
  replace (String.length p + String.length s - String.length s)%nat
    with (String.length p) by lia.
  induction p as [|c p IH]; [by destruct s|].
  change (String c (substring 0 (String.length p) (p ++ s)) = String c p).
  by rewrite IH.
Qed.

Lemma consumed_char u rest : regexp.consumed (String u rest) rest = String u "".
Proof. exact (consumed_app (String u "") rest). Qed.

Lemma run_Cat {A} r1 r2 s g (k : string -> regexp.groups -> option A) :
  regexp.run (regexp.Cat r1 r2) s g k
  = regexp.run r1 s g (fun s' g' => regexp.run r2 s' g' k).
Proof. reflexivity. Qed.

Lemma run_Cap {A} i r s g (k : string -> regexp.groups -> option A) :
  regexp.run (regexp.Cap i r) s g k
  = regexp.run r s g (fun s' g' => k s' ((i, regexp.consumed s s') :: g')).
Proof. reflexivity. Qed.

Lemma run_Opt_NCap {A} r s g (k : string -> regexp.groups -> option A) :
  regexp.run (regexp.Opt (regexp.NCap r)) s g k
  = match regexp.run r s g k with
    | Some a => Some a
    | None => k s g
    end.
Proof. reflexivity. Qed.

Lemma run_Chr {A} c d s g (k : string -> regexp.groups -> option A) :
  regexp.run (regexp.Chr c) (String d s) g k
  = if Ascii.eqb c d then k s g else None.
Proof. reflexivity. Qed.

Lemma run_Dot {A} d s g (k : string -> regexp.groups -> option A) :
  regexp.run regexp.Dot (String d s) g k
  = if Ascii.eqb d regexp.newline then None else k s g.
Proof. reflexivity. Qed.

Lemma FindStringSubmatch_here r n s m :
  regexp.run r s []
    (fun s' g => Some (regexp.consumed s s' :: map (regexp.group g) (seq 1 n)))
  = Some m ->
  regexp.FindStringSubmatch r n s = Some m.
Proof. destruct s; simpl; by intros ->. Qed.

(** On output that starts with the message Go prints on a timeout, a
    number [ip] or [ip.fp] followed by a unit, the first group is the
    number and the second the first character of the unit. *)
Lemma timeoutRe_message (ip fr : string) (u : ascii) (rest : string) :
  digitsOnly ip = true ->
  (fr = "" /\ u <> "."%char)
  \/ (exists fp, fr = String "." fp /\ digitsOnly fp = true) ->
  regexp.is_digit u = false -> u <> regexp.newline ->
  regexp.FindStringSubmatch timeoutRe 2
    ("panic: test timed out after " ++ ip ++ fr ++ String u rest)
  = Some ["panic: test timed out after " ++ ip ++ fr ++ String u "";
          ip ++ fr; String u ""].
Proof.
  intros Hip Hfr Hu Hnl. apply Ascii.eqb_neq in Hnl.
  assert (forall whole,
    regexp.run timeoutRe
      ("panic: test timed out after " ++ ip ++ fr ++ String u rest) []
      (fun s' g => Some (regexp.consumed whole s'
                         :: map (regexp.group g) (seq 1 2)))
    = Some [regexp.consumed whole rest; ip ++ fr; String u ""]) as Hrun.
  { intros whole. unfold timeoutRe.
    rewrite run_lit, run_Cat, run_Cap, run_Cat.
    destruct Hfr as [[-> Hpoint]|(fp & -> & Hfp)].
    - change ("" ++ String u rest) with (String u rest).
      apply run_star_digit_greedy; [done|exact Hu|].
      rewrite run_Opt_NCap, run_Cat, run_Chr.
      apply Ascii.eqb_neq in Hpoint. rewrite Ascii.eqb_sym, Hpoint.
      rewrite run_Cap, run_Dot, Hnl, consumed_char, consumed_app.
      cbn. by rewrite append_nil_r.
    - change (String "." fp ++ String u rest)
        with (String "." (fp ++ String u rest)).
      apply run_star_digit_greedy; [done|done|].
      rewrite run_Opt_NCap, run_Cat, run_Chr, Ascii.eqb_refl.
      erewrite (run_star_digit_greedy fp); [reflexivity|done|exact Hu|].
      rewrite run_Cap, run_Dot, Hnl, consumed_char.
      replace (ip ++ String "." (fp ++ String u rest))
        with ((ip ++ String "." fp) ++ String u rest)
        by (by rewrite append_assoc).
      by rewrite consumed_app. }
  apply FindStringSubmatch_here. rewrite Hrun. do 2 f_equal.
  replace ("panic: test timed out after " ++ ip ++ fr ++ String u rest)
    with (("panic: test timed out after " ++ ip ++ fr ++ String u "") ++ rest).
  - apply consumed_app.
  - rewrite !append_assoc. reflexivity.
Qed.

(** ** The duration of the test that timed out *)

(** C6. Without trust in the timestamps, when the pattern matches the
    output with a first group that reads as the number [d], the duration is
    [d * 60 - elapsedTotalSec] for the unit [m] and [d - elapsedTotalSec]
    for the unit [s], in [float64] arithmetic, and nothing is logged. *)
Theorem C6_untrusted_duration (start : time.Time) (total : float)
    (te : testEvent) (matches : list string) (d : float) :
  regexp.FindStringSubmatch timeoutRe 2 (Output te) = Some matches ->
  strconv.ParseFloat (at_ matches 1) = Some d ->
  (at_ matches 2 = "m" ->
   timeoutElapsed false start total te
   = Ok (PrimFloat.sub (PrimFloat.mul d 60%float) total, []))
  /\ (at_ matches 2 = "s" ->
      timeoutElapsed false start total te = Ok (PrimFloat.sub d total, [])).
Proof.
  intros Hm Hd. unfold timeoutElapsed. rewrite Hm, Hd.
  split; intros ->; reflexivity.
Qed.

(** The same for output that starts with the message Go prints, whatever
    follows the first character of the unit. *)
Corollary timeoutElapsed_message (start : time.Time) (total : float)
    (te : testEvent) (ip fr rest : string) (d : float) :
  digitsOnly ip = true ->
  fr = "" \/ (exists fp, fr = String "." fp /\ digitsOnly fp = true) ->
  strconv.ParseFloat (ip ++ fr) = Some d ->
  (Output te = "panic: test timed out after " ++ ip ++ fr ++ String "m" rest ->
   timeoutElapsed false start total te
   = Ok (PrimFloat.sub (PrimFloat.mul d 60%float) total, []))
  /\ (Output te = "panic: test timed out after " ++ ip ++ fr ++ String "s" rest ->
      timeoutElapsed false start total te = Ok (PrimFloat.sub d total, [])).
Proof.
  intros Hip Hfr Hd.
  assert (forall u : ascii, u <> "."%char ->
            (fr = "" /\ u <> "."%char)
            \/ (exists fp, fr = String "." fp /\ digitsOnly fp = true)) as Hfr'.
  { intros u Hu. destruct Hfr as [->|Hfp]; [by left|by right]. }
  unfold timeoutElapsed.
  split; intros ->; rewrite timeoutRe_message by (try done; by apply Hfr');
    cbn [at_ nth]; by rewrite Hd.
Qed.

(** The scenario of C6: two minutes, of which 45 seconds are accounted
    for, leave 75 seconds. *)
Lemma C6_untrusted_duration_witness :
  timeoutElapsed false 0 45%float
    (Sample.event "output" "TestA" "panic: test timed out after 2m" 0 0)
  = Ok (75%float, []).
Proof.
  exact (proj1 (C6_untrusted_duration 0 45%float
                  (Sample.event "output" "TestA"
                                 "panic: test timed out after 2m" 0 0)
                  ["panic: test timed out after 2m"; "2"; "m"] 2%float
                  eq_refl eq_refl) eq_refl).
Defined.

(** C7, as the code has it. In a run whose timestamps are not trusted, for
    an [output] event of a test with the timeout message:
    - if the pattern does not match the output, the failure to parse is
      logged, the event is recorded with [Elapsed = -1] and the loop goes
      on;
    - if the pattern matches but its first group does not read as a
      number, or its second group is neither [m] nor [s], the run ends in
      [log.Fatal]. *)
Theorem C7_unparsed_timeout (st : runState) (te : testEvent) :
  trustTimestamps st = false ->
  recordsTimeout te = true ->
  (regexp.FindStringSubmatch timeoutRe 2 (Output te) = None ->
   exists st',
     step st te = Ok st'
     /\ timedOutEvent st' = with_Elapsed (PrimFloat.opp 1%float) te
     /\ logged st' = (logged st ++ [LogFailedToParseTimeout (Output te)])%list)
  /\ (forall matches,
        regexp.FindStringSubmatch timeoutRe 2 (Output te) = Some matches ->
        (strconv.ParseFloat (at_ matches 1) = None ->
         step st te = Stop (FatalParseFloat (at_ matches 1)))
        /\ (is_Some (strconv.ParseFloat (at_ matches 1)) ->
            at_ matches 2 <> "m" -> at_ matches 2 <> "s" ->
            step st te = Stop (FatalTimeUnit (Output te)))).
Proof.
  intros Htrust R. destruct (recordsTimeout_inv _ R) as (Ht & Ha & Hm).
  rewrite (step_output _ _ Ht Ha). unfold onOutput.
  rewrite adjustElapsed_Output, Hm, timeoutElapsed_adjustElapsed. fields.
  rewrite beforeSwitch_trustTimestamps.
  apply String.eqb_neq in Ht as Ht'. rewrite Ht', Htrust. fields.
  unfold timeoutElapsed. split.
  - intros ->. simpl. eexists. split; [reflexivity|]. fields.
    rewrite with_Elapsed_adjustElapsed. by autorewrite with frame.
  - intros matches ->. split.
    + by intros ->.
    + intros [d ->] Hnm Hns.
      apply String.eqb_neq in Hnm, Hns. by rewrite Hnm, Hns.
Qed.

Lemma C7_unparsed_timeout_witness :
  exists st',
    step Sample.stressRunning Sample.cutTimeout = Ok st'
    /\ timedOutEvent st' = with_Elapsed (PrimFloat.opp 1%float) Sample.cutTimeout
    /\ logged st' =
       [LogFailedToParseTimeout (Output Sample.cutTimeout)].
Proof.
  exact (proj1 (C7_unparsed_timeout Sample.stressRunning Sample.cutTimeout
                  eq_refl eq_refl) eq_refl).
Defined.

(** C7 as stated fails: the message Go prints for a timeout of one hour
    matches the pattern with the unit [h], and the run ends in [log.Fatal]
    without posting anything. *)
Lemma C7_hour_timeout_is_fatal :
  loop runState_start Sample.hourTimeout
  = Stop (FatalTimeUnit "panic: test timed out after 1h0m0s")
  /\ posted (Sample.run Sample.hourTimeout) = []
  /\ ended (Sample.run Sample.hourTimeout)
     = Some (FatalTimeUnit "panic: test timed out after 1h0m0s").
Proof. vm_compute. repeat split. Qed.

(** ** Consolidation of the failures *)

Lemma Index_slash_prefix s i :
  strings.Index s "/" = Some i ->
  strings.Index (String.substring 0 i s) "/" = None.
Proof.
  revert i. induction s as [|c s IH]; intros i H; simpl in H; [done|].
  destruct (Ascii.eqb c "/") eqn:Ec; simpl in H.
  - by inversion H.
  - destruct (strings.Index s "/") as [j|] eqn:Ej; simpl in H; [|done].
    inversion H. subst i. simpl. rewrite Ec. simpl.
    by rewrite (IH j eq_refl).
Qed.

Lemma SplitN2_slash_cases s :
  (strings.Contains s "/" = false /\ strings.SplitN2 s "/" = [s])
  \/ (strings.Contains s "/" = true
      /\ exists parent sub,
          strings.SplitN2 s "/" = [parent; sub]
          /\ strings.Contains parent "/" = false).
Proof.
  unfold strings.SplitN2, strings.Contains.
  destruct (strings.Index s "/") as [i|] eqn:E.
  - right. split; [done|]. do 2 eexists. split; [reflexivity|].
    by rewrite (Index_slash_prefix s i E).
  - by left.
Qed.

(** A map whose keys are all top-level tests is left as it is. *)
Lemma consolidate_top_level keys : forall m log,
  (forall k, is_Some (m !! k) -> strings.Contains k "/" = false) ->
  (consolidate keys m log).1 = m.
Proof.
  induction keys as [|k keys IH]; intros m log Hm; simpl; [done|].
  destruct (m !! k) as [evs|] eqn:E; [|by apply IH].
  destruct (SplitN2_slash_cases k) as [(_ & ->)|(Hc & _)].
  - by apply IH.
  - rewrite Hm in Hc; [done | by eexists].
Qed.

(** A subtest that is still in the map after the loop was in the map
    before and was not produced by [range]. *)
Lemma consolidate_subtest_left keys : forall m log k,
  is_Some ((consolidate keys m log).1 !! k) ->
  strings.Contains k "/" = true ->
  is_Some (m !! k) /\ k ∉ keys.
Proof.
  induction keys as [|k0 keys IH]; intros m log k Hk Hc; simpl in Hk.
  - split; [done|]. apply not_elem_of_nil.
  - destruct (m !! k0) as [evs|] eqn:E.
    + destruct (SplitN2_slash_cases k0)
        as [(Hc0 & Hs)|(Hc0 & parent & sub & Hs & Hp)]; rewrite Hs in Hk.
      * destruct (IH _ _ _ Hk Hc) as [Hin Hnot]. split; [done|].
        apply not_elem_of_cons. split; [congruence|done].
      * destruct (IH _ _ _ Hk Hc) as [Hin Hnot].
        assert (k <> k0) as Hne.
        { intros ->. rewrite lookup_delete_eq in Hin. by destruct Hin. }
        rewrite lookup_delete_ne in Hin by done.
        assert (k <> parent) as Hnp by congruence.
        rewrite lookup_insert_ne in Hin by done.
        split; [done|]. by apply not_elem_of_cons.
    + destruct (IH _ _ _ Hk Hc) as [Hin Hnot]. split; [done|].
      apply not_elem_of_cons. split; [|done].
      intros ->. rewrite E in Hin. by destruct Hin.
Qed.

Section consolidation.

Variable rangeOrder : gmap string (list testEvent) -> list string.

(** [range] produces every key that is in the map when the loop
    starts. *)
Hypothesis rangeOrder_covers :
  forall (m : gmap string (list testEvent)) k,
    is_Some (m !! k) -> k ∈ rangeOrder m.

(** C9. After the loop that folds subtests into their parents no key of
    [failures] contains a [/], and running the loop again on the result
    changes nothing. *)
Theorem C9_consolidation_idempotent
    (failures : gmap string (list testEvent)) (log log' : list logEntry) :
  let failures' := (consolidate (rangeOrder failures) failures log).1 in
  (forall k, is_Some (failures' !! k) -> strings.Contains k "/" = false)
  /\ (consolidate (rangeOrder failures') failures' log').1 = failures'.
Proof.
  intros failures'.
  assert (forall k, is_Some (failures' !! k) ->
                    strings.Contains k "/" = false) as Htop.
  { intros k Hk. destruct (strings.Contains k "/") eqn:Hc; [|done].
    destruct (consolidate_subtest_left _ _ _ _ Hk Hc) as [Hin Hnot].
    destruct Hnot. by apply rangeOrder_covers. }
  split; [done|]. by apply consolidate_top_level.
Qed.

End consolidation.

Lemma Sample_rangeOrder_covers (m : gmap string (list testEvent)) k :
  is_Some (m !! k) -> k ∈ Sample.rangeOrder m.
Proof.
  intros Hk. unfold Sample.rangeOrder.
  by apply elem_of_elements, elem_of_dom.
Qed.

Lemma C9_consolidation_idempotent_witness :
  let failures' :=
    (consolidate (Sample.rangeOrder Sample.subtestFailures)
                 Sample.subtestFailures []).1 in
  (forall k, is_Some (failures' !! k) -> strings.Contains k "/" = false)
  /\ (consolidate (Sample.rangeOrder failures') failures' []).1 = failures'.
Proof.
  exact (C9_consolidation_idempotent Sample.rangeOrder
           Sample_rangeOrder_covers Sample.subtestFailures [] []).
Defined.

(** ** The order of [float64] *)

Lemma SFltb_lexlt x y :
  x <> S754_nan -> y <> S754_nan ->
  (SFltb x y = true <-> lexlt (fkey x) (fkey y)).
Proof.
  intros Hx Hy. unfold SFltb, SFcompare, lexlt.
  destruct x as [sx|sx| |sx mx ex], y as [sy|sy| |sy my ey]; try done;
    try destruct sx; try destruct sy; simpl; try (split; [done|lia]);
    try (split; [lia|done]).
  all: change (Pos.compare_cont Eq mx my) with (Pos.compare mx my).
  all: destruct (Z.compare_spec ex ey), (Pos.compare_spec mx my); simpl;
    split; intros; try done; try lia.
Qed.

Lemma SFleb_lexlt x y :
  x <> S754_nan -> y <> S754_nan ->
  (SFleb x y = true <-> ~ lexlt (fkey y) (fkey x)).
Proof.
  intros Hx Hy. unfold SFleb, SFcompare, lexlt.
  destruct x as [sx|sx| |sx mx ex], y as [sy|sy| |sy my ey]; try done;
    try destruct sx; try destruct sy; simpl; try (split; [lia|done]);
    try (split; [done|lia]).
  all: change (Pos.compare_cont Eq mx my) with (Pos.compare mx my).
  all: destruct (Z.compare_spec ex ey), (Pos.compare_spec mx my); simpl;
    split; intros; try done; try lia.
Qed.

Lemma is_nan_false x : PrimFloat.is_nan x = false -> Prim2SF x <> S754_nan.
Proof.
  unfold PrimFloat.is_nan. rewrite FloatAxioms.eqb_spec. intros H E.
  rewrite E in H. done.
Qed.

Lemma ltb_not_nan x y :
  PrimFloat.ltb x y = true ->
  PrimFloat.is_nan x = false /\ PrimFloat.is_nan y = false.
Proof.
  rewrite FloatAxioms.ltb_spec. unfold PrimFloat.is_nan. rewrite !FloatAxioms.eqb_spec.
  unfold SFltb, SFeqb.
  destruct (Prim2SF x) as [sx|sx| |sx mx ex] eqn:Ex,
    (Prim2SF y) as [sy|sy| |sy my ey] eqn:Ey; try done; intros _; simpl.
  all: repeat match goal with s : bool |- _ => destruct s end; simpl.
  all: rewrite ?Z.compare_refl, ?Pos.compare_cont_refl; done.
Qed.

Section float_order.

Variables x y z : float.
Hypothesis Hx : PrimFloat.is_nan x = false.
Hypothesis Hy : PrimFloat.is_nan y = false.
Hypothesis Hz : PrimFloat.is_nan z = false.

Lemma ltb_lexlt :
  PrimFloat.ltb x y = true <-> lexlt (fkey (Prim2SF x)) (fkey (Prim2SF y)).
Proof. rewrite FloatAxioms.ltb_spec. apply SFltb_lexlt; by apply is_nan_false. Qed.

Lemma leb_lexlt :
  PrimFloat.leb x y = true <-> ~ lexlt (fkey (Prim2SF y)) (fkey (Prim2SF x)).
Proof. rewrite FloatAxioms.leb_spec. apply SFleb_lexlt; by apply is_nan_false. Qed.

End float_order.

Lemma ltb_irrefl x : PrimFloat.ltb x x = false.
Proof.
  destruct (PrimFloat.ltb x x) eqn:E; [|done].
  destruct (ltb_not_nan _ _ E) as [Hx _].
  apply (ltb_lexlt x x Hx Hx) in E. unfold lexlt in E. lia.
Qed.

Lemma ltb_trans x y z :
  PrimFloat.ltb x y = true -> PrimFloat.ltb y z = true ->
  PrimFloat.ltb x z = true.
Proof.
  intros Hxy Hyz.
  destruct (ltb_not_nan _ _ Hxy) as [Hx Hy].
  destruct (ltb_not_nan _ _ Hyz) as [_ Hz].
  apply (ltb_lexlt x y Hx Hy) in Hxy. apply (ltb_lexlt y z Hy Hz) in Hyz.
  apply (ltb_lexlt x z Hx Hz). unfold lexlt in *. lia.
Qed.

Lemma ltb_incomparable_trans x y z :
  PrimFloat.is_nan x = false -> PrimFloat.is_nan y = false ->
  PrimFloat.is_nan z = false ->
  PrimFloat.ltb x y = false -> PrimFloat.ltb y z = false ->
  PrimFloat.ltb x z = false.
Proof.
  intros Hx Hy Hz Hxy Hyz. apply not_true_iff_false.
  apply not_true_iff_false in Hxy, Hyz.
  rewrite (ltb_lexlt x y Hx Hy) in Hxy. rewrite (ltb_lexlt y z Hy Hz) in Hyz.
  rewrite (ltb_lexlt x z Hx Hz). unfold lexlt in *. lia.
Qed.

Lemma ltb_false_leb x y :
  PrimFloat.is_nan x = false -> PrimFloat.is_nan y = false ->
  PrimFloat.ltb x y = false -> PrimFloat.leb y x = true.
Proof.
  intros Hx Hy Hxy. apply not_true_iff_false in Hxy.
  rewrite (ltb_lexlt x y Hx Hy) in Hxy. by apply (leb_lexlt y x Hy Hx).
Qed.


Lemma byElapsedDesc_strictWeakOn l : noNaN l -> strictWeakOn byElapsedDesc l.
Proof.
  unfold noNaN, byElapsedDesc, float64.gt. rewrite List.Forall_forall.
  intros Hl. split; [|split].
  - intros a _. apply ltb_irrefl.
  - intros a b c _ _ _ Hab Hbc. by apply (ltb_trans _ (Elapsed b)).
  - intros a b c Ha Hb Hc Hab Hbc.
    apply (ltb_incomparable_trans _ (Elapsed b)); auto.
Qed.

Lemma sortedBy_descending l :
  noNaN l -> sortedBy byElapsedDesc l -> descending l.
Proof.
  unfold sortedBy, descending, byElapsedDesc, float64.gt.
  intros Hn Hs. induction Hs as [|a l Hs IH Ha]; [constructor|].
  inversion Hn as [|? ? Hna Hnl]. subst. constructor; [by apply IH|].
  rewrite Forall_forall in Ha, Hnl |- *. intros b Hb.
  apply ltb_false_leb; auto.
Qed.

(** ** The slow test report *)

Lemma writeLines_take tests : forall b i,
  (i <= 20)%nat ->
  writeLines b i tests
  = b ++ strings.Join0 (map reportLine (take (20 - i) tests)).
Proof.
  induction tests as [|te tests IH]; intros b i Hi; simpl.
  - rewrite take_nil. simpl. by rewrite append_nil_r.
  - destruct (Nat.eqb_spec i 20) as [->|Hne].
    + simpl. by rewrite append_nil_r.
    + rewrite IH by lia.
      replace (20 - i)%nat with (S (20 - S i)) by lia.
      simpl. by rewrite append_assoc.
Qed.

Lemma genSlowTestsReport_sections slowPassingTests slowFailingTests :
  genSlowTestsReport slowPassingTests slowFailingTests
  = "Slow failing tests:" ++ nl ++ reportSection slowFailingTests
    ++ nl ++ "Slow passing tests:" ++ nl ++ reportSection slowPassingTests.
Proof.
  unfold genSlowTestsReport. rewrite !writeLines_take by lia.
  change (20 - 0)%nat with 20%nat.
  destruct slowFailingTests as [|f fs], slowPassingTests as [|p ps];
    cbn [length Nat.eqb reportSection take map strings.Join0 fold_right];
    rewrite ?append_nil_r, ?append_assoc; reflexivity.
Qed.

Lemma strictWeakOn_incl less l l' :
  (forall a, In a l' -> In a l) -> strictWeakOn less l -> strictWeakOn less l'.
Proof.
  intros Hin (Hi & Ht & Hn). split; [|split]; eauto 10.
Qed.

Lemma Sample_insert_sortedBy less x l :
  strictWeakOn less (x :: l) -> sortedBy less l ->
  sortedBy less (Sample.insert less x l).
Proof.
  unfold sortedBy. intros Hw Hs.
  induction Hs as [|y l Hs IH Hy]; simpl; [by repeat constructor|].
  pose proof Hw as (Hi & Ht & Hn).
  destruct (less x y) eqn:Exy.
  - constructor; [by constructor|].
    assert (less y x = false) as Eyx.
    { destruct (less y x) eqn:E; [|done].
      assert (less y y = true) as Eyy by (apply (Ht y x y); simpl; auto).
      rewrite Hi in Eyy; [done|simpl; auto]. }
    constructor; [done|].
    rewrite List.Forall_forall in Hy |- *. intros b Hb.
    apply (Hn b y x); simpl; auto.
  - constructor.
    + apply IH. apply (strictWeakOn_incl less (x :: y :: l)); [|done].
      simpl. intros a [->|Ha]; auto.
    + rewrite Sample_insert_Permutation. by constructor.
Qed.

Lemma Sample_sortSlice_sortedBy less l :
  strictWeakOn less l -> sortedBy less (Sample.sortSlice less l).
Proof.
  induction l as [|x l IH]; intros Hw; [constructor|].
  change (Sample.sortSlice less (x :: l))
    with (Sample.insert less x (Sample.sortSlice less l)).
  apply Sample_insert_sortedBy.
  - apply (strictWeakOn_incl less (x :: l)); [|done].
    intros a [->|Ha]; [by left|right].
    by apply (Permutation_in _ (Sample_sortSlice_Permutation less l)).
  - apply IH. apply (strictWeakOn_incl less (x :: l)); [|done].
    intros a Ha. by right.
Qed.

Lemma adjustElapsed_topLevel st te :
  topLevel (adjustElapsed st te) = topLevel te.
Proof. unfold topLevel. by rewrite adjustElapsed_Test. Qed.

Lemma step_slowPassingTests st te st' :
  step st te = Ok st' ->
  Forall slowPassed (slowPassingTests st) ->
  Forall slowPassed (slowPassingTests st').
Proof.
  intros H Hall.
  step_shapes H st1 te1; subst st1 te1; fields; autorewrite with frame;
    try done.
  destruct (float64.gt _ _) eqn:Eg; fields; autorewrite with frame;
    [|done].
  destruct (topLevel _) eqn:Et; fields; autorewrite with frame; [|done].
  apply Forall_app. split; [done|]. constructor; [|constructor].
  unfold slowPassed.
  by rewrite adjustElapsed_Action, adjustElapsed_Test.
Qed.

Lemma loop_slowPassingTests events : forall st st',
  loop st events = Ok st' ->
  Forall slowPassed (slowPassingTests st) ->
  Forall slowPassed (slowPassingTests st').
Proof.
  induction events as [|te events IH]; intros st st' H Hall; simpl in H.
  - inversion H. by subst.
  - destruct (step st te) as [st1|] eqn:E; simpl in H; [|done].
    eauto using step_slowPassingTests.
Qed.

Lemma afterLoop_slowPassingTests st :
  slowPassingTests (afterLoop st) = slowPassingTests st.
Proof. unfold afterLoop. by repeat case_match. Qed.

Lemma slowPassed_noNaN l : Forall slowPassed l -> noNaN l.
Proof.
  unfold noNaN. intros H. eapply Forall_impl; [exact H|].
  intros te (_ & _ & _ & Hg).
  unfold float64.gt in Hg. by destruct (ltb_not_nan _ _ Hg).
Qed.

Lemma string_of_uint_not_empty d :
  (1 <= String.length (NilZero.string_of_uint d))%nat.
Proof. destruct d; simpl; lia. Qed.

Lemma f2_length x : (3 <= String.length (fmt.f2 x))%nat.
Proof.
  unfold fmt.f2.
  assert (forall neg h, (3 <= String.length (fmt.fixed2 neg h))%nat) as Hfix.
  { intros neg h. unfold fmt.fixed2, fmt.two_digits.
    rewrite !length_append.
    pose proof (string_of_uint_not_empty (N.to_uint (Z.to_N (h / 100)))).
    pose proof (string_of_uint_not_empty (N.to_uint (Z.to_N (h mod 100)))).
    change (String.length ".") with 1%nat. lia. }
  destruct (Prim2SF x) as [s|s| |s m e]; try apply Hfix.
  - destruct s; simpl; lia.
  - simpl. lia.
Qed.

Lemma reportLine_length te : (8 <= String.length (reportLine te))%nat.
Proof.
  unfold reportLine. rewrite !length_append.
  pose proof (f2_length (Elapsed te)).
  change (String.length " - ") with 3%nat.
  change (String.length "s") with 1%nat.
  change (String.length nl) with 1%nat. lia.
Qed.

(** The placeholder is the section of the empty list only. *)
Lemma reportSection_placeholder tests :
  reportSection tests = "<none>" ++ nl <-> tests = [].
Proof.
  split; [|by intros ->].
  destruct tests as [|te tests]; [done|]. intros H.
  apply (f_equal String.length) in H. revert H.
  cbn [reportSection take map strings.Join0 fold_right].
  rewrite length_append. pose proof (reportLine_length te).
  change (String.length ("<none>" ++ nl)) with 7%nat. lia.
Qed.

(** ** The report of a run *)

Section report.

Variable lookupEnvPKG : option string.
Variable CockroachPkgPrefix : string.
Variable f : issue -> option string.
Variable getAuthorEmail : string -> string -> string + string.
Variable writeSlowTestsReport : string -> option string.
Variable sortSlice :
  (testEvent -> testEvent -> bool) -> list testEvent -> list testEvent.
Variable rangeOrder : gmap string (list testEvent) -> list string.

(** [sort.Slice] reorders the slice it is given, and leaves it sorted
    when [less] is a strict weak order on its elements. *)
Hypothesis sortSlice_Permutation :
  forall less l, Permutation (sortSlice less l) l.
Hypothesis sortSlice_sortedBy :
  forall less l, strictWeakOn less l -> sortedBy less (sortSlice less l).

Local Abbreviation listFailures' :=
  (listFailures lookupEnvPKG CockroachPkgPrefix f getAuthorEmail
                writeSlowTestsReport sortSlice rangeOrder).

Lemma sortSlice_descending l :
  noNaN l -> descending (sortSlice byElapsedDesc l).
Proof.
  intros Hn. apply sortedBy_descending.
  - unfold noNaN. by rewrite sortSlice_Permutation.
  - by apply sortSlice_sortedBy, byElapsedDesc_strictWeakOn.
Qed.

(** C10. The report a run hands to [writeSlowTestsReport] is the heading
    ["Slow failing tests:"], the section of the sorted [slowFailingTests],
    an empty line, the heading ["Slow passing tests:"] and the section of
    the sorted [slowPassingTests]. A section is the placeholder line
    [<none>] exactly when its list is empty, and otherwise one line
    [<test> - <elapsed, two decimals>s] for each of the first 20 entries.
    The passing list is in descending order of [Elapsed], and so is the
    failing list when no [Elapsed] in it is a NaN. *)
Theorem C10_slow_tests_report (events : list testEvent)
    (decodeErr : option string) (st : runState) (report : string) :
  loop runState_start events = Ok st ->
  slowTestsReport (listFailures' events decodeErr) = Some report ->
  let failing := sortSlice byElapsedDesc (slowFailingTests (afterLoop st)) in
  let passing := sortSlice byElapsedDesc (slowPassingTests (afterLoop st)) in
  report = "Slow failing tests:" ++ nl ++ reportSection failing
           ++ nl ++ "Slow passing tests:" ++ nl ++ reportSection passing
  /\ (reportSection failing = "<none>" ++ nl <-> failing = [])
  /\ (reportSection passing = "<none>" ++ nl <-> passing = [])
  /\ descending passing
  /\ (noNaN (slowFailingTests (afterLoop st)) -> descending failing).
Proof.
  intros E Hr failing passing.
  split; [|split; [|split; [|split]]].
  - revert Hr. unfold listFailures.
    destruct lookupEnvPKG as [pkg|]; [|done]. rewrite E.
    destruct decodeErr; [done|]. unfold finish.
    destruct (postIssues _ _ _ _ _ _) as [[posted log] [err|]]; [done|].
    fold failing passing. rewrite <- genSlowTestsReport_sections.
    destruct (negb _); [destruct (postTimeout _ _ _ _ _ _ _) as [[]|]|];
      simpl; congruence.
  - apply reportSection_placeholder.
  - apply reportSection_placeholder.
  - apply sortSlice_descending, slowPassed_noNaN.
    rewrite afterLoop_slowPassingTests.
    apply (loop_slowPassingTests _ _ _ E). constructor.
  - apply sortSlice_descending.
Qed.

End report.

Lemma Sample_slowTests_loop :
  loop runState_start Sample.slowTests = Ok Sample.afterSlowTests.
Proof. vm_compute. reflexivity. Qed.

Lemma Sample_slowTests_report :
  slowTestsReport (Sample.run Sample.slowTests)
  = Some Sample.slowTestsReport.
Proof. vm_compute. reflexivity. Qed.

Lemma C10_slow_tests_report_witness :
  let failing :=
    Sample.sortSlice byElapsedDesc
      (slowFailingTests (afterLoop Sample.afterSlowTests)) in
  let passing :=
    Sample.sortSlice byElapsedDesc
      (slowPassingTests (afterLoop Sample.afterSlowTests)) in
  Sample.slowTestsReport
  = "Slow failing tests:" ++ nl ++ reportSection failing
    ++ nl ++ "Slow passing tests:" ++ nl ++ reportSection passing
  /\ descending passing.
Proof.
  destruct (C10_slow_tests_report (Some Sample.pkg) Sample.prefix
              (fun _ => None) (fun _ _ => inr "no git") (fun _ => None)
              Sample.sortSlice Sample.rangeOrder
              Sample_sortSlice_Permutation Sample_sortSlice_sortedBy
              Sample.slowTests None Sample.afterSlowTests
              Sample.slowTestsReport Sample_slowTests_loop
              Sample_slowTests_report)
    as (Hreport & _ & _ & Hpassing & _).
  split; [exact Hreport | exact Hpassing].
Defined.

Lemma leb_not_nan x y :
  PrimFloat.leb x y = true ->
  PrimFloat.is_nan x = false /\ PrimFloat.is_nan y = false.
Proof.
  rewrite FloatAxioms.leb_spec. unfold PrimFloat.is_nan.
  rewrite !FloatAxioms.eqb_spec. unfold SFleb, SFeqb.
  destruct (Prim2SF x) as [sx|sx| |sx mx ex] eqn:Ex,
    (Prim2SF y) as [sy|sy| |sy my ey] eqn:Ey; try done; intros _; simpl.
  all: repeat match goal with s : bool |- _ => destruct s end; simpl.
  all: rewrite ?Z.compare_refl, ?Pos.compare_cont_refl; done.
Qed.

(** In a list of two events or more that is in descending order of
    [Elapsed], no [Elapsed] is a NaN. *)
Lemma descending_noNaN l : descending l -> (2 <= length l)%nat -> noNaN l.
Proof.
  intros Hd Hlen. destruct Hd as [|a l Hs Ha]; [simpl in Hlen; lia|].
  destruct l as [|b l]; [simpl in Hlen; lia|]. constructor.
  - inversion Ha as [|? ? Hab _]. subst.
    by destruct (leb_not_nan _ _ Hab).
  - eapply Forall_impl; [exact Ha|]. intros c Hc.
    by destruct (leb_not_nan _ _ Hc).
Qed.

Lemma Sample_nanTimeout_loop :
  loop runState_start Sample.nanTimeout = Ok Sample.afterNanTimeout.
Proof. vm_compute. reflexivity. Qed.

(** C10 as stated fails: in the run [Sample.nanTimeout] the [Elapsed]
    recorded for the test that timed out is [+Inf - +Inf], a NaN, and the
    failing list holds it between [TestF1] and [TestF2]. The report is
    written with the line [TestA - NaNs] in the failing section, and
    whatever permutation [sort.Slice] leaves, the failing list is not in
    descending order of [Elapsed]. *)
Lemma C10_nan_elapsed_not_descending :
  loop runState_start Sample.nanTimeout = Ok Sample.afterNanTimeout
  /\ map (fun te => (Test te, fmt.f2 (Elapsed te)))
         (slowFailingTests (afterLoop Sample.afterNanTimeout))
     = [("TestF1", "1.00"); ("TestA", "NaN"); ("TestF2", "2.00")]
  /\ slowTestsReport (Sample.run Sample.nanTimeout)
     = Some ("Slow failing tests:" ++ nl
             ++ "TestF2 - 2.00s" ++ nl ++ "TestA - NaNs" ++ nl
             ++ "TestF1 - 1.00s" ++ nl
             ++ nl ++ "Slow passing tests:" ++ nl
             ++ reportSection
                  (Sample.sortSlice byElapsedDesc
                     (slowPassingTests (afterLoop Sample.afterNanTimeout))))
  /\ forall sortSlice : (testEvent -> testEvent -> bool) ->
                        list testEvent -> list testEvent,
       (forall less l, Permutation (sortSlice less l) l) ->
       ~ descending (sortSlice byElapsedDesc
                       (slowFailingTests (afterLoop Sample.afterNanTimeout))).
Proof.
  split; [exact Sample_nanTimeout_loop|].
  split; [by vm_compute|]. split; [by vm_compute|].
  intros sortSlice Hperm Hd. apply descending_noNaN in Hd.
  2:{ rewrite (Permutation_length (Hperm _ _)). vm_compute. lia. }
  unfold noNaN in Hd. rewrite Hperm in Hd.
  pose proof (proj1 (List.Forall_forall _ _) Hd
                (nth 1 (slowFailingTests (afterLoop Sample.afterNanTimeout))
                   Sample.packageEnd)) as H.
  assert (PrimFloat.is_nan
            (Elapsed (nth 1 (slowFailingTests
                               (afterLoop Sample.afterNanTimeout))
                        Sample.packageEnd)) = false) as Hnan.
  { apply H. apply nth_In. vm_compute. lia. }
  vm_compute in Hnan. discriminate.
Qed.

(** ** The scenarios of the specification, run on the embedding *)

(** A quick passing test: no issue, no slow test. *)
Example scenario_quick_pass :
  posted (Sample.run Sample.passing) = []
  /\ slowTestsReport (Sample.run Sample.passing)
     = Some ("Slow failing tests:" ++ nl ++ "<none>" ++ nl ++ nl
             ++ "Slow passing tests:" ++ nl ++ "<none>" ++ nl).
Proof. vm_compute. split; reflexivity. Qed.

(** A subtest fails and its parent never ends: one issue, for the parent,
    with the output of the subtest. *)
Example scenario_subtest :
  map (fun i => (testName i, testMessage i))
      (posted (Sample.run
                 [Sample.event "run" "TestA" "" 0 0;
                  Sample.event "run" "TestA/sub" "" 0 0;
                  Sample.event "output" "TestA/sub" "x" 0 0;
                  Sample.event "fail" "TestA/sub" "" 2 1]))
  = [("TestA", "x")].
Proof. vm_compute. reflexivity. Qed.

(** Trusted timestamps: the duration of the test that timed out is the
    time from its start to the timeout message, and the test, being the
    slowest, is named in the one issue. *)
Example scenario_trusted_timeout :
  match loop runState_start Sample.timedOutAfter30s with
  | Ok st => PrimFloat.eqb (Elapsed (timedOutEvent st)) (float64.decimal 304 1)
  | Stop _ => false
  end = true
  /\ map testName (posted (Sample.run Sample.timedOutAfter30s)) = ["TestB"]
  /\ map title (posted (Sample.run Sample.timedOutAfter30s))
     = ["storage: TestB timed out under stress"].
Proof. vm_compute. repeat split. Qed.

(** The stress run that deadlocks: 120 - 45 = 75 seconds for [TestA], which
    is blamed. *)
Example scenario_untrusted_timeout :
  map testName (posted (Sample.run Sample.deadlock)) = ["TestA"]
  /\ map testMessage (posted (Sample.run Sample.deadlock))
     = ["Slow failing tests:" ++ nl ++ "TestA - 75.00s" ++ nl ++ nl
        ++ "Slow passing tests:" ++ nl ++ "TestP - 45.00s" ++ nl].
Proof. vm_compute. split; reflexivity. Qed.

(** The empty stream: no issue, and a report of placeholders. *)
Example scenario_empty :
  posted (Sample.run []) = []
  /\ slowTestsReport (Sample.run [])
     = Some ("Slow failing tests:" ++ nl ++ "<none>" ++ nl ++ nl
             ++ "Slow passing tests:" ++ nl ++ "<none>" ++ nl).
Proof. vm_compute. split; reflexivity. Qed.

(** Of 21 slow tests the report lists 20. *)
Example scenario_twenty_lines :
  genSlowTestsReport (repeat (Sample.event "pass" "TestA" "" 1 0) 21) []
  = "Slow failing tests:" ++ nl ++ "<none>" ++ nl ++ nl
    ++ "Slow passing tests:" ++ nl
    ++ strings.Join0 (repeat ("TestA - 1.00s" ++ nl) 20).
Proof. vm_compute. reflexivity. Qed.

(** Subtests are folded into their parents. *)
Example scenario_consolidate :
  map_to_list
    ((consolidate (Sample.rangeOrder Sample.subtestFailures)
                  Sample.subtestFailures []).1)
  = [("TestA", [Sample.event "output" "TestA/sub1" "one" 0 0;
                Sample.event "output" "TestA/sub2" "two" 0 0]);
     ("TestB", [Sample.event "output" "TestB" "three" 0 0])].
Proof. vm_compute. reflexivity. Qed.

(** ** The preamble and the trust in the timestamps *)

Lemma beforeSwitch_init st te :
  init (beforeSwitch st te) = init st && String.eqb (Test te) "".
Proof.
  unfold beforeSwitch.
  destruct st as [? ? ? ? ? ini ? ? name ? ? ? ? ?]; simpl.
  destruct (String.eqb (Test te) ""); simpl; destruct ini; simpl;
    destruct (strings.Contains (Output te) "-exec 'stress '"); simpl;
    destruct (String.eqb name ""); simpl;
    destruct (float64.gt (Elapsed te) PrimFloat.zero); simpl;
    destruct ((length (strings.SplitN2 (Test te) "/") =? 1)%nat);
    reflexivity.
Qed.

Lemma step_init st te st' :
  step st te = Ok st' -> init st' = init st && String.eqb (Test te) "".
Proof.
  intros H. rewrite <- beforeSwitch_init.
  step_shapes H st1 te1; try done.
  - unfold onRun. by case_match.
  - simpl. by case_match.
  - unfold onFail. by repeat case_match.
Qed.

Lemma step_trustTimestamps st te st' :
  step st te = Ok st' ->
  trustTimestamps st' =
    if String.eqb (Test te) "" && init st
       && strings.Contains (Output te) "-exec 'stress '"
    then false else trustTimestamps st.
Proof.
  intros H. rewrite <- beforeSwitch_trustTimestamps.
  step_shapes H st1 te1; try done.
  - unfold onRun. by case_match.
  - simpl. by case_match.
  - unfold onFail. by repeat case_match.
Qed.

Lemma loop_trustTimestamps events : forall st st',
  loop st events = Ok st' ->
  trustTimestamps st' =
    if init st then trustTimestamps st && negb (stressRun events)
    else trustTimestamps st.
Proof.
  unfold stressRun.
  induction events as [|te events IH]; intros st st' H; simpl in H.
  - inversion H. subst. simpl. destruct (init st'); [|done].
    by rewrite andb_true_r.
  - destruct (step st te) as [st1|] eqn:E; simpl in H; [|done].
    rewrite (IH st1 st' H), (step_init _ _ _ E),
      (step_trustTimestamps _ _ _ E).
    cbn [preamble].
    destruct (init st), (String.eqb (Test te) ""); simpl; try done.
    all: destruct (strings.Contains (Output te) "-exec 'stress '"); simpl;
      try done.
    all: by rewrite ?andb_true_r, ?andb_false_r.
Qed.

(** The timestamps are trusted at the end of the loop unless an event of
    the preamble, that is an event before the first one that names a test,
    prints the marker [-exec 'stress ']; the marker in any later output
    changes nothing. *)
Theorem trustTimestamps_preamble (events : list testEvent) (st : runState) :
  loop runState_start events = Ok st ->
  trustTimestamps st = negb (stressRun events).
Proof. intros H. by rewrite (loop_trustTimestamps _ _ _ H). Qed.

Lemma trustTimestamps_preamble_witness :
  trustTimestamps Sample.afterDeadlock = negb (stressRun Sample.deadlock).
Proof.
  exact (trustTimestamps_preamble Sample.deadlock Sample.afterDeadlock
           Sample_deadlock_loop).
Defined.

(** ** Runs that end in a panic or in [log.Fatal] *)

Lemma timeoutElapsed_Stop trust start total te s :
  timeoutElapsed trust start total te = Stop s ->
  trust = false
  /\ ((exists text, s = FatalParseFloat text) \/ s = FatalTimeUnit (Output te)).
Proof.
  unfold timeoutElapsed. destruct trust; [done|]. intros H. split; [done|].
  destruct (regexp.FindStringSubmatch _ _ _) as [matches|]; [|done].
  destruct (strconv.ParseFloat _) as [dur|].
  - destruct (String.eqb (at_ matches 2) "m"); [done|].
    destruct (String.eqb (at_ matches 2) "s"); [done|].
    simpl in H. inversion H. by right.
  - inversion H. left. by eexists.
Qed.

(** The iterations that do not complete. *)
Lemma step_Stop_inv st te s :
  step st te = Stop s ->
  Test te <> ""
  /\ (((Action te = "pass" \/ Action te = "skip")
       /\ timedOutTestName st <> ""
       /\ s = PanicTimeoutButPassed (adjustElapsed (beforeSwitch st te) te))
      \/ (recordsTimeout te = true
          /\ trustTimestamps (beforeSwitch st te) = false
          /\ ((exists text, s = FatalParseFloat text)
              \/ s = FatalTimeUnit (Output te)))).
Proof.
  unfold step, onTestEvent, recordsTimeout. intros H.
  rewrite nonempty_length, adjustElapsed_Test, ?adjustElapsed_Action in H.
  destruct (String.eqb_spec (Test te) "") as [Ht|Ht]; simpl in H.
  { by destruct (String.eqb (Action te) "output"). }
  split; [done|].
  destruct (String.eqb_spec (Action te) "run") as [Hr|Hr]; [done|].
  destruct (String.eqb_spec (Action te) "output") as [Ho|Ho].
  - right. unfold onOutput in H. rewrite adjustElapsed_Output in H.
    destruct (strings.Contains (Output te) timeoutMsg); [|done].
    split; [done|].
    destruct (timeoutElapsed _ _ _ _) as [[elapsed lines]|s'] eqn:E;
      simpl in H; [done|].
    inversion H. subst s'.
    apply timeoutElapsed_Stop in E. revert E. fields.
    by rewrite adjustElapsed_Output.
  - left.
    assert (onPassSkip (beforeSwitch st te)
              (adjustElapsed (beforeSwitch st te) te) = Stop s
            /\ (Action te = "pass" \/ Action te = "skip")) as [H' Ha].
    { destruct (String.eqb_spec (Action te) "pass") as [Hp|Hp];
        [by auto|].
      destruct (String.eqb_spec (Action te) "skip") as [Hs|Hs];
        [by auto|].
      simpl in H. by destruct (String.eqb (Action te) "fail"). }
    split; [done|]. unfold onPassSkip in H'.
    rewrite beforeSwitch_timedOutTestName in H'.
    destruct (String.eqb_spec (timedOutTestName st) "") as [Hn|Hn];
      simpl in H'; [done|].
    split; [done|]. by inversion H'.
Qed.

Lemma step_no_timeout st te :
  recordsTimeout te = false -> timedOutTestName st = "" ->
  exists st', step st te = Ok st'.
Proof.
  intros Hr Hn. destruct (step st te) as [st'|s] eqn:E; [by eexists|].
  destruct (step_Stop_inv _ _ _ E) as (_ & [(_ & Hne & _)|(Hr' & _)]);
    congruence.
Qed.

Lemma loop_no_timeout events : forall st,
  Forall (fun te => recordsTimeout te = false) events ->
  timedOutTestName st = "" ->
  exists st', loop st events = Ok st' /\ timedOutTestName st' = "".
Proof.
  induction events as [|te events IH]; intros st Hall Hn; simpl.
  - by exists st.
  - inversion Hall as [|? ? Hr Hall']. subst.
    destruct (step_no_timeout st te Hr Hn) as [st1 E]. rewrite E. simpl.
    apply IH; [done|].
    by rewrite (step_timedOutTestName _ _ _ E), Hr.
Qed.

Lemma loop_Stop_fatal events : forall st s,
  loop st events = Stop s ->
  (exists text, s = FatalParseFloat text) \/ (exists out, s = FatalTimeUnit out) ->
  trustTimestamps st = false \/ (init st = true /\ stressRun events = true).
Proof.
  unfold stressRun.
  induction events as [|te events IH]; intros st s H Hs; simpl in H;
    [done|].
  destruct (step st te) as [st1|s1] eqn:E; simpl in H.
  - destruct (IH st1 s H Hs) as [Ht|[Hi Hp]].
    + rewrite (step_trustTimestamps _ _ _ E) in Ht. cbn [preamble].
      destruct (String.eqb (Test te) ""); simpl in *; [|by left].
      destruct (init st); simpl in *; [|by left].
      destruct (strings.Contains (Output te) "-exec 'stress '"); simpl;
        [by right | by left].
    + rewrite (step_init _ _ _ E) in Hi. apply andb_true_iff in Hi.
      destruct Hi as [Hi Ht]. right. split; [done|].
      cbn [preamble]. rewrite Ht. simpl. rewrite Hp. apply orb_true_r.
  - inversion H. subst s1. left.
    destruct (step_Stop_inv _ _ _ E) as (Ht & [(_ & _ & ->)|(_ & Htr & _)]).
    + by destruct Hs as [[? ?]|[? ?]].
    + rewrite beforeSwitch_trustTimestamps in Htr.
      apply String.eqb_neq in Ht. by rewrite Ht in Htr.
Qed.

Section endings.

Variable lookupEnvPKG : option string.
Variable CockroachPkgPrefix : string.
Variable f : issue -> option string.
Variable getAuthorEmail : string -> string -> string + string.
Variable writeSlowTestsReport : string -> option string.
Variable sortSlice :
  (testEvent -> testEvent -> bool) -> list testEvent -> list testEvent.
Variable rangeOrder : gmap string (list testEvent) -> list string.

Local Abbreviation listFailures' :=
  (listFailures lookupEnvPKG CockroachPkgPrefix f getAuthorEmail
                writeSlowTestsReport sortSlice rangeOrder).
Local Abbreviation finish' :=
  (finish CockroachPkgPrefix f getAuthorEmail writeSlowTestsReport sortSlice
          rangeOrder).

(** What follows the loop ends by [return], or by the panic of
    [slowFailingTests[0]] when a timeout is recorded. *)
Lemma finish_ended packageName st :
  match ended (finish' packageName st) with
  | None | Some (ReturnErr _) => True
  | Some PanicIndexOutOfRange => timedOutTestName st <> ""
  | Some _ => False
  end.
Proof.
  unfold finish.
  destruct (postIssues _ _ _ _ _ _) as [[posted log] [err|]]; [done|].
  destruct (String.eqb_spec (timedOutTestName st) "") as [Hn|Hn]; simpl;
    [done|].
  unfold postTimeout.
  destruct (sortSlice byElapsedDesc (slowFailingTests st)) as [|hd tl];
    [done|].
  destruct (String.eqb _ _); [destruct (authorOf _ _ _) as [? ?]|]; simpl;
    by destruct (f _).
Qed.

(** Without the timeout message in the output of a test [listFailures]
    comes back to its caller: the loop completes for every such stream, and
    nothing after the loop panics. *)
Theorem no_timeout_returns (events : list testEvent)
    (decodeErr : option string) :
  Forall (fun te => recordsTimeout te = false) events ->
  returns (listFailures' events decodeErr).
Proof.
  intros Hall. unfold returns, listFailures.
  destruct lookupEnvPKG as [packageName|]; [|done].
  destruct (loop_no_timeout events runState_start Hall eq_refl)
    as (st & -> & Hn).
  destruct decodeErr; [done|].
  pose proof (finish_ended packageName (afterLoop st)) as Hf.
  rewrite afterLoop_timedOutTestName in Hf.
  destruct (ended _) as [[]|]; done.
Qed.

(** When the preamble of the input does not print the marker of a stress
    run, [listFailures] never ends the process through [log.Fatal],
    whatever the output of the tests. *)
Theorem trusted_run_never_exits (events : list testEvent)
    (decodeErr : option string) :
  stressRun events = false ->
  ~ exits (listFailures' events decodeErr).
Proof.
  intros Hs. unfold exits, listFailures.
  destruct lookupEnvPKG as [packageName|]; [|by auto].
  destruct (loop runState_start events) as [st|s] eqn:E.
  - destruct decodeErr; [by auto|].
    pose proof (finish_ended packageName (afterLoop st)) as Hf.
    destruct (ended _) as [[]|]; by auto.
  - simpl. intros Hx.
    destruct (loop_Stop_fatal events runState_start s E) as [Ht|[_ Hp]].
    + destruct s; try done; [left|right]; by eexists.
    + done.
    + congruence.
Qed.

End endings.

Lemma no_timeout_returns_witness : returns (Sample.run Sample.quickFailure).
Proof.
  apply no_timeout_returns. repeat constructor.
Defined.

Lemma trusted_run_never_exits_witness :
  ~ exits (Sample.run Sample.timedOutAfter30s).
Proof.
  apply trusted_run_never_exits. reflexivity.
Defined.

(** ** The slow tests that pass *)

Lemma adjustElapsed_not_timedOut st te :
  timedOutTestName st = "" -> Test te <> "" -> adjustElapsed st te = te.
Proof.
  intros Hn Ht. unfold adjustElapsed. rewrite Hn.
  assert (String.eqb "" (Test te) = false) as ->; [|done].
  apply String.eqb_neq. congruence.
Qed.

Lemma step_slowPassingTests_eq st te st' :
  step st te = Ok st' ->
  slowPassingTests st' =
    (slowPassingTests st ++ if slowPass te then [te] else [])%list.
Proof.
  intros H. unfold slowPass.
  step_shapes H st1 te1; subst st1 te1; fields; autorewrite with frame.
  1,2: rewrite Ht; fields; by rewrite andb_false_r, app_nil_r.
  all: apply String.eqb_neq in Ht as Ht'; rewrite Ht'; fields.
  - rewrite Ha. fields. by rewrite app_nil_r.
  - rewrite Ha. fields. by rewrite app_nil_r.
  - rewrite Ha. fields. by rewrite app_nil_r.
  - revert Hnone. autorewrite with frame. intros Hnone.
    rewrite adjustElapsed_topLevel.
    rewrite (adjustElapsed_not_timedOut (beforeSwitch st te) te);
      [|by autorewrite with frame|done].
    assert ((Action te =? "pass")%string || (Action te =? "skip")%string
            = true) as ->.
    { destruct Ha as [-> | ->]; done. }
    fields. rewrite (andb_comm (topLevel te)).
    destruct (float64.gt _ _ && topLevel te); fields;
      autorewrite with frame; [done | by rewrite app_nil_r].
  - rewrite Ha. fields. by rewrite app_nil_r.
  - apply String.eqb_neq in Hp, Hs. rewrite Hp, Hs. fields.
    by rewrite app_nil_r.
Qed.

Lemma loop_slowPassingTests_eq events : forall st st',
  loop st events = Ok st' ->
  slowPassingTests st' = (slowPassingTests st ++ List.filter slowPass events)%list.
Proof.
  induction events as [|te events IH]; intros st st' H; simpl in H.
  - inversion H. subst. simpl. by rewrite app_nil_r.
  - destruct (step st te) as [st1|] eqn:E; simpl in H; [|done].
    rewrite (IH st1 st' H), (step_slowPassingTests_eq _ _ _ E).
    cbn [List.filter]. rewrite <- app_assoc.
    by destruct (slowPass te).
Qed.

(** When the loop completes, [slowPassingTests] holds, in the order of
    their arrival, exactly the [pass] and [skip] events of the stream that
    name a top-level test and have an [Elapsed] above
    [shortTestFilterSecs]; the events are entered as they were decoded. *)
Theorem slowPassingTests_filter (events : list testEvent) (st : runState) :
  loop runState_start events = Ok st ->
  slowPassingTests st = List.filter slowPass events.
Proof. intros H. by rewrite (loop_slowPassingTests_eq _ _ _ H). Qed.

Lemma slowPassingTests_filter_witness :
  slowPassingTests Sample.afterSlowTests = List.filter slowPass Sample.slowTests.
Proof.
  exact (slowPassingTests_filter Sample.slowTests Sample.afterSlowTests
           Sample_slowTests_loop).
Defined.

(** ** The failure of the package *)

Lemma step_packageOutput st te st' :
  step st te = Ok st' ->
  packageOutput st' =
    packageOutput st ++ (if packageLevelOutput te then Output te else "").
Proof.
  intros H. unfold packageLevelOutput.
  step_shapes H st1 te1; subst st1 te1; fields; autorewrite with frame.
  - rewrite Ht, Ha. done.
  - rewrite Ht. apply String.eqb_neq in Ha. rewrite Ha. fields.
    by rewrite append_nil_r.
  - apply String.eqb_neq in Ht. rewrite Ht. fields. unfold onRun.
    case_match; fields; autorewrite with frame; by rewrite append_nil_r.
  - apply String.eqb_neq in Ht. rewrite Ht. fields.
    by rewrite append_nil_r.
  - apply String.eqb_neq in Ht. rewrite Ht. fields.
    by rewrite append_nil_r.
  - apply String.eqb_neq in Ht. rewrite Ht. fields.
    case_match; fields; autorewrite with frame; by rewrite append_nil_r.
  - apply String.eqb_neq in Ht. rewrite Ht. fields. unfold onFail.
    repeat case_match; fields; autorewrite with frame;
      by rewrite append_nil_r.
  - apply String.eqb_neq in Ht. rewrite Ht. fields.
    by rewrite append_nil_r.
Qed.

Lemma loop_packageOutput events : forall st st',
  loop st events = Ok st' ->
  packageOutput st' =
    packageOutput st
    ++ strings.Join0 (map Output (List.filter packageLevelOutput events)).
Proof.
  induction events as [|te events IH]; intros st st' H; simpl in H.
  - inversion H. subst. simpl. by rewrite append_nil_r.
  - destruct (step st te) as [st1|] eqn:E; simpl in H; [|done].
    rewrite (IH st1 st' H), (step_packageOutput _ _ _ E).
    cbn [List.filter]. rewrite append_assoc.
    by destruct (packageLevelOutput te).
Qed.

Lemma last_cons {A} (l : list A) : forall x d,
  List.last (x :: l) d = List.last l x.
Proof.
  induction l as [|y l IH]; intros x d; [done|].
  change (List.last (y :: l) d = List.last (y :: l) x).
  by rewrite !IH.
Qed.

Lemma loop_lastEvent events : forall st st',
  loop st events = Ok st' -> lastEvent st' = List.last events (lastEvent st).
Proof.
  induction events as [|te events IH]; intros st st' H; simpl in H.
  - by inversion H.
  - destruct (step st te) as [st1|] eqn:E; simpl in H; [|done].
    by rewrite (IH st1 st' H), (step_lastEvent _ _ _ E), last_cons.
Qed.

Lemma loop_no_test_failed events : forall st st',
  Forall (fun te => Action te = "fail" -> Test te = "") events ->
  loop st events = Ok st' -> failures st' = failures st.
Proof.
  induction events as [|te events IH]; intros st st' Hall H; simpl in H.
  - by inversion H.
  - destruct (step st te) as [st1|] eqn:E; simpl in H; [|done].
    inversion Hall as [|? ? Hte Hall']. subst.
    rewrite (IH st1 st' Hall' H), (step_failures _ _ _ E).
    destruct (String.eqb_spec (Test te) "") as [Ht|Ht]; [done|].
    destruct (String.eqb_spec (Action te) "fail") as [Ha|Ha]; [|done].
    by destruct Ht; apply Hte.
Qed.

Section package_failure.

Variable pkg : string.
Variable CockroachPkgPrefix : string.
Variable f : issue -> option string.
Variable getAuthorEmail : string -> string -> string + string.
Variable writeSlowTestsReport : string -> option string.
Variable sortSlice :
  (testEvent -> testEvent -> bool) -> list testEvent -> list testEvent.
Variable rangeOrder : gmap string (list testEvent) -> list string.

Local Abbreviation listFailures' :=
  (listFailures (Some pkg) CockroachPkgPrefix f getAuthorEmail
                writeSlowTestsReport sortSlice rangeOrder).

(** The failure of the package. When the stream ends with a [fail] event,
    no test failed or timed out and no output is outstanding for the test
    started last, [listFailures] posts one issue, for the test
    [(unknown)] and without an author: its message is the output printed
    outside of the tests, in the order of the stream. *)
Theorem package_failure_issue (events : list testEvent) :
  Forall (fun te => recordsTimeout te = false) events ->
  Forall (fun te => Action te = "fail" -> Test te = "") events ->
  Action (List.last events testEvent_zero) = "fail" ->
  (forall st, loop runState_start events = Ok st ->
              outstandingOutput st !! lastTestName st = None) ->
  posted (listFailures' events None) =
    [ {| title := strings.TrimPrefix pkg CockroachPkgPrefix
                  ++ ": package failed under stress";
         packageName := pkg;
         testName := "(unknown)";
         testMessage :=
           strings.Join0
             (map Output (List.filter packageLevelOutput events));
         authorEmail := "" |} ].
Proof.
  intros Hto Hnf Hlast Hout. unfold listFailures.
  destruct (loop_no_timeout events runState_start Hto eq_refl)
    as (st & E & Hn).
  rewrite E. specialize (Hout st E).
  assert (afterLoop st = st) as ->.
  { unfold afterLoop. by rewrite Hn, Hout. }
  pose proof (loop_no_test_failed _ _ _ Hnf E) as Hfs.
  pose proof (loop_lastEvent _ _ _ E) as Hle.
  pose proof (loop_packageOutput _ _ _ E) as Hpo.
  unfold finish, postIssues.
  rewrite Hle, Hfs, Hn, Hpo. cbn [lastEvent failures runState_start].
  rewrite Hlast. rewrite map_size_empty. fields.
  cbn [packageOutput runState_start]. cbn [String.append].
  by destruct (f _).
Qed.

End package_failure.

(** ** Posting stops at the first error *)

Section posting.

Variable lookupEnvPKG : option string.
Variable CockroachPkgPrefix : string.
Variable f : issue -> option string.
Variable getAuthorEmail : string -> string -> string + string.
Variable writeSlowTestsReport : string -> option string.
Variable sortSlice :
  (testEvent -> testEvent -> bool) -> list testEvent -> list testEvent.
Variable rangeOrder : gmap string (list testEvent) -> list string.

Local Abbreviation listFailures' :=
  (listFailures lookupEnvPKG CockroachPkgPrefix f getAuthorEmail
                writeSlowTestsReport sortSlice rangeOrder).
Local Abbreviation postFailures' := (postFailures f getAuthorEmail).
Local Abbreviation postIssues' := (postIssues f getAuthorEmail rangeOrder).

Lemma postFailures_failFast pkg trimmed failures names :
  forall posted log,
    Forall (fun i => f i = None) posted ->
    let '(posted', _, err) :=
      postFailures' pkg trimmed failures names posted log in
    failFast f posted' err.
Proof.
  induction names as [|test names IH]; intros posted log Hall; simpl;
    [done|].
  destruct (authorOf _ _ _) as [email line].
  destruct (f _) as [cause|] eqn:E.
  - simpl. by eauto 10.
  - apply IH. apply Forall_app. split; [done|]. by constructor.
Qed.

Lemma postIssues_failFast pkg trimmed st :
  let '(posted, _, err) := postIssues' pkg trimmed st in
  failFast f posted err.
Proof.
  unfold postIssues.
  destruct (_ && _ && _).
  - destruct (f _) as [cause|] eqn:E; simpl.
    + eexists [], _, cause. by repeat split.
    + by repeat constructor.
  - destruct (consolidate _ _ _) as [failures' log].
    by apply postFailures_failFast.
Qed.

Lemma postTimeout_Stop pkg trimmed name report passing failing s :
  postTimeout getAuthorEmail pkg trimmed name report passing failing = Stop s ->
  s = PanicIndexOutOfRange.
Proof.
  unfold postTimeout. destruct failing as [|hd tl]; [congruence|].
  destruct (String.eqb _ _); [destruct (authorOf _ _ _)|]; done.
Qed.

Lemma failFast_In posted err i cause :
  failFast f posted err -> In i posted -> f i = Some cause ->
  err = Some (errPostIssue cause)
  /\ exists l, posted = (l ++ [i])%list /\ Forall (fun i => f i = None) l.
Proof.
  unfold failFast. intros H Hin Hf. destruct err as [e|].
  - destruct H as (l & j & c & -> & Hall & Hj & ->).
    apply in_app_or in Hin. destruct Hin as [Hin|[->|[]]].
    + rewrite List.Forall_forall in Hall. rewrite (Hall i Hin) in Hf. done.
    + split; [congruence|]. by exists l.
  - rewrite List.Forall_forall in H. rewrite (H i Hin) in Hf. done.
Qed.

Lemma loop_Stop_not_return events : forall st s e,
  loop st events = Stop s -> s <> ReturnErr e.
Proof.
  induction events as [|te events IH]; intros st s e H; simpl in H;
    [done|].
  destruct (step st te) as [st1|s1] eqn:E; simpl in H; [by eapply IH|].
  inversion H. subst s1.
  destruct (step_Stop_inv _ _ _ E)
    as (_ & [(_ & _ & ->)|(_ & _ & [[? ->]| ->])]); done.
Qed.

(** [f] is never called again after it has returned an error, and its
    error is never dropped: every issue of a run but the last was accepted
    by [f]; when [f] refuses the last one [listFailures] returns that
    error, wrapped; and [listFailures] returns such an error in no other
    case. *)
Theorem posting_stops_at_first_error (events : list testEvent)
    (decodeErr : option string) :
  let o := listFailures' events decodeErr in
  (forall i cause, In i (posted o) -> f i = Some cause ->
     ended o = Some (ReturnErr (errPostIssue cause))
     /\ exists l, posted o = (l ++ [i])%list
                  /\ Forall (fun i => f i = None) l)
  /\ (forall cause, ended o = Some (ReturnErr (errPostIssue cause)) ->
        exists l i, posted o = (l ++ [i])%list /\ f i = Some cause).
Proof.
  cbv zeta. unfold listFailures.
  destruct lookupEnvPKG as [pkg|];
    [|by split; [intros ? ? [] | intros ? [=]]].
  destruct (loop runState_start events) as [st|s] eqn:E.
  2:{ split; [by intros ? ? []|]. intros cause [= ->].
      by destruct (loop_Stop_not_return _ _ _ (errPostIssue cause) E). }
  destruct decodeErr; [by split; [intros ? ? [] | intros ? [=]]|].
  unfold finish.
  pose proof (postIssues_failFast pkg
                (strings.TrimPrefix pkg CockroachPkgPrefix) (afterLoop st))
    as Hp.
  destruct (postIssues _ _ _ _ _ _) as [[issues log] [err|]].
  - cbn [posted ended]. split.
    + intros i cause Hin Hf.
      destruct (failFast_In _ _ _ _ Hp Hin Hf) as [He Hl].
      split; [congruence|done].
    + intros cause Hc. destruct Hp as (l & i & c & -> & _ & Hi & ->).
      exists l, i. split; [done|]. congruence.
  - destruct (negb _).
    + destruct (postTimeout _ _ _ _ _ _ _) as [[i lines]|s] eqn:Et;
        [|apply postTimeout_Stop in Et; subst s].
      * cbn [posted ended]. split.
        -- intros j cause Hin Hf. apply in_app_or in Hin.
           destruct Hin as [Hin|[->|[]]].
           ++ simpl in Hp. rewrite List.Forall_forall in Hp.
              rewrite (Hp j Hin) in Hf. done.
           ++ rewrite Hf. split; [done|]. by exists issues.
        -- intros cause Hc. exists issues, i. split; [done|].
           destruct (f i); congruence.
      * cbn [posted ended]. split; [|done].
        intros j cause Hin Hf. simpl in Hp.
        rewrite List.Forall_forall in Hp. rewrite (Hp j Hin) in Hf. done.
    + cbn [posted ended]. split; [|done].
      intros j cause Hin Hf. simpl in Hp.
      rewrite List.Forall_forall in Hp. rewrite (Hp j Hin) in Hf. done.
Qed.

End posting.

(** ** A test that passes after the timeout *)

Lemma loop_app l1 : forall l2 st,
  loop st (l1 ++ l2) = (st1 ← loop st l1; loop st1 l2).
Proof.
  induction l1 as [|te l1 IH]; intros l2 st; simpl; [done|].
  destruct (step st te) as [st1|s]; simpl; [apply IH | done].
Qed.

Lemma adjustElapsed_beforeSwitch st te :
  adjustElapsed (beforeSwitch st te) te = adjustElapsed st te.
Proof.
  unfold adjustElapsed. by autorewrite with frame.
Qed.

Lemma step_pass_timedOut st te :
  timedOutTestName st <> "" -> Test te <> "" ->
  Action te = "pass" \/ Action te = "skip" ->
  step st te = Stop (PanicTimeoutButPassed (adjustElapsed st te)).
Proof.
  intros Hn Ht Ha. unfold step, onTestEvent.
  rewrite nonempty_length, adjustElapsed_Test, !adjustElapsed_Action.
  apply String.eqb_neq in Ht. rewrite Ht. fields.
  assert (String.eqb (Action te) "run" = false) as ->
    by (by destruct Ha as [-> | ->]).
  assert (String.eqb (Action te) "output" = false) as ->
    by (by destruct Ha as [-> | ->]).
  assert ((Action te =? "pass")%string || (Action te =? "skip")%string
          = true) as -> by (by destruct Ha as [-> | ->]).
  unfold onPassSkip. autorewrite with frame.
  apply String.eqb_neq in Hn. rewrite Hn. fields.
  by rewrite adjustElapsed_beforeSwitch.
Qed.

Section pass_after_timeout.

Variable lookupEnvPKG : option string.
Variable CockroachPkgPrefix : string.
Variable f : issue -> option string.
Variable getAuthorEmail : string -> string -> string + string.
Variable writeSlowTestsReport : string -> option string.
Variable sortSlice :
  (testEvent -> testEvent -> bool) -> list testEvent -> list testEvent.
Variable rangeOrder : gmap string (list testEvent) -> list string.

Local Abbreviation listFailures' :=
  (listFailures lookupEnvPKG CockroachPkgPrefix f getAuthorEmail
                writeSlowTestsReport sortSlice rangeOrder).

(** Once a timeout is recorded, the [pass] or [skip] event of any test,
    the one that timed out or another, makes [listFailures] panic: no
    issue is posted, not even for the tests that failed before, and no
    report is written. *)
Theorem pass_after_timeout_panics (pkg : string)
    (before after : list testEvent) (te : testEvent) (st : runState)
    (decodeErr : option string) :
  lookupEnvPKG = Some pkg ->
  loop runState_start before = Ok st ->
  timedOutTestName st <> "" ->
  Test te <> "" -> Action te = "pass" \/ Action te = "skip" ->
  let o := listFailures' (before ++ te :: after) decodeErr in
  ended o = Some (PanicTimeoutButPassed (adjustElapsed st te))
  /\ posted o = [] /\ slowTestsReport o = None.
Proof.
  intros Hpkg E Hn Ht Ha. cbv zeta. unfold listFailures.
  rewrite Hpkg, loop_app, E. simpl.
  by rewrite (step_pass_timedOut st te Hn Ht Ha).
Qed.

End pass_after_timeout.

(** ** The outstanding output *)

Lemma default_fmap_Output (x : option (list testEvent)) :
  default [] (map Output <$> x) = map Output (default [] x).
Proof. by destruct x. Qed.

Lemma step_pending st te st' test :
  test <> "" ->
  step st te = Ok st' ->
  map Output <$> outstandingOutput st' !! test =
    pendingStep test (map Output <$> outstandingOutput st !! test) te.
Proof.
  intros Hne H. unfold pendingStep, final.
  step_shapes H st1 te1; subst st1 te1; fields; autorewrite with frame.
  1,2: rewrite Ht; apply String.eqb_neq in Hne; rewrite String.eqb_sym;
       by rewrite Hne.
  - rewrite Ha. by destruct (String.eqb (Test te) test).
  - rewrite Ha. fields.
    destruct (String.eqb_spec (Test te) test) as [->|Hd].
    + rewrite lookup_insert_eq. simpl. unfold events_of.
      rewrite map_app, default_fmap_Output. simpl.
      by rewrite ?adjustElapsed_Output.
    + by rewrite lookup_insert_ne.
  - rewrite Ha. fields.
    destruct (String.eqb_spec (Test te) test) as [->|Hd].
    + rewrite lookup_insert_eq. simpl. unfold events_of.
      rewrite map_app, default_fmap_Output. simpl.
      by rewrite ?adjustElapsed_Output.
    + by rewrite lookup_insert_ne.
  - assert (String.eqb (Action te) "output" = false) as ->
      by (by destruct Ha as [-> | ->]).
    assert ((Action te =? "pass")%string || (Action te =? "skip")%string
            = true) as -> by (by destruct Ha as [-> | ->]).
    fields.
    case_match; fields; autorewrite with frame;
      (destruct (String.eqb_spec (Test te) test) as [->|Hd];
       [by rewrite lookup_delete_eq | by rewrite lookup_delete_ne]).
  - rewrite Ha. fields.
    destruct (String.eqb_spec (Test te) test) as [->|Hd].
    + by rewrite lookup_delete_eq.
    + by rewrite lookup_delete_ne.
  - apply String.eqb_neq in Ho, Hp, Hs, Hf. rewrite Ho, Hp, Hs, Hf.
    by destruct (String.eqb (Test te) test).
Qed.

Lemma loop_pending events test : forall st st',
  test <> "" ->
  loop st events = Ok st' ->
  map Output <$> outstandingOutput st' !! test =
    fold_left (pendingStep test) events
              (map Output <$> outstandingOutput st !! test).
Proof.
  induction events as [|te events IH]; intros st st' Hne H; simpl in H.
  - by inversion H.
  - destruct (step st te) as [st1|] eqn:E; simpl in H; [|done].
    rewrite (IH st1 st' Hne H). simpl.
    by rewrite (step_pending _ _ _ _ Hne E).
Qed.

(** At every point of the stream [outstandingOutput] holds for a test
    exactly the [output] events of the test that arrived after its last
    [pass], [skip] or [fail] event, in their order, and has no entry for a
    test without such output: the text an issue would carry for the test
    is the text printed since the test last ended. *)
Theorem outstandingOutput_pending (events : list testEvent) (n : nat)
    (st : runState) (test : string) :
  test <> "" ->
  loop runState_start (take n events) = Ok st ->
  map Output <$> outstandingOutput st !! test = pending test (take n events).
Proof.
  intros Hne H. by rewrite (loop_pending _ _ _ _ Hne H).
Qed.

(** ** What the consolidation keeps *)

Lemma SplitN2_parent_ne test parent sub :
  strings.SplitN2 test "/" = [parent; sub] -> parent <> test.
Proof.
  intros H ->.
  destruct (SplitN2_slash_cases test)
    as [(_ & Hs)|(Hc & parent' & sub' & Hs & Hp)]; rewrite Hs in H;
    [done|].
  inversion H. congruence.
Qed.

Lemma holds_consolidated m test testEvents parent te :
  m !! test = Some testEvents -> parent <> test ->
  holds (delete test
           (<[parent := (events_of m parent ++ testEvents)%list]> m)) te
  <-> holds m te.
Proof.
  intros Hm Hne. unfold holds. split.
  - intros (k & l & Hk & Hin).
    destruct (decide (k = test)) as [->|Hkt].
    { by rewrite lookup_delete_eq in Hk. }
    rewrite lookup_delete_ne in Hk by done.
    destruct (decide (k = parent)) as [->|Hkp].
    + rewrite lookup_insert_eq in Hk. inversion Hk. subst l.
      apply in_app_or in Hin. destruct Hin as [Hin|Hin].
      * unfold events_of in Hin.
        destruct (m !! parent) as [evs|] eqn:E; [|done].
        by exists parent, evs.
      * by exists test, testEvents.
    + rewrite lookup_insert_ne in Hk by done. by exists k, l.
  - intros (k & l & Hk & Hin).
    destruct (decide (k = test)) as [->|Hkt].
    + exists parent, (events_of m parent ++ testEvents)%list.
      rewrite lookup_delete_ne, lookup_insert_eq by done.
      split; [done|]. apply in_or_app. right. congruence.
    + destruct (decide (k = parent)) as [->|Hkp].
      * exists parent, (events_of m parent ++ testEvents)%list.
        rewrite lookup_delete_ne, lookup_insert_eq by done.
        split; [done|]. apply in_or_app. left.
        unfold events_of. by rewrite Hk.
      * exists k, l.
        by rewrite lookup_delete_ne, lookup_insert_ne.
Qed.

(** The loop that folds the failed subtests into their parents neither
    loses an event nor makes one up, whatever the keys [range] produces
    and their order: the events held by the map after the loop are the
    events held before. *)
Theorem consolidate_keeps_events (keys : list string)
    (failures : gmap string (list testEvent)) (log : list logEntry)
    (te : testEvent) :
  holds (consolidate keys failures log).1 te <-> holds failures te.
Proof.
  revert failures log.
  induction keys as [|test keys IH]; intros failures log; simpl; [done|].
  destruct (failures !! test) as [testEvents|] eqn:E; [|by apply IH].
  destruct (strings.SplitN2 test "/") as [|parent [|sub [|? ?]]] eqn:Es;
    try apply IH.
  rewrite IH. apply holds_consolidated; [done|].
  by apply (SplitN2_parent_ne test parent sub).
Qed.

(** ** The order of the issues *)

Lemma sort_insert_Permutation x l : Permutation (sort.insert x l) (x :: l).
Proof.
  induction l as [|y l IH]; simpl; [done|].
  destruct (String.leb x y); [done|].
  rewrite IH. apply perm_swap.
Qed.

Lemma sort_Strings_Permutation l : Permutation (sort.Strings l) l.
Proof.
  induction l as [|x l IH]; simpl; [done|].
  unfold sort.Strings in *. by rewrite sort_insert_Permutation, IH.
Qed.

Lemma sort_insert_sorted x l :
  StronglySorted String.le l -> StronglySorted String.le (sort.insert x l).
Proof.
  induction 1 as [|y l Hl IH Hy]; simpl.
  - by repeat constructor.
  - destruct (String.leb x y) eqn:E.
    + constructor; [by constructor|].
      assert (String.le x y) as Hxy by (unfold String.le; by rewrite E).
      constructor; [done|].
      eapply Forall_impl; [exact Hy|]. intros z Hz. by etrans.
    + constructor; [done|].
      rewrite sort_insert_Permutation. constructor; [|done].
      destruct (total String.le x y) as [Hxy|Hyx]; [|done].
      unfold String.le in Hxy. by rewrite E in Hxy.
Qed.

Lemma sort_Strings_sorted l : StronglySorted String.le (sort.Strings l).
Proof.
  induction l as [|x l IH]; simpl; [constructor|].
  by apply sort_insert_sorted.
Qed.

Lemma sorted_NoDup_strict (l : list string) :
  StronglySorted String.le l -> NoDup l ->
  StronglySorted (strict String.le) l.
Proof.
  induction 1 as [|x l Hl IH Hx]; intros Hnd; [constructor|].
  apply NoDup_cons in Hnd as [Hnin Hnd].
  constructor; [by apply IH|].
  apply Forall_forall. intros y Hy.
  rewrite Forall_forall in Hx. split; [by apply Hx|].
  intros Hyx. assert (x = y) as -> by (apply (anti_symm String.le); auto).
  by apply Hnin.
Qed.

Lemma StronglySorted_take {A} (R : A -> A -> Prop) l n :
  StronglySorted R l -> StronglySorted R (take n l).
Proof.
  intros H. revert n. induction H as [|x l Hl IH Hx]; intros [|n]; simpl;
    try constructor; [apply IH|].
  apply Forall_forall. intros y Hy.
  rewrite Forall_forall in Hx. apply Hx.
  by eapply subseteq_take.
Qed.

Section order.

Variable lookupEnvPKG : option string.
Variable CockroachPkgPrefix : string.
Variable f : issue -> option string.
Variable getAuthorEmail : string -> string -> string + string.
Variable writeSlowTestsReport : string -> option string.
Variable sortSlice :
  (testEvent -> testEvent -> bool) -> list testEvent -> list testEvent.
Variable rangeOrder : gmap string (list testEvent) -> list string.

(** [range] produces every key that is in the map when the loop
    starts. *)
Hypothesis rangeOrder_covers :
  forall (m : gmap string (list testEvent)) k,
    is_Some (m !! k) -> k ∈ rangeOrder m.

Local Abbreviation listFailures' :=
  (listFailures lookupEnvPKG CockroachPkgPrefix f getAuthorEmail
                writeSlowTestsReport sortSlice rangeOrder).
Local Abbreviation postFailures' := (postFailures f getAuthorEmail).
Local Abbreviation postIssues' := (postIssues f getAuthorEmail rangeOrder).

Lemma postFailures_testName pkg trimmed failures names :
  forall posted log,
    exists n,
      map testName (postFailures' pkg trimmed failures names posted log).1.1
      = (map testName posted ++ take n names)%list.
Proof.
  induction names as [|test names IH]; intros posted log; simpl.
  - exists 0%nat. by rewrite app_nil_r.
  - destruct (authorOf _ _ _) as [email line].
    destruct (f _) as [cause|].
    + exists 1%nat. simpl. by rewrite map_app.
    + destruct (IH (posted ++ [ {| title := trimmed ++ ": " ++ test
                                           ++ " failed under stress";
                                  packageName := pkg; testName := test;
                                  testMessage :=
                                    strings.Join0
                                      (map Output (events_of failures test));
                                  authorEmail := email |} ])%list
                   (log ++ line)%list) as [n Hn].
      exists (S n). rewrite Hn, map_app. simpl.
      by rewrite <- app_assoc.
Qed.

Lemma postIssues_testName pkg trimmed st :
  let names := map testName (postIssues' pkg trimmed st).1.1 in
  StronglySorted (strict String.le) names
  /\ Forall (fun name => strings.Contains name "/" = false) names.
Proof.
  unfold postIssues. destruct (_ && _ && _).
  - simpl. split; by repeat constructor.
  - destruct (consolidate _ _ _) as [failures' log] eqn:Ec.
    destruct (postFailures_testName pkg trimmed failures'
                (sort.Strings (elements (dom failures'))) [] log)
      as [n Hn].
    cbv zeta. rewrite Hn. simpl. split.
    + apply StronglySorted_take, sorted_NoDup_strict.
      * apply sort_Strings_sorted.
      * rewrite sort_Strings_Permutation. apply NoDup_elements.
    + apply Forall_forall. intros name Hin.
      apply (subseteq_take n) in Hin.
      rewrite sort_Strings_Permutation in Hin.
      apply elem_of_elements, elem_of_dom in Hin.
      destruct (strings.Contains name "/") eqn:Hc; [|done].
      assert (failures' = (consolidate (rangeOrder (failures st))
                             (failures st) (logged st)).1) as Hf
        by (by rewrite Ec).
      rewrite Hf in Hin.
      destruct (consolidate_subtest_left _ _ _ _ Hin Hc) as [Hk Hnot].
      destruct Hnot. by apply rangeOrder_covers.
Qed.

(** When no timeout is recorded, the issues of a run are posted in
    strictly ascending order of their test names, compared byte by byte,
    so no two of them are for the same test; and no name is that of a
    subtest: the failure of a subtest is reported for its top-level
    test. This holds for every order in which [range] walks the map. *)
Theorem issues_ascending_top_level (events : list testEvent)
    (decodeErr : option string) :
  Forall (fun te => recordsTimeout te = false) events ->
  let names := map testName (posted (listFailures' events decodeErr)) in
  StronglySorted (strict String.le) names
  /\ Forall (fun name => strings.Contains name "/" = false) names.
Proof.
  intros Hall. cbv zeta. unfold listFailures.
  destruct lookupEnvPKG as [pkg|]; [|split; constructor].
  destruct (loop_no_timeout events runState_start Hall eq_refl)
    as (st & -> & Hn).
  destruct decodeErr; [split; constructor|].
  unfold finish.
  pose proof (postIssues_testName pkg
                (strings.TrimPrefix pkg CockroachPkgPrefix) (afterLoop st))
    as Hp.
  rewrite afterLoop_timedOutTestName, Hn.
  destruct (postIssues _ _ _ _ _ _) as [[issues log] [err|]]; exact Hp.
Qed.

End order.

(** ** The output of a failed test *)

Lemma loop_reported events test : forall st st',
  test <> "" ->
  Forall (fun te => recordsTimeout te = false) events ->
  timedOutTestName st = "" ->
  loop st events = Ok st' ->
  (map Output <$> outstandingOutput st' !! test,
   map Output <$> failures st' !! test) =
    fold_left (reportStep test) events
      (map Output <$> outstandingOutput st !! test,
       map Output <$> failures st !! test).
Proof.
  induction events as [|te events IH]; intros st st' Hne Hall Hn H;
    simpl in H.
  - by inversion H.
  - destruct (step st te) as [st1|] eqn:E; simpl in H; [|done].
    inversion Hall as [|? ? Hr Hall']. subst.
    rewrite (IH st1 st' Hne Hall'); [| |done].
    2:{ by rewrite (step_timedOutTestName _ _ _ E), Hr. }
    simpl. f_equal. unfold reportStep. cbn [fst snd].
    rewrite (step_pending _ _ _ _ Hne E), (step_failures _ _ _ E), Hn.
    f_equal.
    destruct (String.eqb_spec (Test te) test) as [->|Hd].
    + apply String.eqb_neq in Hne as Hne'. rewrite Hne'.
      assert (String.eqb "" test = false) as ->
        by (rewrite String.eqb_sym; exact Hne').
      fields. destruct (String.eqb (Action te) "fail"); fields; [|done].
      rewrite lookup_insert_eq. simpl. unfold events_of.
      by rewrite default_fmap_Output.
    + fields. case_match; fields; [|done]. by rewrite lookup_insert_ne.
Qed.

(** Without a timeout, [failures] holds for a test exactly the output that
    was outstanding for the test when its last [fail] event arrived, and
    has no entry for a test without a [fail] event. *)
Theorem failures_reported (events : list testEvent) (st : runState)
    (test : string) :
  test <> "" ->
  Forall (fun te => recordsTimeout te = false) events ->
  loop runState_start events = Ok st ->
  map Output <$> failures st !! test = reported test events.
Proof.
  intros Hne Hall H. unfold reported.
  pose proof (loop_reported events test runState_start st Hne Hall
                eq_refl H) as Hr.
  cbn [outstandingOutput failures runState_start] in Hr.
  rewrite !lookup_empty in Hr. simpl in Hr. by rewrite <- Hr.
Qed.

(** ** The test binary that dies *)

Lemma step_lastTestName st te st' :
  step st te = Ok st' ->
  lastTestName st' =
    if negb (String.eqb (Test te) "") && String.eqb (Action te) "run"
    then Test te else lastTestName st.
Proof.
  intros H.
  step_shapes H st1 te1; subst st1 te1; fields; autorewrite with frame.
  1,2: rewrite Ht; fields; by autorewrite with frame.
  all: apply String.eqb_neq in Ht as Ht'; rewrite Ht'; fields.
  - rewrite Ha. fields. unfold onRun.
    case_match; fields; by autorewrite with frame.
  - rewrite Ha. done.
  - rewrite Ha. done.
  - assert (String.eqb (Action te) "run" = false) as ->
      by (by destruct Ha as [-> | ->]).
    case_match; fields; by autorewrite with frame.
  - rewrite Ha. fields. unfold onFail.
    repeat case_match; fields; by autorewrite with frame.
  - apply String.eqb_neq in Hr. by rewrite Hr.
Qed.

Lemma loop_lastTestName events : forall st st',
  loop st events = Ok st' ->
  lastTestName st' =
    fold_left (fun name te =>
                 if negb (String.eqb (Test te) "")
                    && String.eqb (Action te) "run"
                 then Test te else name)
              events (lastTestName st).
Proof.
  induction events as [|te events IH]; intros st st' H; simpl in H.
  - by inversion H.
  - destruct (step st te) as [st1|] eqn:E; simpl in H; [|done].
    rewrite (IH st1 st' H). simpl. by rewrite (step_lastTestName _ _ _ E).
Qed.

Section crash.

Variable pkg : string.
Variable CockroachPkgPrefix : string.
Variable f : issue -> option string.
Variable getAuthorEmail : string -> string -> string + string.
Variable writeSlowTestsReport : string -> option string.
Variable sortSlice :
  (testEvent -> testEvent -> bool) -> list testEvent -> list testEvent.
Variable rangeOrder : gmap string (list testEvent) -> list string.

Local Abbreviation listFailures' :=
  (listFailures (Some pkg) CockroachPkgPrefix f getAuthorEmail
                writeSlowTestsReport sortSlice rangeOrder).

(** The test binary dies. When the stream has no [fail] event of a test
    and no timeout message, and ends while output is outstanding for the
    top-level test that was started last, [listFailures] takes that test
    for failed: it posts one issue, for that test, whose message is the
    outstanding output, and says so in the log. *)
Theorem crash_blamed_on_last_test (events : list testEvent)
    (output : list string) :
  Forall (fun te => recordsTimeout te = false) events ->
  Forall (fun te => Action te = "fail" -> Test te = "") events ->
  lastRun events <> "" ->
  strings.Contains (lastRun events) "/" = false ->
  pending (lastRun events) events = Some output ->
  let o := listFailures' events None in
  map (fun i => (title i, packageName i, testName i, testMessage i))
      (posted o)
  = [ (strings.TrimPrefix pkg CockroachPkgPrefix ++ ": " ++ lastRun events
         ++ " failed under stress",
       pkg, lastRun events, strings.Join0 output) ]
  /\ In (LogOutstandingOutput (lastRun events)) (logs o).
Proof.
  intros Hto Hnf Hne Htop Hpend. cbv zeta. unfold listFailures.
  destruct (loop_no_timeout events runState_start Hto eq_refl)
    as (st & E & Hn).
  rewrite E.
  pose proof (loop_no_test_failed _ _ _ Hnf E) as Hfs.
  pose proof (loop_lastTestName _ _ _ E) as Hlast.
  change (lastTestName st = lastRun events) in Hlast.
  pose proof (loop_pending events _ _ _ Hne E) as Hp.
  change (map Output <$> outstandingOutput st !! lastRun events
          = pending (lastRun events) events) in Hp.
  rewrite Hpend in Hp.
  destruct (outstandingOutput st !! lastRun events) as [evs|] eqn:Eo;
    [|done].
  inversion Hp as [Hout]. clear Hp.
  set (name := lastRun events) in *.
  assert (afterLoop st =
          set_failures {[ name := evs ]}
            (add_log [LogOutstandingOutput name] st)) as ->.
  { unfold afterLoop. rewrite Hn, Hlast, Eo, Hfs. fields.
    cbn [failures runState_start]. by rewrite insert_empty. }
  unfold finish, postIssues. fields.
  rewrite map_size_singleton, andb_false_r. fields.
  assert (forall keys log,
            consolidate keys ({[ name := evs ]} : gmap _ _) log
            = ({[ name := evs ]}, (consolidate keys {[ name := evs ]} log).2))
    as Hc.
  { intros keys log.
    rewrite <- (consolidate_top_level keys {[ name := evs ]} log) at 2.
    - by destruct (consolidate _ _ _).
    - intros k [x Hk]. apply lookup_singleton_Some in Hk as [<- _]. done. }
  rewrite Hc. rewrite dom_singleton_L, elements_singleton.
  cbn [sort.Strings fold_right sort.insert postFailures].
  unfold events_of. rewrite lookup_singleton_eq. cbn [default].
  destruct (authorOf _ _ _) as [email line].
  assert (forall keys l, In (LogOutstandingOutput name)
            (consolidate keys ({[ name := evs ]} : gmap _ _)
               (logged st ++ l ++ [LogOutstandingOutput name])%list).2)
    as Hlog.
  { intros keys. 
    assert (forall keys (m : gmap string (list testEvent)) log,
              In (LogOutstandingOutput name) log ->
              In (LogOutstandingOutput name) (consolidate keys m log).2)
      as Hin.
    { clear. induction keys as [|k keys IH]; intros m log Hl; simpl;
        [done|].
      destruct (m !! k); [|by apply IH].
      destruct (strings.SplitN2 k "/") as [|? [|? [|? ?]]];
        apply IH; apply in_or_app; by left. }
    intros l. apply Hin. apply in_or_app. right. apply in_or_app.
    right. by left. }
  specialize (Hlog (rangeOrder {[ name := evs ]}) []).
  cbn [app] in Hlog.
  destruct (f _) as [err|]; cbn [posted logs map title packageName testName
                                 testMessage app].
  - split; [done|]. apply in_or_app. by left.
  - rewrite Hn. fields. split; [done|].
    destruct (writeSlowTestsReport _); [apply in_or_app; left|];
      apply in_or_app; by left.
Qed.

End crash.

(** ** The slow tests that fail, without a timeout *)

Lemma step_slowFailingTests_eq st te st' :
  timedOutTestName st = "" ->
  step st te = Ok st' ->
  slowFailingTests st' =
    (slowFailingTests st ++ if failedTopLevel te then [te] else [])%list.
Proof.
  intros Hn H. unfold failedTopLevel.
  step_shapes H st1 te1; subst st1 te1; fields; autorewrite with frame.
  1,2: rewrite Ht; fields; by rewrite andb_false_r, app_nil_r.
  all: apply String.eqb_neq in Ht as Ht'; rewrite Ht'; fields.
  - rewrite Ha. fields. by rewrite app_nil_r.
  - rewrite Ha. fields. by rewrite app_nil_r.
  - rewrite Ha. fields. by rewrite app_nil_r.
  - assert (String.eqb (Action te) "fail" = false) as ->
      by (by destruct Ha as [-> | ->]).
    fields. case_match; fields; autorewrite with frame;
      by rewrite app_nil_r.
  - rewrite Ha. fields. rewrite onFail_slowFailingTests.
    autorewrite with frame. rewrite adjustElapsed_topLevel, Hn.
    rewrite (adjustElapsed_not_timedOut (beforeSwitch st te) te);
      [|by autorewrite with frame|done].
    assert (String.eqb "" (Test te) = false) as ->
      by (rewrite String.eqb_sym; exact Ht').
    rewrite orb_false_r.
    destruct (topLevel te); [done | by rewrite app_nil_r].
  - apply String.eqb_neq in Hf. rewrite Hf. fields. by rewrite app_nil_r.
Qed.

Lemma loop_slowFailingTests_eq events : forall st st',
  Forall (fun te => recordsTimeout te = false) events ->
  timedOutTestName st = "" ->
  loop st events = Ok st' ->
  slowFailingTests st' =
    (slowFailingTests st ++ List.filter failedTopLevel events)%list.
Proof.
  induction events as [|te events IH]; intros st st' Hall Hn H;
    simpl in H.
  - inversion H. subst. simpl. by rewrite app_nil_r.
  - destruct (step st te) as [st1|] eqn:E; simpl in H; [|done].
    inversion Hall as [|? ? Hr Hall']. subst.
    rewrite (IH st1 st' Hall'); [| |done].
    2:{ by rewrite (step_timedOutTestName _ _ _ E), Hr. }
    rewrite (step_slowFailingTests_eq _ _ _ Hn E).
    cbn [List.filter]. rewrite <- app_assoc.
    by destruct (failedTopLevel te).
Qed.

(** Without a timeout, the list the report is made from as
    ["Slow failing tests"] holds exactly the [fail] events of the
    top-level tests, in the order of their arrival and whatever their
    [Elapsed]. *)
Theorem slowFailingTests_filter (events : list testEvent) (st : runState) :
  Forall (fun te => recordsTimeout te = false) events ->
  loop runState_start events = Ok st ->
  slowFailingTests (afterLoop st) = List.filter failedTopLevel events.
Proof.
  intros Hall H.
  destruct (loop_no_timeout events runState_start Hall eq_refl)
    as (st0 & E & Hn).
  rewrite H in E. inversion E. subst st0.
  pose proof (loop_slowFailingTests_eq events runState_start st Hall
                eq_refl H) as Hs.
  cbn [slowFailingTests runState_start app] in Hs. rewrite <- Hs.
  unfold afterLoop. rewrite Hn. fields.
  by destruct (outstandingOutput st !! lastTestName st).
Qed.

Lemma slowFailingTests_filter_witness :
  slowFailingTests (afterLoop Sample.afterSlowTests)
  = List.filter failedTopLevel Sample.slowTests.
Proof.
  apply slowFailingTests_filter.
  - repeat constructor.
  - exact Sample_slowTests_loop.
Defined.

(** ** The properties at work on the examples *)

Lemma package_failure_issue_witness :
  posted (Sample.run Sample.buildFailure) =
    [ {| title := strings.TrimPrefix Sample.pkg Sample.prefix
                  ++ ": package failed under stress";
         packageName := Sample.pkg;
         testName := "(unknown)";
         testMessage :=
           strings.Join0
             (map Output
                (List.filter packageLevelOutput Sample.buildFailure));
         authorEmail := "" |} ].
Proof.
  apply package_failure_issue.
  - repeat constructor.
  - repeat constructor.
  - reflexivity.
  - intros st H. vm_compute in H. inversion H. vm_compute. reflexivity.
Defined.

Lemma Sample_firstTimeout_loop :
  loop runState_start Sample.firstTimeout = Ok Sample.afterFirstTimeout.
Proof. vm_compute. reflexivity. Qed.

Lemma pass_after_timeout_panics_witness :
  let o := Sample.run (Sample.firstTimeout ++ [Sample.lateSuccess]) in
  ended o = Some (PanicTimeoutButPassed
                    (adjustElapsed Sample.afterFirstTimeout
                                   Sample.lateSuccess))
  /\ posted o = [] /\ slowTestsReport o = None.
Proof.
  apply (pass_after_timeout_panics (Some Sample.pkg) Sample.prefix
           (fun _ => None) (fun _ _ => inr "no git") (fun _ => None)
           Sample.sortSlice Sample.rangeOrder Sample.pkg
           Sample.firstTimeout [] Sample.lateSuccess
           Sample.afterFirstTimeout None eq_refl Sample_firstTimeout_loop).
  - discriminate.
  - discriminate.
  - by left.
Defined.

Lemma Sample_truncated_loop :
  loop runState_start (take 2 Sample.truncated) = Ok Sample.afterTruncated.
Proof. vm_compute. reflexivity. Qed.

Lemma outstandingOutput_pending_witness :
  map Output <$> outstandingOutput Sample.afterTruncated !! "TestA"
  = pending "TestA" (take 2 Sample.truncated).
Proof.
  apply (outstandingOutput_pending Sample.truncated 2 Sample.afterTruncated
           "TestA"); [discriminate|].
  exact Sample_truncated_loop.
Defined.

Lemma Sample_quickFailure_loop :
  loop runState_start Sample.quickFailure
  = Ok (default runState_start
          (value (loop runState_start Sample.quickFailure))).
Proof. vm_compute. reflexivity. Qed.

Lemma failures_reported_witness :
  map Output
    <$> failures (default runState_start
                    (value (loop runState_start Sample.quickFailure)))
        !! "TestA"
  = reported "TestA" Sample.quickFailure.
Proof.
  apply failures_reported.
  - discriminate.
  - repeat constructor.
  - exact Sample_quickFailure_loop.
Defined.

Lemma crash_blamed_on_last_test_witness :
  let o := Sample.run Sample.truncated in
  map (fun i => (title i, packageName i, testName i, testMessage i))
      (posted o)
  = [ (strings.TrimPrefix Sample.pkg Sample.prefix ++ ": "
         ++ lastRun Sample.truncated ++ " failed under stress",
       Sample.pkg, lastRun Sample.truncated, strings.Join0 ["boom"]) ]
  /\ In (LogOutstandingOutput (lastRun Sample.truncated)) (logs o).
Proof.
  apply crash_blamed_on_last_test.
  - repeat constructor.
  - repeat constructor; discriminate.
  - discriminate.
  - reflexivity.
  - reflexivity.
Defined.

Lemma Sample_severalFailures_names :
  map testName (posted (Sample.run Sample.severalFailures))
  = ["TestA"; "TestB"; "Test_c"].
Proof. by vm_compute. Qed.

Lemma issues_ascending_top_level_witness :
  map testName (posted (Sample.run Sample.severalFailures))
  = ["TestA"; "TestB"; "Test_c"]
  /\ StronglySorted (strict String.le)
       (map testName (posted (Sample.run Sample.severalFailures)))
  /\ Forall (fun name => strings.Contains name "/" = false)
       (map testName (posted (Sample.run Sample.severalFailures))).
Proof.
  split; [exact Sample_severalFailures_names|].
  apply (issues_ascending_top_level (Some Sample.pkg) Sample.prefix
           (fun _ => None) (fun _ _ => inr "no git") (fun _ => None)
           Sample.sortSlice Sample.rangeOrder Sample_rangeOrder_covers
           Sample.severalFailures None).
  repeat constructor.
Defined.

(** * Properties of the wire format *)

Import types.

(** ** Bytes *)

Lemma val_range b : 0 <= val b < 256.
Proof.
  unfold val. pose proof (Byte.to_N_bounded b). lia.
Qed.

Lemma val_uint8 x : val (uint8 x) = x mod 256.
Proof.
  unfold val, uint8.
  pose proof (Z.mod_pos_bound x 256 eq_refl) as Hm.
  destruct (Byte.of_N (Z.to_N (x mod 256))) as [b|] eqn:E; simpl.
  - apply Byte.to_of_N in E. rewrite E. lia.
  - apply Byte.of_N_None_iff in E. lia.
Qed.

Lemma uint8_val b : uint8 (val b) = b.
Proof.
  unfold uint8. pose proof (val_range b) as Hb.
  rewrite Z.mod_small by done. unfold val.
  by rewrite N2Z.id, Byte.of_to_N.
Qed.

Lemma len_app {A} (l1 l2 : list A) : len (l1 ++ l2) = len l1 + len l2.
Proof. unfold len. rewrite length_app. lia. Qed.

Lemma len_nonneg {A} (l : list A) : 0 <= len l.
Proof. unfold len. lia. Qed.

Lemma length_bytes s : length (bytes s) = String.length s.
Proof.
  unfold bytes, list_byte_of_string.
  rewrite length_map. induction s as [|c s IH]; simpl; [done|].
  by rewrite IH.
Qed.

(** ** The groups of a varint *)

Lemma land_127 v : Z.land v 127 = v mod 128.
Proof. apply (Z.land_ones v 7). lia. Qed.

Lemma lor_128 v : Z.lor (Z.land v 127) 128 = v mod 128 + 128.
Proof.
  pose proof (Z.add_lor_land (Z.land v 127) 128) as H.
  assert (Z.land (Z.land v 127) 128 = 0) as Hz.
  { rewrite <- Z.land_assoc. by rewrite Z.land_0_r. }
  rewrite Hz, land_127 in H. rewrite land_127. lia.
Qed.

Lemma shiftr_7 v : Z.shiftr v 7 = v / 128.
Proof. apply (Z.shiftr_div_pow2 v 7). lia. Qed.

Lemma log2_small v : 0 <= v < 128 -> Z.log2 v / 7 = 0.
Proof.
  intros Hv. apply Z.div_small.
  destruct (decide (v = 0)) as [->|Hne]; [done|].
  split; [apply Z.log2_nonneg|].
  apply Z.log2_lt_pow2; lia.
Qed.

Lemma log2_big v : 128 <= v -> 7 <= Z.log2 v.
Proof. intros Hv. apply (Z.log2_le_pow2 v 7); lia. Qed.

Lemma log2_shiftr_7 v : 128 <= v -> Z.log2 (Z.shiftr v 7) = Z.log2 v - 7.
Proof.
  intros Hv. rewrite Z.log2_shiftr by lia. pose proof (log2_big v Hv). lia.
Qed.

Lemma groups_small v : 0 <= v < 128 -> groups v = 1%nat.
Proof. intros Hv. unfold groups. by rewrite log2_small. Qed.

Lemma groups_big v : 128 <= v -> groups v = S (groups (Z.shiftr v 7)).
Proof.
  intros Hv. unfold groups. rewrite log2_shiftr_7 by done.
  pose proof (log2_big v Hv) as Hl.
  replace (Z.log2 v) with ((Z.log2 v - 7) + 1 * 7) at 1 by lia.
  rewrite Z.div_add by lia.
  rewrite Z2Nat.inj_add; [|apply Z.div_pos; lia|lia].
  simpl. lia.
Qed.

Lemma length_varint v : length (varint v) = groups v.
Proof. unfold varint. by rewrite length_map, length_seq. Qed.

Lemma varint_small v : 0 <= v < 128 -> varint v = [uint8 v].
Proof.
  intros Hv. unfold varint. rewrite groups_small by done. simpl.
  rewrite Z.shiftr_0_r, land_127, Z.mod_small by lia.
  by rewrite Z.add_0_r.
Qed.

Lemma varint_big v :
  128 <= v ->
  varint v = uint8 (Z.lor (Z.land v 127) 128) :: varint (Z.shiftr v 7).
Proof.
  intros Hv. unfold varint. rewrite (groups_big v Hv).
  cbn [seq map]. f_equal.
  - rewrite Z.shiftr_0_r, lor_128, land_127. done.
  - rewrite <- seq_shift, map_map. apply map_ext. intros k.
    rewrite Z.shiftr_shiftr by lia.
    replace (7 + 7 * Z.of_nat k) with (7 * Z.of_nat (S k)) by lia.
    done.
Qed.

(** ** [sovTypes] *)

Lemma sovTypes_loop_groups fuel : forall x n,
  0 <= x -> (digits x <= fuel)%nat ->
  sovTypes_loop fuel x n = n + Z.of_nat (groups x).
Proof.
  induction fuel as [|fuel IH]; intros x n Hx Hf; simpl;
    destruct (Z.eqb_spec (Z.shiftr x 7) 0) as [Hz|Hz].
  - rewrite groups_small; [lia|].
    rewrite shiftr_7 in Hz. apply Z.div_small_iff in Hz; lia.
  - destruct (decide (x < 128)) as [Hs|Hb].
    + destruct Hz. rewrite shiftr_7. apply Z.div_small. lia.
    + unfold digits in Hf. pose proof (log2_big x ltac:(lia)). lia.
  - rewrite groups_small; [lia|].
    rewrite shiftr_7 in Hz. apply Z.div_small_iff in Hz; lia.
  - assert (128 <= x) as Hb.
    { destruct (decide (x < 128)) as [Hs|Hb]; [|lia].
      destruct Hz. rewrite shiftr_7. apply Z.div_small. lia. }
    rewrite IH.
    + rewrite (groups_big x Hb). lia.
    + apply Z.shiftr_nonneg. lia.
    + unfold digits in *. rewrite log2_shiftr_7 by done.
      pose proof (log2_big x Hb). lia.
Qed.

Lemma sovTypes_groups x : 0 <= x -> sovTypes x = Z.of_nat (groups x).
Proof.
  intros Hx. unfold sovTypes. by rewrite sovTypes_loop_groups.
Qed.

(** [sovTypes] is the number of bytes of the varint of its argument: one
    for every seven binary digits. A [uint64] takes one to ten bytes. *)
Theorem sovTypes_log2 (x : Z) :
  0 <= x ->
  sovTypes x = Z.log2 x / 7 + 1
  /\ sovTypes x = len (varint x)
  /\ (x < 2 ^ 64 -> 1 <= sovTypes x <= 10).
Proof.
  intros Hx. rewrite sovTypes_groups by done.
  unfold len. rewrite length_varint. unfold groups.
  assert (0 <= Z.log2 x / 7) as Hd.
  { apply Z.div_pos; [apply Z.log2_nonneg | lia]. }
  split; [lia|]. split; [done|]. intros Hlt.
  assert (Z.log2 x / 7 <= 9); [|lia].
  destruct (decide (x = 0)) as [->|Hne]; [done|].
  assert (Z.log2 x < 64) by (apply Z.log2_lt_pow2; lia).
  apply Z.div_le_upper_bound; lia.
Qed.

(** ** Writing to a slice *)

Lemma bind_Done {A B} (a : A) (k : A -> result B) : (Done a ≫= k) = k a.
Proof. done. Qed.

(** A write at the end of what has been written so far. *)
Lemma store_app w rest i b :
  i = len w -> (0 < length rest)%nat ->
  store (w ++ rest) i b = Done ((w ++ [b]) ++ drop 1 rest)%list.
Proof.
  intros -> Hr. unfold store, len.
  rewrite length_app.
  destruct (Z.leb_spec 0 (Z.of_nat (length w))); [|lia].
  destruct (Z.ltb_spec (Z.of_nat (length w))
              (Z.of_nat (length w + length rest))); [|lia].
  simpl. rewrite Nat2Z.id. f_equal.
  destruct rest as [|b0 rest]; [simpl in Hr; lia|].
  rewrite insert_app_r_alt, Nat.sub_diag by lia. simpl.
  by rewrite <- app_assoc.
Qed.

Lemma store_full dAtA i b :
  len dAtA <= i -> store dAtA i b = Panic IndexOutOfRange.
Proof.
  intros Hi. unfold store.
  destruct (Z.ltb_spec i (len dAtA)); [lia|]. by rewrite andb_false_r.
Qed.

Lemma store_length dAtA i b dAtA' :
  store dAtA i b = Done dAtA' -> length dAtA' = length dAtA.
Proof.
  unfold store. case_match; [|done]. intros [= <-].
  by rewrite length_insert.
Qed.

Lemma encodeVarintTypes_loop_app fuel : forall v w rest i,
  0 <= v -> (digits v <= fuel)%nat ->
  i = len w -> (groups v <= length rest)%nat ->
  (r ← encodeVarintTypes_loop fuel (w ++ rest) i v;
   dAtA ← store r.1.1 r.1.2 (uint8 r.2);
   Done (dAtA, r.1.2 + 1))
  = Done ((w ++ varint v) ++ drop (groups v) rest, len (w ++ varint v))%list.
Proof.
  induction fuel as [|fuel IH]; intros v w rest i Hv Hf -> Hr;
    cbn [encodeVarintTypes_loop];
    destruct (Z.leb_spec 128 v) as [Hb|Hs].
  - unfold digits in Hf. pose proof (log2_big v Hb). lia.
  - rewrite bind_Done. cbn [fst snd].
    rewrite groups_small in * by lia. rewrite varint_small by lia.
    rewrite store_app by (done || lia). rewrite bind_Done.
    by rewrite len_app.
  - rewrite (groups_big v Hb) in Hr.
    rewrite store_app by (done || lia). rewrite bind_Done.
    rewrite (IH (Z.shiftr v 7)).
    + rewrite (varint_big v Hb), (groups_big v Hb), drop_drop.
      by rewrite <- !app_assoc.
    + apply Z.shiftr_nonneg. lia.
    + unfold digits in *. rewrite log2_shiftr_7 by done.
      pose proof (log2_big v Hb). lia.
    + rewrite len_app. done.
    + rewrite length_drop. lia.
  - rewrite bind_Done. cbn [fst snd].
    rewrite groups_small in * by lia. rewrite varint_small by lia.
    rewrite store_app by (done || lia). rewrite bind_Done.
    by rewrite len_app.
Qed.

Lemma encodeVarintTypes_writes v :
  0 <= v -> writes (fun dAtA i => encodeVarintTypes dAtA i v) (varint v).
Proof.
  intros Hv w rest i Hi _ Hr. rewrite length_varint in *.
  unfold encodeVarintTypes.
  rewrite <- (encodeVarintTypes_loop_app (digits v) v w rest i) by done.
  destruct (encodeVarintTypes_loop _ _ _ _) as [[[d o] v']| | |]; done.
Qed.

Lemma copy_writes src :
  writes (fun dAtA i => '(dAtA, n) ← copy dAtA i src; Done (dAtA, i + n)) src.
Proof.
  intros w rest i -> _ Hr. unfold copy.
  pose proof (len_nonneg w). rewrite len_app.
  destruct (Z.leb_spec 0 (len w)); [|lia].
  destruct (Z.leb_spec (len w) (len w + len rest));
    [|pose proof (len_nonneg rest); lia].
  cbn [andb]. rewrite bind_Done. cbv beta iota.
  assert (Z.min (len w + len rest - len w) (len src) = len src) as ->
    by (unfold len; lia).
  unfold len. rewrite !Nat2Z.id, <- Nat2Z.inj_add, Nat2Z.id.
  rewrite take_app_length, firstn_all.
  rewrite drop_app_add' by done.
  by rewrite length_app, <- app_assoc.
Qed.

Lemma writes_tag op tag bs :
  writes op bs ->
  writes (fun dAtA i => dAtA ← store dAtA i tag; op dAtA (i + 1)) (tag :: bs).
Proof.
  intros Hop w rest i -> Hb Hr. simpl in Hr.
  rewrite store_app by (done || lia). rewrite bind_Done.
  rewrite (Hop (w ++ [tag])%list (drop 1 rest));
    [|by rewrite len_app
     |revert Hb; unfold len; rewrite !length_app, length_drop; simpl; lia
     |rewrite length_drop; lia].
  rewrite drop_drop, <- !app_assoc. done.
Qed.

Lemma writes_seq op1 op2 bs1 bs2 :
  writes op1 bs1 -> writes op2 bs2 ->
  writes (fun dAtA i => '(dAtA, i) ← op1 dAtA i; op2 dAtA i) (bs1 ++ bs2).
Proof.
  intros H1 H2 w rest i -> Hb Hr. rewrite length_app in Hr.
  rewrite (H1 w rest) by (done || lia). rewrite bind_Done. cbv beta iota.
  rewrite (H2 (w ++ bs1)%list (drop (length bs1) rest));
    [|done
     |revert Hb; unfold len; rewrite !length_app, length_drop; lia
     |rewrite length_drop; lia].
  rewrite drop_drop, length_app, <- !app_assoc. done.
Qed.

Lemma writes_nil : writes (fun dAtA i => Done (dAtA, i)) [].
Proof.
  intros w rest i -> _ _. simpl. by rewrite app_nil_r, drop_0.
Qed.

Lemma writes_ext op1 op2 bs :
  (forall dAtA i, op1 dAtA i = op2 dAtA i) -> writes op1 bs -> writes op2 bs.
Proof. intros He H w rest i Hi Hb Hr. rewrite <- He. by apply H. Qed.

(** ** [MarshalTo], [Size] and [Marshal] *)

Lemma uint64_nonneg x : 0 <= uint64 x.
Proof. unfold uint64. apply Z.mod_pos_bound. lia. Qed.

Lemma uint64_small x : 0 <= x < 2 ^ 64 -> uint64 x = x.
Proof. intros Hx. unfold uint64. by apply Z.mod_small. Qed.

Lemma int_small x : - 2 ^ 63 <= x < 2 ^ 63 -> int x = x.
Proof. intros Hx. unfold int. rewrite Z.mod_small; lia. Qed.

Lemma marshalLen_loop_encode fuel : forall dAtA i l,
  marshalLen_loop fuel dAtA i l = encodeVarintTypes_loop fuel dAtA i l.
Proof.
  induction fuel as [|fuel IH]; intros dAtA i l; simpl; [done|].
  destruct (128 <=? l); [|done].
  assert (Z.land (uint64 l) 127 = Z.land l 127) as ->.
  { rewrite !land_127. unfold uint64.
    change (2 ^ 64) with (128 * 2 ^ 57).
    rewrite Z.rem_mul_r by lia. rewrite Z.mul_comm, Z.mod_add by lia.
    apply Z.mod_mod; lia. }
  destruct (store _ _ _); simpl; done.
Qed.

Lemma length_varintField tag v :
  length (varintField tag v) = S (length (varint v)).
Proof. done. Qed.

Lemma length_bytesField tag b :
  length (bytesField tag b) = S (length (varint (len b)) + length b).
Proof. unfold bytesField. simpl. by rewrite length_app. Qed.

Lemma slice_app w rest :
  slice (w ++ rest) (len w) (len (w ++ rest)) = Done rest.
Proof.
  unfold slice. rewrite len_app.
  pose proof (len_nonneg w). pose proof (len_nonneg rest).
  destruct (Z.leb_spec 0 (len w)); [|lia].
  destruct (Z.leb_spec (len w) (len w + len rest)); [|lia].
  destruct (Z.leb_spec (len w + len rest) (len w + len rest)); [|lia].
  cbn [andb]. f_equal.
  replace (len w + len rest - len w) with (len rest) by lia.
  unfold len. rewrite !Nat2Z.id.
  by rewrite drop_app_length, firstn_all.
Qed.

Lemma take_len_app {A} (w rest : list A) :
  take (Z.to_nat (len w)) (w ++ rest) = w.
Proof. unfold len. by rewrite Nat2Z.id, take_app_length. Qed.

Section marshal.

Variable ColumnType : Type.
Variable ColumnType_zero : ColumnType.
Variable ColumnType_Size : ColumnType -> Z.
Variable ColumnType_MarshalTo :
  ColumnType -> list byte -> result (list byte * Z).
Variable ColumnType_Unmarshal :
  ColumnType -> list byte -> result ColumnType.

(** What is known of [ColumnType]: its values have an encoding; [Size] is
    the length of the encoding, and [MarshalTo] writes the encoding at the
    head of a slice that has room for it and returns its length. *)
Variable wire : ColumnType -> list byte.
Hypothesis ColumnType_Size_wire :
  forall msg, ColumnType_Size msg = len (wire msg).
Hypothesis ColumnType_MarshalTo_wire :
  forall msg dAtA,
    (length (wire msg) <= length dAtA)%nat ->
    ColumnType_MarshalTo msg dAtA
    = Done ((wire msg ++ drop (length (wire msg)) dAtA)%list, len (wire msg)).

Local Abbreviation InternalColumnType' := (InternalColumnType ColumnType).
Local Abbreviation MarshalTo' :=
  (MarshalTo ColumnType ColumnType_Size ColumnType_MarshalTo).
Local Abbreviation Size' := (Size ColumnType ColumnType_Size).
Local Abbreviation Marshal' :=
  (Marshal ColumnType ColumnType_Size ColumnType_MarshalTo).

Lemma varintField_writes tag v :
  0 <= v ->
  writes (fun dAtA i =>
            dAtA ← store dAtA i tag; encodeVarintTypes dAtA (i + 1) v)
         (varintField tag v).
Proof.
  intros Hv.
  exact (writes_tag (fun dAtA i => encodeVarintTypes dAtA i v) tag _
           (encodeVarintTypes_writes v Hv)).
Qed.

Lemma bytesField_writes tag src :
  writes (fun dAtA i =>
            dAtA ← store dAtA i tag;
            '(dAtA, i) ← encodeVarintTypes dAtA (i + 1) (uint64 (len src));
            '(dAtA, n) ← copy dAtA i src;
            Done (dAtA, i + n))
         (bytesField tag src).
Proof.
  intros w rest i Hi Hb Hr.
  assert (uint64 (len src) = len src) as ->.
  { apply uint64_small. revert Hb Hr. unfold bytesField, len.
    rewrite !length_app. simpl. rewrite length_app. lia. }
  revert w rest i Hi Hb Hr.
  apply (writes_tag
           (fun dAtA i =>
              '(dAtA, i) ← encodeVarintTypes dAtA i (len src);
              '(dAtA, n) ← copy dAtA i src; Done (dAtA, i + n)) tag).
  apply (writes_seq (fun dAtA i => encodeVarintTypes dAtA i (len src))
           (fun dAtA i => '(dAtA, n) ← copy dAtA i src; Done (dAtA, i + n))).
  - apply encodeVarintTypes_writes, len_nonneg.
  - apply copy_writes.
Qed.

Lemma marshalArrayDimensions_writes nums :
  writes (marshalArrayDimensions nums)
         (flat_map (fun num => varintField Byte.x20 (uint64 num)) nums).
Proof.
  induction nums as [|num nums IH]; [apply writes_nil|].
  pose proof (writes_seq _ _ _ _
                (varintField_writes Byte.x20 (uint64 num)
                   (uint64_nonneg num)) IH) as H.
  eapply writes_ext; [|exact H].
  intros dAtA i. simpl. by destruct (store _ _ _).
Qed.

Lemma marshalTupleLabels_writes labels :
  writes (marshalTupleLabels labels)
         (flat_map (fun s => bytesField Byte.x4a (bytes s)) labels).
Proof.
  induction labels as [|s labels IH]; [apply writes_nil|].
  intros w rest i Hi Hb Hr.
  pose proof (writes_seq _ _ _ _ (bytesField_writes Byte.x4a (bytes s)) IH
                w rest i Hi Hb Hr) as H.
  etrans; [|exact H]. clear H.
  assert (uint64 (len (bytes s)) = len (bytes s)) as ->.
  { apply uint64_small. revert Hb Hr. unfold bytesField, len.
    cbn [flat_map]. rewrite !length_app. simpl. rewrite length_app. lia. }
  cbn [marshalTupleLabels]. cbv zeta.
  destruct (store _ _ _) as [d| | |]; try done. rewrite !bind_Done.
  unfold encodeVarintTypes. rewrite marshalLen_loop_encode.
  destruct (encodeVarintTypes_loop _ _ _ _) as [[[d1 i1] l1]| | |];
    try done.
  rewrite !bind_Done. cbv beta iota.
  destruct (store _ _ _) as [d2| | |]; try done. rewrite !bind_Done.
  cbv beta iota.
  destruct (copy _ _ _) as [[d3 n]| | |]; done.
Qed.

Lemma tupleContent_writes msg :
  writes (fun dAtA i =>
            dAtA ← store dAtA i Byte.x42;
            '(dAtA, i) ← encodeVarintTypes dAtA (i + 1)
                           (uint64 (ColumnType_Size msg));
            rest ← slice dAtA i (len dAtA);
            '(rest, n) ← ColumnType_MarshalTo msg rest;
            Done ((take (Z.to_nat i) dAtA ++ rest)%list, int (i + n)))
         (bytesField Byte.x42 (wire msg)).
Proof.
  intros w rest i Hi Hb Hr. rewrite ColumnType_Size_wire.
  rewrite length_bytesField in Hr.
  assert (uint64 (len (wire msg)) = len (wire msg)) as ->.
  { apply uint64_small. revert Hb. unfold len. rewrite !length_app. lia. }
  pose proof (varintField_writes Byte.x42 (len (wire msg))
                (len_nonneg _) w rest i Hi Hb) as Hv.
  rewrite length_varintField in Hv. specialize (Hv ltac:(lia)).
  cbv beta in Hv.
  destruct (store (w ++ rest) i Byte.x42) as [d| | |]; try done.
  rewrite bind_Done in Hv |- *. rewrite Hv, bind_Done. cbv beta iota.
  set (w' := (w ++ varintField Byte.x42 (len (wire msg)))%list).
  set (rest' := drop (S (length (varint (len (wire msg))))) rest).
  assert (length rest' = (length rest - S (length (varint (len (wire msg)))))%nat)
    as Hl by (unfold rest'; by rewrite length_drop).
  rewrite slice_app, bind_Done, take_len_app.
  rewrite ColumnType_MarshalTo_wire by lia. rewrite bind_Done.
  cbv beta iota. f_equal. f_equal.
  - unfold w', rest', bytesField, varintField. rewrite drop_drop.
    cbn [length]. rewrite length_app.
    rewrite <- !app_assoc. cbn [app]. by rewrite <- app_assoc.
  - clear Hv. unfold w', bytesField, varintField, len in *.
    revert Hb. rewrite !length_app. cbn [length]. rewrite length_app.
    intros Hb. rewrite int_small; lia.
Qed.

Lemma marshalTupleContents_writes msgs :
  writes (marshalTupleContents ColumnType ColumnType_Size
            ColumnType_MarshalTo msgs)
         (flat_map (fun msg => bytesField Byte.x42 (wire msg)) msgs).
Proof.
  induction msgs as [|msg msgs IH]; [apply writes_nil|].
  intros w rest i Hi Hb Hr.
  pose proof (writes_seq _ _ _ _ (tupleContent_writes msg) IH
                w rest i Hi Hb Hr) as H.
  etrans; [|exact H]. clear H. cbn [marshalTupleContents]. cbv zeta.
  destruct (store _ _ _) as [d| | |]; try done. rewrite !bind_Done.
  destruct (encodeVarintTypes _ _ _) as [[d1 i1]| | |]; try done.
  rewrite !bind_Done. cbv beta iota.
  destruct (slice _ _ _) as [r| | |]; try done. rewrite !bind_Done.
  destruct (ColumnType_MarshalTo _ _) as [[r1 n]| | |]; done.
Qed.

Lemma step_field {B} (K : list byte * Z -> result B) w rest i tag v :
  i = len w -> len (w ++ rest) < 2 ^ 63 -> 0 <= v ->
  (length (varintField tag v) <= length rest)%nat ->
  (store (w ++ rest) i tag
   ≫= (fun dAtA => encodeVarintTypes dAtA (i + 1) v ≫= K))
  = K ((w ++ varintField tag v) ++ drop (length (varintField tag v)) rest,
       len (w ++ varintField tag v))%list.
Proof.
  intros Hi Hb Hv Hr.
  pose proof (varintField_writes tag v Hv w rest i Hi Hb Hr) as H.
  cbv beta in H.
  destruct (store (w ++ rest) i tag) as [d| | |]; try done.
  rewrite bind_Done in H. rewrite bind_Done. by rewrite H.
Qed.

Lemma step_writes {B} (K : list byte * Z -> result B) op bs w rest i :
  writes op bs ->
  i = len w -> len (w ++ rest) < 2 ^ 63 -> (length bs <= length rest)%nat ->
  (op (w ++ rest)%list i ≫= K)
  = K ((w ++ bs) ++ drop (length bs) rest, len (w ++ bs))%list.
Proof. intros H Hi Hb Hr. by rewrite (H w rest i Hi Hb Hr). Qed.

Lemma marshal_if {A}
    (f : list A -> list byte -> Z -> result (list byte * Z)) l dAtA i :
  f [] dAtA i = Done (dAtA, i) ->
  (if 0 <? len l then f l dAtA i else Done (dAtA, i)) = f l dAtA i.
Proof. intros H. by destruct l. Qed.

(** The side conditions of a step: the offset, the sign of the value, the
    room that is left. *)
Ltac side :=
  first [ reflexivity
        | apply uint64_nonneg
        | unfold len; rewrite ?length_app, ?length_drop; cbn [length app];
          rewrite ?length_app, ?length_drop; lia ].

(** [MarshalTo] writes the encoding of the message at the head of the
    slice it is given, leaves the rest of the slice as it is and returns
    the length of the encoding, when the slice has room for it. *)
Lemma MarshalTo_room (m : InternalColumnType') (dAtA : list byte) :
  len dAtA < 2 ^ 63 ->
  (length (encoding wire m) <= length dAtA)%nat ->
  MarshalTo' m dAtA
  = Done ((encoding wire m ++ drop (length (encoding wire m)) dAtA)%list,
          len (encoding wire m)).
Proof.
  intros Hb Hroom. unfold MarshalTo, encoding in *. cbv zeta.
  change dAtA with ([] ++ dAtA)%list at 1.
  unfold len in Hb. rewrite !length_app in Hroom.
  rewrite step_field by side. cbv beta iota.
  rewrite step_field by side. cbv beta iota.
  rewrite step_field by side. cbv beta iota.
  rewrite (marshal_if marshalArrayDimensions) by done.
  rewrite (step_writes _ _ _ _ _ _ (marshalArrayDimensions_writes _))
    by side.
  cbv beta iota.
  assert (forall {B} (K : list byte * Z -> result B) w rest i,
            i = len w -> len (w ++ rest) < 2 ^ 63 ->
            let bs := match Locale m with
                      | Some s => bytesField Byte.x2a (bytes s)
                      | None => []
                      end in
            (length bs <= length rest)%nat ->
            (match Locale m with
             | Some s =>
                 store (w ++ rest) i Byte.x2a
                 ≫= (fun dAtA =>
                       encodeVarintTypes dAtA (i + 1) (uint64 (len (bytes s)))
                       ≫= (fun '(dAtA, i) =>
                             copy dAtA i (bytes s)
                             ≫= (fun '(dAtA, n) => Done (dAtA, i + n))))
             | None => Done ((w ++ rest)%list, i)
             end ≫= K)
            = K ((w ++ bs) ++ drop (length bs) rest, len (w ++ bs))%list)
    as Hlocale.
  { intros B K w rest i Hi Hb' bs Hr. subst bs.
    destruct (Locale m) as [s|].
    - by rewrite (bytesField_writes Byte.x2a (bytes s) w rest i Hi Hb' Hr).
    - by rewrite (writes_nil w rest i Hi Hb' Hr). }
  rewrite Hlocale by side. clear Hlocale. cbv beta iota.
  rewrite step_field by side. cbv beta iota.
  assert (forall {B} (K : list byte * Z -> result B) w rest i,
            i = len w -> len (w ++ rest) < 2 ^ 63 ->
            let bs := match ArrayContents m with
                      | Some c => varintField Byte.x38 (uint64 c)
                      | None => []
                      end in
            (length bs <= length rest)%nat ->
            (match ArrayContents m with
             | Some c =>
                 store (w ++ rest) i Byte.x38
                 ≫= (fun dAtA => encodeVarintTypes dAtA (i + 1) (uint64 c))
             | None => Done ((w ++ rest)%list, i)
             end ≫= K)
            = K ((w ++ bs) ++ drop (length bs) rest, len (w ++ bs))%list)
    as Hcontents.
  { intros B K w rest i Hi Hb' bs Hr. subst bs.
    destruct (ArrayContents m) as [c|].
    - by rewrite (varintField_writes Byte.x38 (uint64 c) (uint64_nonneg c)
                    w rest i Hi Hb' Hr).
    - by rewrite (writes_nil w rest i Hi Hb' Hr). }
  rewrite Hcontents by side. clear Hcontents. cbv beta iota.
  rewrite (marshal_if (marshalTupleContents ColumnType ColumnType_Size
                         ColumnType_MarshalTo)) by done.
  rewrite (step_writes _ _ _ _ _ _ (marshalTupleContents_writes _))
    by side.
  cbv beta iota.
  rewrite (marshal_if marshalTupleLabels) by done.
  rewrite (step_writes _ _ _ _ _ _ (marshalTupleLabels_writes _)) by side.
  cbv beta iota.
  rewrite step_field by side. cbv beta iota.
  rewrite !drop_drop, <- !app_assoc. cbn [app].
  by rewrite !length_app.
Qed.

Lemma sovTypes_len v : 0 <= v -> sovTypes v = len (varint v).
Proof.
  intros Hv. rewrite sovTypes_groups by done. unfold len.
  by rewrite length_varint.
Qed.

Lemma len_varintField tag v : len (varintField tag v) = 1 + len (varint v).
Proof. unfold len. rewrite length_varintField. lia. Qed.

Lemma len_bytesField tag b :
  len (bytesField tag b) = 1 + len b + len (varint (len b)).
Proof.
  change (len (bytesField tag b))
    with (Z.of_nat (length (bytesField tag b))).
  rewrite length_bytesField. unfold len. lia.
Qed.

Lemma fold_int {A} (g : A -> Z) (F : A -> list byte) l : forall n,
  (forall e, len (F e) < 2 ^ 63 -> g e = len (F e)) ->
  0 <= n -> n + len (flat_map F l) < 2 ^ 63 ->
  fold_left (fun n e => int (n + g e)) l n = n + len (flat_map F l).
Proof.
  induction l as [|e l IH]; intros n Hg Hn Hb; simpl.
  - unfold len. simpl. lia.
  - simpl in Hb. rewrite len_app in Hb.
    pose proof (len_nonneg (F e)). pose proof (len_nonneg (flat_map F l)).
    rewrite Hg by lia. rewrite int_small by lia.
    rewrite IH by (done || lia). rewrite len_app. lia.
Qed.

Lemma if_fold {A} (f : Z -> A -> Z) l n :
  (if 0 <? len l then fold_left f l n else n) = fold_left f l n.
Proof. by destruct l. Qed.

(** [Size] is the length of the encoding. *)
Lemma Size_len (m : InternalColumnType') :
  len (encoding wire m) < 2 ^ 63 ->
  Size' m = len (encoding wire m).
Proof.
  intros Hb. unfold Size, encoding in *. cbv zeta.
  rewrite !if_fold.
  rewrite !len_app in Hb |- *.
  rewrite !sovTypes_len by apply uint64_nonneg.
  pose proof (len_nonneg (varint (uint64 (SemanticType m)))).
  pose proof (len_nonneg (varint (uint64 (Width m)))).
  pose proof (len_nonneg (varint (uint64 (Precision m)))).
  pose proof (len_nonneg (varint (uint64 (ZZZ_VisibleType m)))).
  pose proof (len_nonneg (varint (uint64 (ZZZ_Oid m)))).
  pose proof (len_nonneg
                (flat_map (fun num => varintField Byte.x20 (uint64 num))
                   (ArrayDimensions m))).
  pose proof (len_nonneg
                (flat_map (fun msg => bytesField Byte.x42 (wire msg))
                   (TupleContents m))).
  pose proof (len_nonneg
                (flat_map (fun s => bytesField Byte.x4a (bytes s))
                   (TupleLabels m))).
  pose proof (len_nonneg match Locale m with
                         | Some s => bytesField Byte.x2a (bytes s)
                         | None => []
                         end).
  pose proof (len_nonneg match ArrayContents m with
                         | Some c => varintField Byte.x38 (uint64 c)
                         | None => []
                         end).
  rewrite !len_varintField in Hb |- *.
  rewrite (int_small (0 + _)) by lia.
  rewrite (int_small (0 + _ + _)) by lia.
  rewrite (int_small (0 + _ + _ + _)) by lia.
  rewrite (fold_int (fun e => 1 + sovTypes (uint64 e))
             (fun num => varintField Byte.x20 (uint64 num)));
    [|intros e _; rewrite len_varintField, sovTypes_len;
      [done|apply uint64_nonneg]
     |lia|lia].
  assert (forall n, 0 <= n ->
            n + len match Locale m with
                    | Some s => bytesField Byte.x2a (bytes s)
                    | None => []
                    end < 2 ^ 63 ->
            match Locale m with
            | Some s =>
                int (n + (1 + len (bytes s)
                          + sovTypes (uint64 (len (bytes s)))))
            | None => n
            end
            = n + len match Locale m with
                      | Some s => bytesField Byte.x2a (bytes s)
                      | None => []
                      end) as Hlocale.
  { intros n Hn Hl. destruct (Locale m) as [s|].
    - rewrite len_bytesField in *.
      pose proof (len_nonneg (bytes s)).
      pose proof (len_nonneg (varint (len (bytes s)))).
      rewrite uint64_small by lia.
      rewrite sovTypes_len by done. apply int_small. lia.
    - unfold len. simpl. lia. }
  rewrite Hlocale by lia. clear Hlocale.
  rewrite (int_small (_ + (1 + len (varint (uint64 (ZZZ_VisibleType m))))))
    by lia.
  assert (forall n, 0 <= n ->
            n + len match ArrayContents m with
                    | Some c => varintField Byte.x38 (uint64 c)
                    | None => []
                    end < 2 ^ 63 ->
            match ArrayContents m with
            | Some c => int (n + (1 + sovTypes (uint64 c)))
            | None => n
            end
            = n + len match ArrayContents m with
                      | Some c => varintField Byte.x38 (uint64 c)
                      | None => []
                      end) as Hcontents.
  { intros n Hn Hl. destruct (ArrayContents m) as [c|].
    - rewrite len_varintField in *.
      pose proof (len_nonneg (varint (uint64 c))).
      rewrite sovTypes_len by apply uint64_nonneg. apply int_small. lia.
    - unfold len. simpl. lia. }
  rewrite Hcontents by lia. clear Hcontents.
  rewrite (fold_int (fun e => 1 + ColumnType_Size e
                              + sovTypes (uint64 (ColumnType_Size e)))
             (fun msg => bytesField Byte.x42 (wire msg)));
    [|intros e He; rewrite len_bytesField in *;
      rewrite ColumnType_Size_wire;
      pose proof (len_nonneg (wire e));
      pose proof (len_nonneg (varint (len (wire e))));
      rewrite uint64_small by lia; by rewrite sovTypes_len
     |lia|lia].
  rewrite (fold_int (fun s => 1 + len (bytes s)
                              + sovTypes (uint64 (len (bytes s))))
             (fun s => bytesField Byte.x4a (bytes s)));
    [|intros e He; rewrite len_bytesField in *;
      pose proof (len_nonneg (bytes e));
      pose proof (len_nonneg (varint (len (bytes e))));
      rewrite uint64_small by lia; by rewrite sovTypes_len
     |lia|lia].
  rewrite int_small by lia. lia.
Qed.

Lemma length_encoding_pos (m : InternalColumnType') :
  (0 < length (encoding wire m))%nat.
Proof. unfold encoding. simpl. lia. Qed.

Lemma Marshal_Done (m : InternalColumnType') :
  len (encoding wire m) < 2 ^ 63 ->
  Marshal' m = Done (encoding wire m).
Proof.
  intros Hb.
  unfold Marshal. rewrite Size_len by done. unfold make.
  pose proof (len_nonneg (encoding wire m)).
  destruct (Z.ltb_spec (len (encoding wire m)) 0); [lia|].
  rewrite bind_Done. unfold len at 1. rewrite Nat2Z.id.
  rewrite MarshalTo_room.
  - rewrite bind_Done. cbv beta iota. unfold slice.
    rewrite len_app.
    pose proof (len_nonneg
                  (drop (length (encoding wire m))
                     (replicate (length (encoding wire m)) Byte.x00))).
    destruct (Z.leb_spec 0 (len (encoding wire m))); [|lia].
    destruct (Z.leb_spec (len (encoding wire m))
                (len (encoding wire m)
                 + len (drop (length (encoding wire m))
                          (replicate (length (encoding wire m)) Byte.x00))));
      [|lia].
    cbn [andb]. f_equal. rewrite Z.sub_0_r. unfold len at 1.
    rewrite Nat2Z.id. change (Z.to_nat 0) with 0%nat. rewrite drop_0.
    by rewrite take_app_length.
  - unfold len. by rewrite length_replicate.
  - by rewrite length_replicate.
Qed.

(** [Marshal] returns the encoding of the message: it neither panics nor
    fails, and what it returns has the length [Size] gives. *)
Theorem Marshal_encoding (m : InternalColumnType') :
  len (encoding wire m) < 2 ^ 63 ->
  Marshal' m = Done (encoding wire m)
  /\ Size' m = len (encoding wire m).
Proof.
  intros Hb. split.
  - by apply Marshal_Done.
  - by apply Size_len.
Qed.

(** [MarshalTo], given a slice of [Size] bytes at least, writes the
    encoding of the message at the head of the slice, leaves what follows
    these [Size] bytes as it is and returns [Size]. *)
Theorem MarshalTo_Size (m : InternalColumnType') (dAtA : list byte) :
  len (encoding wire m) < 2 ^ 63 -> len dAtA < 2 ^ 63 ->
  Size' m <= len dAtA ->
  MarshalTo' m dAtA
  = Done ((encoding wire m ++ drop (Z.to_nat (Size' m)) dAtA)%list, Size' m).
Proof.
  intros Hb Hd Hroom. rewrite Size_len in * by done.
  rewrite MarshalTo_room; [|done|unfold len in Hroom; lia].
  unfold len at 2. by rewrite Nat2Z.id.
Qed.

End marshal.

(** ** The conversions and the bits *)

(** The bits of a number converted to a signed type of [w] bits: the low
    [w - 1] bits are kept and the bit [w - 1] is the sign. *)
Lemma signed_testbit w x n :
  0 < w -> 0 <= n ->
  Z.testbit ((x + 2 ^ (w - 1)) mod 2 ^ w - 2 ^ (w - 1)) n
  = Z.testbit x (Z.min n (w - 1)).
Proof.
  intros Hw Hn.
  assert (2 ^ w = 2 * 2 ^ (w - 1)) as Hpow.
  { rewrite <- Z.pow_succ_r by lia. f_equal. lia. }
  assert (0 < 2 ^ (w - 1)) as Hpos by (apply Z.pow_pos_nonneg; lia).
  set (y := x mod 2 ^ w).
  assert (0 <= y < 2 ^ w) as Hy by (apply Z.mod_pos_bound; lia).
  assert (forall k, 0 <= k < w -> Z.testbit x k = Z.testbit y k) as Hlow.
  { intros k Hk. unfold y. by rewrite Z.mod_pow2_bits_low by lia. }
  rewrite <- Z.add_mod_idemp_l by lia. fold y.
  destruct (decide (y < 2 ^ (w - 1))) as [Hs|Hb].
  - rewrite Z.mod_small by lia.
    replace (y + 2 ^ (w - 1) - 2 ^ (w - 1)) with y by lia.
    assert (forall k, w - 1 <= k -> Z.testbit y k = false) as Hhigh.
    { intros k Hk. destruct (decide (y = 0)) as [->|Hne].
      - apply Z.testbit_0_l.
      - apply Z.bits_above_log2; [lia|].
        assert (Z.log2 y < w - 1); [|lia].
        apply Z.log2_lt_pow2; lia. }
    destruct (Z.min_spec n (w - 1)) as [[Hlt ->]|[Hge ->]].
    + symmetry. apply Hlow. lia.
    + rewrite Hlow by lia. by rewrite !Hhigh by lia.
  - replace ((y + 2 ^ (w - 1)) mod 2 ^ w) with (y - 2 ^ (w - 1)).
    2:{ apply Z.mod_unique with 1; lia. }
    replace (y - 2 ^ (w - 1) - 2 ^ (w - 1)) with (y - 2 ^ w) by lia.
    assert (forall k, 0 <= k < w ->
              Z.testbit (y - 2 ^ w) k = Z.testbit y k) as Hsame.
    { intros k Hk. rewrite <- (Z.mod_pow2_bits_low (y - 2 ^ w) w k) by lia.
      f_equal. symmetry. apply Z.mod_unique with (-1); lia. }
    assert (Z.testbit y (w - 1) = true) as Htop.
    { assert (Z.log2 y = w - 1) as <-; [|apply Z.bit_log2; lia].
      apply Z.log2_unique; [lia|]. replace (Z.succ (w - 1)) with w by lia.
      lia. }
    destruct (decide (n < w)) as [Hlt|Hge].
    + rewrite Hsame by lia.
      destruct (Z.min_spec n (w - 1)) as [[_ ->]|[Hge ->]].
      * symmetry. apply Hlow. lia.
      * replace n with (w - 1) by lia. symmetry. apply Hlow. lia.
    + rewrite Z.min_r by lia. rewrite Hlow, Htop by lia.
      apply Z.bits_above_log2_neg; [lia|].
      destruct (decide (Z.pred (- (y - 2 ^ w)) = 0)) as [->|Hne];
        [simpl; lia|].
      assert (Z.log2 (Z.pred (- (y - 2 ^ w))) < w - 1); [|lia].
      apply Z.log2_lt_pow2; lia.
Qed.

Lemma int32_testbit x n :
  0 <= n -> Z.testbit (int32 x) n = Z.testbit x (Z.min n 31).
Proof. intros Hn. by apply (signed_testbit 32 x n). Qed.

Lemma int_testbit x n :
  0 <= n -> Z.testbit (int x) n = Z.testbit x (Z.min n 63).
Proof. intros Hn. by apply (signed_testbit 64 x n). Qed.

Lemma mod_pow2_lor a b n :
  0 <= n -> Z.lor a b mod 2 ^ n = Z.lor (a mod 2 ^ n) (b mod 2 ^ n).
Proof.
  intros Hn. rewrite <- !Z.land_ones by done. apply Z.land_lor_distr_l.
Qed.

Lemma uint64_bitwise : bitwise uint64.
Proof.
  split.
  - intros a b. by apply (mod_pow2_lor a b 64).
  - intros x Hx. apply Z.mod_small. lia.
Qed.

Lemma uint32_bitwise : bitwise uint32.
Proof.
  split.
  - intros a b. by apply (mod_pow2_lor a b 32).
  - intros x Hx. apply Z.mod_small. lia.
Qed.

Lemma int32_bitwise : bitwise int32.
Proof.
  split.
  - intros a b. apply Z.bits_inj'. intros n Hn.
    by rewrite Z.lor_spec, !int32_testbit, Z.lor_spec.
  - intros x Hx. unfold int32. rewrite Z.mod_small; lia.
Qed.

Lemma int_bitwise : bitwise int.
Proof.
  split.
  - intros a b. apply Z.bits_inj'. intros n Hn.
    by rewrite Z.lor_spec, !int_testbit, Z.lor_spec.
  - intros x Hx. unfold int. rewrite Z.mod_small; lia.
Qed.

Lemma int32_uint64 x : in_int32 x -> int32 (uint64 x) = x.
Proof.
  unfold in_int32, int32, uint64. intros Hx.
  change (2 ^ 64) with (2 ^ 32 * 2 ^ 32).
  rewrite Z.rem_mul_r by lia.
  rewrite <- Z.add_assoc, (Z.add_comm (2 ^ 32 * _)), Z.add_assoc.
  rewrite (Z.mul_comm (2 ^ 32)), Z.mod_add by lia.
  rewrite Z.add_mod_idemp_l by lia. rewrite Z.mod_small; lia.
Qed.

Lemma uint32_uint64 x : 0 <= x < 2 ^ 32 -> uint32 (uint64 x) = x.
Proof.
  unfold uint32, uint64. intros Hx.
  rewrite (Z.mod_small x (2 ^ 64)) by lia. apply Z.mod_small. lia.
Qed.

Lemma split_low_high v :
  Z.lor (Z.land v 127) (Z.shiftl (Z.shiftr v 7) 7) = v.
Proof.
  rewrite <- (Z.ldiff_ones_r v 7) by lia. rewrite Z.lor_comm.
  apply Z.lor_ldiff_and.
Qed.

(** ** Reading a varint *)

Lemma index_app w b rest i :
  i = len w -> index (w ++ b :: rest) i = Done b.
Proof.
  intros ->. unfold index. rewrite len_app.
  pose proof (len_nonneg w). pose proof (len_nonneg (b :: rest)).
  assert (0 < len (b :: rest)) by (unfold len; simpl; lia).
  destruct (Z.leb_spec 0 (len w)); [|lia].
  destruct (Z.ltb_spec (len w) (len w + len (b :: rest))); [|lia].
  cbn [andb]. unfold len. rewrite Nat2Z.id.
  by rewrite list_lookup_middle.
Qed.

Lemma shifts_drop k :
  (k < 10)%nat -> drop k shifts = 7 * Z.of_nat k :: drop (S k) shifts.
Proof.
  intros Hk. do 10 (destruct k as [|k]; [reflexivity|]). lia.
Qed.

Lemma groups_uint64 v : 0 <= v < 2 ^ 64 -> (groups v <= 10)%nat.
Proof.
  intros Hv. unfold groups.
  assert (Z.log2 v / 7 <= 9); [|lia].
  destruct (decide (v = 0)) as [->|Hne]; [done|].
  assert (Z.log2 v < 64) by (apply Z.log2_lt_pow2; lia).
  apply Z.div_le_upper_bound; lia.
Qed.

Lemma readVarint_varint_from conv (Hconv : bitwise conv) g :
  forall v k w rest l acc,
    groups v = g -> 0 <= v -> (k + g <= 10)%nat ->
    l = len (w ++ varint v ++ rest) ->
    readVarint conv (drop k shifts) (w ++ varint v ++ rest) l (len w) acc
    = Done (Z.lor acc (conv (Z.shiftl v (7 * Z.of_nat k))),
            len (w ++ varint v)).
Proof.
  destruct Hconv as [Hlor Hsmall].
  induction g as [|g IH]; intros v k w rest l acc Hg Hv Hk Hl.
  { unfold groups in Hg. lia. }
  rewrite shifts_drop by lia. cbn [readVarint].
  assert ((l <=? len w) = false) as ->.
  { apply Z.leb_gt. rewrite Hl, !len_app. unfold len.
    rewrite length_varint. lia. }
  destruct (decide (v < 128)) as [Hs|Hb].
  - rewrite varint_small by lia. cbn [app].
    rewrite index_app by done. rewrite bind_Done.
    rewrite val_uint8, Z.mod_small by lia.
    rewrite (Hsmall v) by lia. rewrite land_127, Z.mod_small by lia.
    destruct (Z.ltb_spec v 128); [|lia].
    rewrite len_app. done.
  - rewrite (groups_big v) in Hg by lia.
    rewrite (varint_big v) by lia. cbn [app].
    rewrite index_app by done. rewrite bind_Done.
    pose proof (Z.mod_pos_bound v 128 ltac:(lia)) as Hm.
    rewrite val_uint8, lor_128, (Z.mod_small (_ + 128)) by lia.
    rewrite (Hsmall (v mod 128 + 128)) by lia.
    destruct (Z.ltb_spec (v mod 128 + 128) 128); [lia|].
    replace (Z.land (v mod 128 + 128) 127) with (Z.land v 127).
    2:{ rewrite !land_127.
        rewrite <- (Z.mul_1_l 128) at 3. rewrite Z.mod_add by lia.
        by rewrite Z.mod_mod by lia. }
    rewrite (cons_middle _ w), app_assoc.
    replace (len w + 1) with (len (w ++ [uint8 (v mod 128 + 128)]))
      by (rewrite len_app; unfold len; simpl; lia).
    rewrite (IH (Z.shiftr v 7) (S k)).
    + f_equal. f_equal.
      * rewrite <- Z.lor_assoc, <- Hlor. do 2 f_equal.
        replace (7 * Z.of_nat (S k)) with (7 + 7 * Z.of_nat k) by lia.
        rewrite <- Z.shiftl_shiftl by lia. rewrite <- Z.shiftl_lor.
        by rewrite split_low_high.
      * rewrite <- !app_assoc. done.
    + lia.
    + apply Z.shiftr_nonneg. lia.
    + lia.
    + rewrite Hl, (varint_big v) by lia. rewrite lor_128.
      by rewrite <- !app_assoc.
Qed.

(** The loop that reads a varint gives back, converted to the type of the
    variable, the number whose varint is at [iNdEx], and leaves [iNdEx]
    behind it. *)
Lemma readVarint_varint conv v w rest l :
  bitwise conv -> 0 <= v < 2 ^ 64 ->
  l = len (w ++ varint v ++ rest) ->
  readVarint conv shifts (w ++ varint v ++ rest) l (len w) 0
  = Done (conv v, len (w ++ varint v)).
Proof.
  intros Hconv Hv Hl.
  pose proof (groups_uint64 v Hv).
  change shifts with (drop 0 shifts).
  rewrite (readVarint_varint_from conv Hconv (groups v) v 0 w rest l 0)
    by (done || lia).
  by rewrite Z.shiftl_0_r, Z.lor_0_l.
Qed.

(** ** [encodeVarintTypes] *)

Lemma encodeVarintTypes_loop_short fuel : forall v dAtA i,
  0 <= v -> (digits v <= fuel)%nat ->
  len dAtA < i + Z.of_nat (groups v) ->
  (r ← encodeVarintTypes_loop fuel dAtA i v;
   dAtA ← store r.1.1 r.1.2 (uint8 r.2);
   Done (dAtA, r.1.2 + 1))
  = Panic IndexOutOfRange.
Proof.
  induction fuel as [|fuel IH]; intros v dAtA i Hv Hf Hr;
    cbn [encodeVarintTypes_loop];
    destruct (Z.leb_spec 128 v) as [Hb|Hs].
  - unfold digits in Hf. pose proof (log2_big v Hb). lia.
  - rewrite bind_Done. cbn [fst snd].
    rewrite groups_small in Hr by lia. by rewrite store_full by lia.
  - rewrite (groups_big v Hb) in Hr.
    destruct (store dAtA i _) as [d| | |] eqn:Hst.
    + rewrite bind_Done. apply (IH (Z.shiftr v 7)).
      * apply Z.shiftr_nonneg. lia.
      * unfold digits in *. rewrite log2_shiftr_7 by done.
        pose proof (log2_big v Hb). lia.
      * apply store_length in Hst. unfold len in *. lia.
    + unfold store in Hst. by case_match.
    + unfold store in Hst. case_match; [done|]. by injection Hst as <-.
    + unfold store in Hst. by case_match.
  - rewrite bind_Done. cbn [fst snd].
    rewrite groups_small in Hr by lia. by rewrite store_full by lia.
Qed.

Lemma encodeVarintTypes_room dAtA offset v :
  0 <= v -> 0 <= offset -> offset + sovTypes v <= len dAtA ->
  encodeVarintTypes dAtA offset v
  = Done ((take (Z.to_nat offset) dAtA ++ varint v
           ++ drop (Z.to_nat (offset + sovTypes v)) dAtA)%list,
          offset + sovTypes v).
Proof.
  intros Hv Ho Hr. rewrite sovTypes_groups in * by done.
  unfold encodeVarintTypes, len in *.
  rewrite <- (take_drop (Z.to_nat offset) dAtA) at 1.
  pose proof (encodeVarintTypes_loop_app (digits v) v
                (take (Z.to_nat offset) dAtA)
                (drop (Z.to_nat offset) dAtA) offset Hv (le_n _)) as H.
  unfold len in H. rewrite length_take, length_drop in H.
  specialize (H ltac:(lia) ltac:(lia)).
  destruct (encodeVarintTypes_loop _ _ _ _) as [[[d o] v']| | |];
    try done.
  rewrite bind_Done in H |- *. cbv beta iota. cbn [fst snd] in H.
  rewrite H. f_equal. f_equal.
  - rewrite <- app_assoc. do 2 f_equal. rewrite drop_drop. f_equal. lia.
  - rewrite length_app, length_take, length_varint. lia.
Qed.

Lemma encodeVarintTypes_short dAtA offset v :
  0 <= v -> len dAtA < offset + sovTypes v ->
  encodeVarintTypes dAtA offset v = Panic IndexOutOfRange.
Proof.
  intros Hv Hr. rewrite sovTypes_groups in Hr by done.
  unfold encodeVarintTypes.
  pose proof (encodeVarintTypes_loop_short (digits v) v dAtA offset Hv
                (le_n _) Hr) as H.
  destruct (encodeVarintTypes_loop _ _ _ _) as [[[d o] v']| | |]; done.
Qed.

(** [encodeVarintTypes] writes the varint of [v] at [offset], over
    [sovTypes v] bytes, leaves the other bytes as they are and returns the
    offset behind the varint; when [dAtA] has fewer bytes from [offset] on,
    it panics. *)
Theorem encodeVarintTypes_varint (dAtA : list byte) (offset v : Z) :
  0 <= v -> 0 <= offset ->
  encodeVarintTypes dAtA offset v
  = if offset + sovTypes v <=? len dAtA
    then Done ((take (Z.to_nat offset) dAtA ++ varint v
                ++ drop (Z.to_nat (offset + sovTypes v)) dAtA)%list,
               offset + sovTypes v)
    else Panic IndexOutOfRange.
Proof.
  intros Hv Ho. destruct (Z.leb_spec (offset + sovTypes v) (len dAtA)).
  - by apply encodeVarintTypes_room.
  - by apply encodeVarintTypes_short.
Qed.

(** What [encodeVarintTypes] has written, the loops that read a varint read
    back: into a [uint64] the value itself and the offset that
    [encodeVarintTypes] returned, into a variable of another type the value
    converted to it. *)
Theorem readVarint_encodeVarintTypes (dAtA dAtA' : list byte)
    (offset offset' v : Z) :
  0 <= v < 2 ^ 64 -> 0 <= offset ->
  encodeVarintTypes dAtA offset v = Done (dAtA', offset') ->
  readVarint uint64 shifts dAtA' (len dAtA') offset 0 = Done (v, offset')
  /\ readVarint int32 shifts dAtA' (len dAtA') offset 0
     = Done (int32 v, offset')
  /\ readVarint uint32 shifts dAtA' (len dAtA') offset 0
     = Done (uint32 v, offset')
  /\ readVarint int shifts dAtA' (len dAtA') offset 0 = Done (int v, offset').
Proof.
  intros Hv Ho Henc.
  destruct (Z.leb_spec (offset + sovTypes v) (len dAtA)) as [Hr|Hr].
  2:{ rewrite encodeVarintTypes_short in Henc by (done || lia). done. }
  rewrite encodeVarintTypes_room in Henc by (done || lia).
  set (w := take (Z.to_nat offset) dAtA) in *.
  set (rest := drop (Z.to_nat (offset + sovTypes v)) dAtA) in *.
  assert (dAtA' = (w ++ varint v ++ rest)%list
          /\ offset' = offset + sovTypes v) as [-> ->]
    by (split; congruence).
  pose proof (sovTypes_groups v ltac:(lia)) as Hs.
  assert (offset = len w) as Hw.
  { unfold w, len in *. rewrite length_take. lia. }
  assert (offset + sovTypes v = len (w ++ varint v)) as Hw'.
  { rewrite len_app, <- Hw, sovTypes_groups by lia.
    unfold len. by rewrite length_varint. }
  assert (forall conv, bitwise conv ->
            readVarint conv shifts (w ++ varint v ++ rest)
              (len (w ++ varint v ++ rest)) offset 0
            = Done (conv v, offset + sovTypes v)) as H.
  { intros conv Hc.
    pose proof (readVarint_varint conv v w rest _ Hc Hv eq_refl) as H.
    by rewrite <- Hw, <- Hw' in H. }
  rewrite <- (uint64_small v) at 3 by done.
  repeat split; apply H;
    apply uint64_bitwise || apply int32_bitwise
    || apply uint32_bitwise || apply int_bitwise.
Qed.

(** ** [Unmarshal] on the encoding of a message *)

Lemma slice_middle w b rest i j :
  i = len w -> j = len w + len b ->
  slice (w ++ b ++ rest) i j = Done b.
Proof.
  intros -> ->. unfold slice. rewrite !len_app.
  pose proof (len_nonneg w). pose proof (len_nonneg b).
  pose proof (len_nonneg rest).
  destruct (Z.leb_spec 0 (len w)); [|lia].
  destruct (Z.leb_spec (len w) (len w + len b)); [|lia].
  destruct (Z.leb_spec (len w + len b) (len w + (len b + len rest)));
    [|lia].
  cbn [andb]. f_equal.
  replace (len w + len b - len w) with (len b) by lia.
  unfold len. rewrite !Nat2Z.id.
  by rewrite drop_app_length, take_app_length.
Qed.

Section unmarshal.

Variable ColumnType : Type.
Variable ColumnType_zero : ColumnType.
Variable ColumnType_Unmarshal :
  ColumnType -> list byte -> result ColumnType.

(** What is known of [ColumnType]: [Unmarshal], called on the zero value
    with the encoding of a value, fills in that value. *)
Variable wire : ColumnType -> list byte.
Hypothesis ColumnType_Unmarshal_wire :
  forall msg, ColumnType_Unmarshal ColumnType_zero (wire msg) = Done msg.

Local Abbreviation InternalColumnType' := (InternalColumnType ColumnType).
Local Abbreviation unmarshalFields' :=
  (unmarshalFields ColumnType ColumnType_zero ColumnType_Unmarshal).
Local Abbreviation unmarshalField' :=
  (unmarshalField ColumnType ColumnType_zero ColumnType_Unmarshal).
Local Abbreviation Unmarshal' :=
  (Unmarshal ColumnType ColumnType_zero ColumnType_Unmarshal).
Local Abbreviation parses' :=
  (parses ColumnType ColumnType_zero ColumnType_Unmarshal).

Lemma parses_nil : parses' [] (fun m => m).
Proof.
  intros fuel m w rest Hf Hb. exists fuel. split; [done|].
  by rewrite app_nil_r.
Qed.

Lemma parses_app bs1 bs2 f1 f2 :
  parses' bs1 f1 -> parses' bs2 f2 ->
  parses' (bs1 ++ bs2) (fun m => f2 (f1 m)).
Proof.
  intros H1 H2 fuel m w rest Hf Hb.
  rewrite <- (app_assoc bs1) in Hf, Hb |- *.
  destruct (H1 fuel m w (bs2 ++ rest)%list Hf Hb) as (fuel1 & Hf1 & ->).
  rewrite (app_assoc w bs1) in Hb |- *.
  destruct (H2 fuel1 (f1 m) (w ++ bs1)%list rest Hf1 Hb)
    as (fuel2 & Hf2 & ->).
  exists fuel2. split; [done|]. by rewrite <- !app_assoc.
Qed.

Lemma parses_flat_map {A} (F : A -> list byte)
    (g : A -> InternalColumnType' -> InternalColumnType') l :
  (forall e, In e l -> parses' (F e) (g e)) ->
  parses' (flat_map F l) (fun m => fold_left (fun m e => g e m) l m).
Proof.
  induction l as [|e l IH]; intros Hp; [apply parses_nil|].
  cbn [flat_map fold_left].
  apply (parses_app (F e) (flat_map F l) (g e)
           (fun m => fold_left (fun m e => g e m) l m)).
  - apply Hp. by left.
  - apply IH. intros e' He'. apply Hp. by right.
Qed.

(** A round of the loop at a tag of one byte. *)
Lemma unmarshalFields_tag fuel m w tag rest l :
  val tag < 128 -> l = len (w ++ tag :: rest) ->
  unmarshalFields' (S fuel) m (w ++ tag :: rest) l (len w)
  = (let fieldNum := int32 (Z.shiftr (val tag) 3) in
     let wireType := int (Z.land (val tag) 7) in
     if wireType =? 4 then Error ErrEndGroup
     else if fieldNum <=? 0 then Error (ErrIllegalTag fieldNum (val tag))
     else
       '(m, i) ← unmarshalField' m fieldNum wireType (w ++ tag :: rest) l
                   (len w) (len w + 1);
       unmarshalFields' fuel m (w ++ tag :: rest) l i).
Proof.
  intros Ht Hl. cbn [unmarshalFields].
  assert ((len w <? l) = true) as ->.
  { apply Z.ltb_lt. rewrite Hl, len_app. unfold len. simpl. lia. }
  pose proof (val_range tag) as Hv.
  pose proof (readVarint_varint uint64 (val tag) w rest l uint64_bitwise
                ltac:(lia)) as Hr.
  rewrite varint_small, uint8_val in Hr by lia. cbn [app] in Hr.
  rewrite Hr by done. rewrite bind_Done. cbv beta iota zeta.
  rewrite uint64_small by lia.
  rewrite len_app. unfold len at 2. simpl. done.
Qed.

(** A field of wire type 0 whose varint is read into a variable of the
    type of [conv]. *)
Lemma parses_varintField tag conv
    (set : Z -> InternalColumnType' -> InternalColumnType') v :
  bitwise conv -> val tag < 128 ->
  (int (Z.land (val tag) 7) =? 4) = false ->
  (int32 (Z.shiftr (val tag) 3) <=? 0) = false ->
  (forall m dAtA l preIndex i,
     unmarshalField' m (int32 (Z.shiftr (val tag) 3))
       (int (Z.land (val tag) 7)) dAtA l preIndex i
     = ('(x, i) ← readVarint conv shifts dAtA l i 0; Done (set x m, i))) ->
  0 <= v < 2 ^ 64 ->
  parses' (varintField tag v) (set (conv v)).
Proof.
  intros Hconv Ht Hw Hn Hfield Hv fuel m w rest Hf Hb.
  destruct fuel as [|fuel]; [simpl in Hf; lia|].
  exists fuel. split; [simpl in Hf; rewrite length_app in Hf; lia|].
  unfold varintField in *. cbn [app].
  rewrite unmarshalFields_tag by done. cbv zeta.
  rewrite Hw, Hn, Hfield.
  replace (len w + 1) with (len (w ++ [tag]))
    by (rewrite len_app; unfold len; simpl; lia).
  rewrite (cons_middle tag w), app_assoc.
  rewrite readVarint_varint by done.
  rewrite bind_Done. cbv beta iota. rewrite bind_Done. cbv beta iota.
  by rewrite <- !app_assoc.
Qed.

(** A field of wire type 2 that holds a string. *)
Lemma parses_stringField tag
    (set : string -> InternalColumnType' -> InternalColumnType') s :
  val tag < 128 ->
  (int (Z.land (val tag) 7) =? 4) = false ->
  (int32 (Z.shiftr (val tag) 3) <=? 0) = false ->
  (forall m dAtA l preIndex i,
     unmarshalField' m (int32 (Z.shiftr (val tag) 3))
       (int (Z.land (val tag) 7)) dAtA l preIndex i
     = ('(stringLen, i) ← readVarint uint64 shifts dAtA l i 0;
        if int stringLen <? 0 then Error ErrInvalidLengthTypes
        else if l <? int (i + int stringLen) then Error ErrUnexpectedEOF
        else b ← slice dAtA i (int (i + int stringLen));
             Done (set (string_of_list_byte b) m, int (i + int stringLen)))) ->
  parses' (bytesField tag (bytes s)) (set s).
Proof.
  intros Ht Hw Hn Hfield fuel m w rest Hf Hb.
  destruct fuel as [|fuel]; [simpl in Hf; lia|].
  exists fuel. split; [simpl in Hf; rewrite !length_app in Hf; lia|].
  unfold bytesField in *. cbn [app].
  rewrite unmarshalFields_tag by done. cbv zeta.
  rewrite Hw, Hn, Hfield.
  replace (len w + 1) with (len (w ++ [tag]))
    by (rewrite len_app; unfold len; simpl; lia).
  rewrite (cons_middle tag w), app_assoc, <- (app_assoc (varint _)).
  pose proof (len_nonneg (bytes s)) as Hs.
  pose proof (len_nonneg w). pose proof (len_nonneg rest).
  pose proof (len_nonneg (varint (len (bytes s)))).
  assert (len (bytes s) < 2 ^ 63) as Hs'.
  { clear -Hb. unfold len in *. revert Hb.
    rewrite !length_app. cbn [length]. rewrite !length_app. lia. }
  rewrite readVarint_varint by (done || apply uint64_bitwise || lia).
  rewrite bind_Done. cbv beta iota.
  rewrite uint64_small by lia. rewrite (int_small (len (bytes s))) by lia.
  destruct (Z.ltb_spec (len (bytes s)) 0); [lia|].
  assert (len ((w ++ [tag]) ++ varint (len (bytes s))) + len (bytes s)
          < 2 ^ 63) as Hp.
  { clear -Hb. unfold len in *. revert Hb.
    rewrite !length_app. cbn [length]. rewrite !length_app. lia. }
  pose proof (len_nonneg ((w ++ [tag]) ++ varint (len (bytes s)))).
  rewrite int_small by lia.
  rewrite (app_assoc (w ++ [tag])).
  destruct (Z.ltb_spec
              (len (((w ++ [tag]) ++ varint (len (bytes s)))
                    ++ bytes s ++ rest))
              (len ((w ++ [tag]) ++ varint (len (bytes s)))
               + len (bytes s))) as [Hlt|_].
  { rewrite !len_app in Hlt. lia. }
  rewrite (slice_middle ((w ++ [tag]) ++ varint (len (bytes s)))
             (bytes s) rest) by done.
  rewrite bind_Done. unfold bytes at 4.
  rewrite string_of_list_byte_of_string.
  rewrite <- len_app. by rewrite <- !app_assoc.
Qed.

(** A field of wire type 2 that holds a [ColumnType]. *)
Lemma parses_tupleContent msg :
  parses' (bytesField Byte.x42 (wire msg))
         (fun m => set_TupleContents ColumnType
                     (TupleContents m ++ [msg])%list m).
Proof.
  intros fuel m w rest Hf Hb.
  destruct fuel as [|fuel]; [simpl in Hf; lia|].
  exists fuel. split; [simpl in Hf; rewrite !length_app in Hf; lia|].
  unfold bytesField in *. cbn [app].
  rewrite unmarshalFields_tag by done. cbv zeta.
  change (int (Z.land (val Byte.x42) 7)) with 2.
  change (int32 (Z.shiftr (val Byte.x42) 3)) with 8.
  cbn [Z.eqb Z.leb Z.compare Pos.compare Pos.compare_cont Pos.eqb].
  unfold unmarshalField.
  cbn [Z.eqb Z.leb Z.compare Pos.compare Pos.compare_cont Pos.eqb negb].
  replace (len w + 1) with (len (w ++ [Byte.x42]))
    by (rewrite len_app; unfold len; simpl; lia).
  rewrite (cons_middle Byte.x42 w), app_assoc, <- (app_assoc (varint _)).
  pose proof (len_nonneg (wire msg)) as Hs.
  pose proof (len_nonneg w). pose proof (len_nonneg rest).
  pose proof (len_nonneg (varint (len (wire msg)))).
  assert (len (wire msg) < 2 ^ 63) as Hs'.
  { clear -Hb. unfold len in *. revert Hb.
    rewrite !length_app. cbn [length]. rewrite !length_app. lia. }
  rewrite readVarint_varint by (done || apply int_bitwise || lia).
  rewrite bind_Done. cbv beta iota.
  rewrite (int_small (len (wire msg))) by lia.
  destruct (Z.ltb_spec (len (wire msg)) 0); [lia|].
  assert (len ((w ++ [Byte.x42]) ++ varint (len (wire msg)))
          + len (wire msg) < 2 ^ 63) as Hp.
  { clear -Hb. unfold len in *. revert Hb.
    rewrite !length_app. cbn [length]. rewrite !length_app. lia. }
  pose proof (len_nonneg ((w ++ [Byte.x42]) ++ varint (len (wire msg)))).
  rewrite int_small by lia.
  rewrite (app_assoc (w ++ [Byte.x42])).
  destruct (Z.ltb_spec
              (len (((w ++ [Byte.x42]) ++ varint (len (wire msg)))
                    ++ wire msg ++ rest))
              (len ((w ++ [Byte.x42]) ++ varint (len (wire msg)))
               + len (wire msg))) as [Hlt|_].
  { rewrite !len_app in Hlt. lia. }
  rewrite (slice_middle ((w ++ [Byte.x42]) ++ varint (len (wire msg)))
             (wire msg) rest) by done.
  rewrite bind_Done, ColumnType_Unmarshal_wire, bind_Done.
  rewrite <- len_app. by rewrite <- !app_assoc.
Qed.

Lemma parses_ext bs f g :
  (forall m, f m = g m) -> parses' bs f -> parses' bs g.
Proof.
  intros He H fuel m w rest Hf Hb.
  destruct (H fuel m w rest Hf Hb) as (fuel' & Hf' & ->).
  exists fuel'. by rewrite He.
Qed.

Lemma fold_left_append {A B} (get : InternalColumnType' -> list B)
    (set : list B -> InternalColumnType' -> InternalColumnType')
    (c : A -> B) (l : list A) :
  (forall x m, get (set x m) = x) ->
  (forall x y m, set x (set y m) = set x m) ->
  (forall m, set (get m) m = m) ->
  forall m,
    fold_left (fun m e => set (get m ++ [c e])%list m) l m
    = set (get m ++ map c l)%list m.
Proof.
  intros Hget Hset Hid. induction l as [|e l IH]; intros m; simpl.
  - by rewrite app_nil_r, Hid.
  - by rewrite IH, Hget, Hset, <- app_assoc.
Qed.

Lemma map_int32_uint64 l :
  Forall in_int32 l -> map (fun e => int32 (uint64 e)) l = l.
Proof.
  induction 1 as [|e l He Hl IH]; simpl; [done|].
  by rewrite int32_uint64, IH.
Qed.

(** The loop of [Unmarshal] passes over the encoding of [m] and merges
    [m] into the message. *)
Lemma parses_encoding (m : InternalColumnType') :
  typed m -> parses' (encoding wire m) (fun m0 => merge m0 m).
Proof.
  intros (HS & HW & HP & HD & HV & HC & HO).
  eapply parses_ext; cycle 1.
  { unfold encoding.
      eapply parses_app; [|eapply parses_app; [|eapply parses_app;
        [|eapply parses_app; [|eapply parses_app; [|eapply parses_app;
        [|eapply parses_app; [|eapply parses_app;
        [|eapply parses_app]]]]]]]].
      + apply (parses_varintField Byte.x08 int32
                 (set_SemanticType ColumnType));
          [apply int32_bitwise|done|done|done|done
          |apply Z.mod_pos_bound; lia].
      + apply (parses_varintField Byte.x10 int32 (set_Width ColumnType));
          [apply int32_bitwise|done|done|done|done
          |apply Z.mod_pos_bound; lia].
      + apply (parses_varintField Byte.x18 int32
                 (set_Precision ColumnType));
          [apply int32_bitwise|done|done|done|done
          |apply Z.mod_pos_bound; lia].
      + apply (parses_flat_map
                 (fun num => varintField Byte.x20 (uint64 num))
                 (fun num m =>
                    set_ArrayDimensions ColumnType
                      (ArrayDimensions m ++ [int32 (uint64 num)])%list m)).
        intros num _.
        apply (parses_varintField Byte.x20 int32
                 (fun v m => set_ArrayDimensions ColumnType
                               (ArrayDimensions m ++ [v])%list m));
          [apply int32_bitwise|done|done|done|done
          |apply Z.mod_pos_bound; lia].
      + instantiate (1 := fun m1 => match Locale m with
                                    | Some s => set_Locale ColumnType (Some s) m1
                                    | None => m1
                                    end).
        destruct (Locale m) as [s|]; [|apply parses_nil].
        by apply (parses_stringField Byte.x2a
                    (fun s => set_Locale ColumnType (Some s))).
      + apply (parses_varintField Byte.x30 int32
                 (set_ZZZ_VisibleType ColumnType));
          [apply int32_bitwise|done|done|done|done
          |apply Z.mod_pos_bound; lia].
      + instantiate (1 := fun m1 =>
                            match ArrayContents m with
                            | Some c =>
                                set_ArrayContents ColumnType
                                  (Some (int32 (uint64 c))) m1
                            | None => m1
                            end).
        destruct (ArrayContents m) as [c|]; [|apply parses_nil].
        apply (parses_varintField Byte.x38 int32
                 (fun v => set_ArrayContents ColumnType (Some v)));
          [apply int32_bitwise|done|done|done|done
          |apply Z.mod_pos_bound; lia].
      + apply (parses_flat_map
                 (fun msg => bytesField Byte.x42 (wire msg))
                 (fun msg m =>
                    set_TupleContents ColumnType
                      (TupleContents m ++ [msg])%list m)).
        intros msg _. apply parses_tupleContent.
      + apply (parses_flat_map
                 (fun s => bytesField Byte.x4a (bytes s))
                 (fun s m =>
                    set_TupleLabels ColumnType
                      (TupleLabels m ++ [s])%list m)).
        intros s _.
        by apply (parses_stringField Byte.x4a
                    (fun s m => set_TupleLabels ColumnType
                                  (TupleLabels m ++ [s])%list m)).
      + apply (parses_varintField Byte.x50 uint32 (set_ZZZ_Oid ColumnType));
          [apply uint32_bitwise|done|done|done|done
          |apply Z.mod_pos_bound; lia]. }
  intros m0. cbv beta.
  rewrite (fold_left_append ArrayDimensions
             (set_ArrayDimensions ColumnType)
             (fun e => int32 (uint64 e)))
    by (done || by intros []).
  rewrite (fold_left_append TupleContents
             (set_TupleContents ColumnType) (fun e => e))
    by (done || by intros []).
  rewrite (fold_left_append TupleLabels
             (set_TupleLabels ColumnType) (fun e => e))
    by (done || by intros []).
  rewrite map_int32_uint64, !map_id by done.
  rewrite !int32_uint64, uint32_uint64 by done.
  unfold merge.
  destruct (Locale m) as [s|], (ArrayContents m) as [c|] eqn:Ec;
    rewrite ?(int32_uint64 c) by (by apply HC); reflexivity.
Qed.

(** When the loop passes over the whole of [dAtA], [Unmarshal] returns the
    message it has built. *)
Lemma parses_Unmarshal bs f m0 :
  parses' bs f -> len bs < 2 ^ 63 -> Unmarshal' m0 bs = Done (f m0).
Proof.
  intros HF Hb. unfold Unmarshal.
  destruct (HF (length bs) m0 [] []) as (fuel' & _ & H).
  { by rewrite app_nil_r. }
  { by rewrite app_nil_r. }
  cbn [app] in H. rewrite app_nil_r in H.
  change (len (A:=byte) []) with 0 in H. rewrite H.
  destruct fuel'; cbn [unmarshalFields]; by rewrite Z.ltb_irrefl.
Qed.

(** [Unmarshal], given the encoding of [m], merges [m] into the message it
    is called on: the loop reads every field of the encoding, to the last
    byte, without an error. *)
Theorem Unmarshal_merge (m0 m : InternalColumnType') :
  typed m -> len (encoding wire m) < 2 ^ 63 ->
  Unmarshal' m0 (encoding wire m) = Done (merge m0 m).
Proof.
  intros Hm Hb.
  pose proof (parses_encoding m Hm) as Hp.
  by rewrite (parses_Unmarshal _ _ m0 Hp Hb).
Qed.

(** [Unmarshal], given the encodings of two messages one after the other,
    merges the first and then the second. *)
Theorem Unmarshal_append (m0 m1 m2 : InternalColumnType') :
  typed m1 -> typed m2 ->
  len (encoding wire m1 ++ encoding wire m2) < 2 ^ 63 ->
  Unmarshal' m0 (encoding wire m1 ++ encoding wire m2)
  = Done (merge (merge m0 m1) m2).
Proof.
  intros H1 H2 Hb.
  pose proof (parses_app _ _ _ _ (parses_encoding m1 H1)
                (parses_encoding m2 H2)) as Hp.
  by rewrite (parses_Unmarshal _ _ m0 Hp Hb).
Qed.

(** *** Fields the message does not have *)

Lemma int32_small x : in_int32 x -> int32 x = x.
Proof. unfold in_int32, int32. intros H. rewrite Z.mod_small; lia. Qed.

(** The number and the wire type of a tag. *)
Lemma tag_split number wireType :
  0 <= number -> 0 <= wireType < 8 ->
  let t := Z.lor (Z.shiftl number 3) wireType in
  Z.shiftr t 3 = number /\ Z.land t 7 = wireType
  /\ t = 8 * number + wireType.
Proof.
  intros Hn Hw t.
  assert (Z.shiftr t 3 = number) as Hs.
  { unfold t. rewrite Z.shiftr_lor, Z.shiftr_shiftl_l by lia.
    rewrite (Z.shiftr_div_pow2 wireType) by lia.
    rewrite Z.div_small by lia. by rewrite Z.lor_0_r, Z.shiftl_0_r. }
  assert (Z.land t 7 = wireType) as Hl.
  { unfold t. rewrite Z.land_lor_distr_l.
    change 7 with (Z.ones 3). rewrite !Z.land_ones by lia.
    rewrite Z.shiftl_mul_pow2 by lia. rewrite Z.mod_mul by lia.
    rewrite Z.mod_small by lia. done. }
  split; [done|]. split; [done|].
  pose proof (Z.div_mod t 8 ltac:(lia)) as Hd.
  rewrite Z.shiftr_div_pow2 in Hs by lia.
  change 7 with (Z.ones 3) in Hl. rewrite Z.land_ones in Hl by lia.
  change (2 ^ 3) with 8 in *. lia.
Qed.

Lemma skipVarint_varint_from g :
  forall v k w rest l,
    groups v = g -> 0 <= v -> (k + g <= 10)%nat ->
    l = len (w ++ varint v ++ rest) ->
    skipVarint (drop k shifts) (w ++ varint v ++ rest) l (len w)
    = Done (len (w ++ varint v)).
Proof.
  induction g as [|g IH]; intros v k w rest l Hg Hv Hk Hl.
  { unfold groups in Hg. lia. }
  rewrite shifts_drop by lia. cbn [skipVarint].
  assert ((l <=? len w) = false) as ->.
  { apply Z.leb_gt. rewrite Hl, !len_app. unfold len.
    rewrite length_varint. lia. }
  replace (len w + 1 - 1) with (len w) by lia.
  destruct (decide (v < 128)) as [Hs|Hb].
  - rewrite varint_small by lia. cbn [app].
    rewrite index_app by done. rewrite bind_Done.
    rewrite val_uint8, Z.mod_small by lia.
    destruct (Z.ltb_spec v 128); [|lia].
    rewrite len_app. done.
  - rewrite (groups_big v) in Hg by lia.
    rewrite (varint_big v) by lia. cbn [app].
    rewrite index_app by done. rewrite bind_Done.
    pose proof (Z.mod_pos_bound v 128 ltac:(lia)) as Hm.
    rewrite val_uint8, lor_128, (Z.mod_small (_ + 128)) by lia.
    destruct (Z.ltb_spec (v mod 128 + 128) 128); [lia|].
    rewrite (cons_middle _ w), app_assoc.
    replace (len w + 1) with (len (w ++ [uint8 (v mod 128 + 128)]))
      by (rewrite len_app; unfold len; simpl; lia).
    rewrite (IH (Z.shiftr v 7) (S k)).
    + by rewrite <- !app_assoc.
    + lia.
    + apply Z.shiftr_nonneg. lia.
    + lia.
    + rewrite Hl, (varint_big v) by lia. rewrite lor_128.
      by rewrite <- !app_assoc.
Qed.

Lemma skipVarint_varint v w rest l :
  0 <= v < 2 ^ 64 -> l = len (w ++ varint v ++ rest) ->
  skipVarint shifts (w ++ varint v ++ rest) l (len w)
  = Done (len (w ++ varint v)).
Proof.
  intros Hv Hl. pose proof (groups_uint64 v Hv).
  change shifts with (drop 0 shifts).
  by apply (skipVarint_varint_from (groups v)); [done|lia|lia|done].
Qed.

Lemma skipTypes_unfold fuel dAtA :
  skipTypes fuel dAtA = skipTypes (S (pred fuel)) dAtA
  \/ exists key i,
       readVarint uint64 shifts dAtA (len dAtA) 0 0 = Done (key, i)
       /\ int (Z.land key 7) = 3.
Proof.
  destruct fuel as [|fuel]; [|by left].
  cbn [skipTypes pred].
  destruct (0 <? len dAtA); [|by left].
  destruct (readVarint uint64 shifts dAtA (len dAtA) 0 0)
    as [[key i]| | |] eqn:Hr; [|by left..].
  rewrite !bind_Done. cbv beta iota zeta.
  destruct (Z.eqb_spec (int (Z.land key 7)) 3) as [H3|H3].
  - right. by exists key, i.
  - left.
    destruct (int (Z.land key 7) =? 0); [done|].
    destruct (int (Z.land key 7) =? 1); [done|].
    destruct (int (Z.land key 7) =? 2); [done|].
    destruct (Z.eqb_spec (int (Z.land key 7)) 3); [done|]. done.
Qed.

(** [skipTypes] at a field returns its length. *)
Lemma skipTypes_field fuel number wireType p rest :
  0 <= number < 2 ^ 60 -> payload wireType p ->
  len (field number wireType p ++ rest) < 2 ^ 63 ->
  skipTypes fuel (field number wireType p ++ rest)
  = Done (len (field number wireType p)).
Proof.
  intros Hn Hp Hb. unfold field in *.
  assert (0 <= wireType < 8 /\ wireType <> 3) as [Hw Hw3]
    by (destruct Hp; lia).
  destruct (tag_split number wireType ltac:(lia) Hw) as (Hs & Hl & Ht).
  set (t := Z.lor (Z.shiftl number 3) wireType) in *.
  assert (0 <= t < 2 ^ 64) as Htb by lia.
  rewrite <- app_assoc in Hb |- *.
  pose proof (readVarint_varint uint64 t [] (p ++ rest) _ uint64_bitwise
                Htb eq_refl) as Hr.
  cbn [app] in Hr. change (len (A:=byte) []) with 0 in Hr.
  rewrite uint64_small in Hr by done.
  assert (int (Z.land t 7) = wireType) as Hwt
    by (rewrite Hl; apply int_small; lia).
  destruct (skipTypes_unfold fuel (varint t ++ p ++ rest))
    as [->|(key' & i' & Hr' & H3)].
  2:{ rewrite Hr in Hr'. injection Hr' as <- <-. lia. }
  cbn [skipTypes].
  pose proof (len_nonneg (varint t)) as Hlt.
  pose proof (len_nonneg p) as Hlp. pose proof (len_nonneg rest) as Hlr.
  assert (0 < len (varint t)) as Hpos.
  { unfold len. rewrite length_varint. unfold groups. lia. }
  rewrite !len_app in Hb.
  assert ((0 <? len (varint t ++ p ++ rest)) = true) as ->.
  { apply Z.ltb_lt. rewrite !len_app. lia. }
  rewrite Hr, bind_Done. cbv beta iota zeta. rewrite Hwt.
  destruct Hp as [v Hv|p Hp|b|p Hp].
  - cbn [Z.eqb]. by apply skipVarint_varint.
  - cbn [Z.eqb Pos.eqb]. rewrite int_small, len_app; unfold len in *; [|lia].
    by rewrite Hp.
  - cbn [Z.eqb Pos.eqb].
    rewrite len_app in Hlp, Hb.
    pose proof (len_nonneg b). pose proof (len_nonneg (varint (len b))).
    rewrite <- (app_assoc (varint (len b))).
    rewrite (readVarint_varint int (len b) (varint t) (b ++ rest))
      by (apply int_bitwise || lia || done).
    rewrite bind_Done. cbv beta iota zeta.
    rewrite (int_small (len b)) by lia.
    destruct (Z.ltb_spec (len b) 0); [lia|].
    rewrite int_small by (rewrite len_app; lia).
    f_equal. rewrite !len_app. lia.
  - cbn [Z.eqb Pos.eqb]. rewrite int_small, len_app; unfold len in *; [|lia].
    by rewrite Hp.
Qed.

Lemma unmarshalField_default m fieldNum wireType dAtA l preIndex i :
  10 < fieldNum ->
  unmarshalField' m fieldNum wireType dAtA l preIndex i
  = (rest ← slice dAtA preIndex l;
     skippy ← skipTypes (length rest) rest;
     if skippy <? 0 then Error ErrInvalidLengthTypes
     else if l <? int (preIndex + skippy) then Error ErrUnexpectedEOF
     else Done (m, int (preIndex + skippy))).
Proof.
  intros Hf. unfold unmarshalField.
  repeat match goal with
         | |- context [fieldNum =? ?k] =>
             destruct (Z.eqb_spec fieldNum k); [lia|]
         end.
  done.
Qed.

(** The loop of [Unmarshal] passes over a field whose number is above
    those of the message and leaves the message as it is. *)
Lemma parses_field number wireType p :
  10 < number < 2 ^ 31 -> payload wireType p ->
  parses' (field number wireType p) (fun m => m).
Proof.
  intros Hn Hp fuel m w rest Hf Hb.
  assert (0 <= wireType < 8 /\ wireType <> 3 /\ wireType <> 4)
    as (Hw & Hw3 & Hw4) by (destruct Hp; lia).
  destruct (tag_split number wireType ltac:(lia) Hw) as (Hs & Hl & Ht).
  pose proof (len_nonneg w) as Hlw.
  assert (len (field number wireType p ++ rest) < 2 ^ 63) as Hb'.
  { revert Hb. rewrite len_app. lia. }
  pose proof (skipTypes_field (length (field number wireType p ++ rest))
                number wireType p rest ltac:(lia) Hp Hb') as Hskip.
  pose proof (slice_app w (field number wireType p ++ rest)) as Hslice.
  unfold field in *.
  set (t := Z.lor (Z.shiftl number 3) wireType) in *.
  assert (0 <= t < 2 ^ 64) as Htb by lia.
  assert (0 < len (varint t)) as Hpos.
  { unfold len. rewrite length_varint. unfold groups. lia. }
  pose proof (len_nonneg p). pose proof (len_nonneg rest).
  destruct fuel as [|fuel].
  { rewrite !length_app in Hf. unfold len in Hpos. lia. }
  exists fuel. split.
  { rewrite !length_app in Hf. unfold len in Hpos. lia. }
  cbn [unmarshalFields].
  assert ((len w <? len (w ++ (varint t ++ p) ++ rest)) = true) as ->.
  { apply Z.ltb_lt. rewrite !len_app. lia. }
  rewrite <- (app_assoc (varint t)).
  rewrite (readVarint_varint uint64 t w (p ++ rest))
    by (apply uint64_bitwise || done || by rewrite <- !app_assoc).
  rewrite bind_Done. cbv beta iota zeta.
  rewrite uint64_small by done. rewrite Hs, Hl.
  rewrite (int_small wireType) by (clear -Hw; lia).
  rewrite int32_small by (unfold in_int32; lia).
  destruct (Z.eqb_spec wireType 4); [done|].
  destruct (Z.leb_spec number 0); [lia|].
  rewrite unmarshalField_default by lia.
  rewrite (app_assoc (varint t)), Hslice, bind_Done.
  rewrite Hskip, bind_Done.
  pose proof (len_nonneg (varint t ++ p)) as Hfp.
  rewrite (len_app w ((varint t ++ p) ++ rest)),
    (len_app (varint t ++ p) rest) in Hb |- *.
  destruct (Z.ltb_spec (len (varint t ++ p)) 0); [lia|].
  rewrite int_small by lia.
  destruct (Z.ltb_spec (len w + (len (varint t ++ p) + len rest))
              (len w + len (varint t ++ p))); [lia|].
  rewrite bind_Done. by rewrite (len_app w (varint t ++ p)).
Qed.

(** [Unmarshal] ignores a field it does not know, between the fields of
    two encodings: it merges what comes before and what comes after. *)
Theorem Unmarshal_unknown_field (m0 m1 m2 : InternalColumnType')
    (number wireType : Z) (p : list byte) :
  typed m1 -> typed m2 ->
  10 < number < 2 ^ 31 -> payload wireType p ->
  len (encoding wire m1 ++ field number wireType p ++ encoding wire m2)
  < 2 ^ 63 ->
  Unmarshal' m0
    (encoding wire m1 ++ field number wireType p ++ encoding wire m2)
  = Done (merge (merge m0 m1) m2).
Proof.
  intros H1 H2 Hn Hp Hb.
  pose proof (parses_app _ _ _ _ (parses_encoding m1 H1)
                (parses_app _ _ _ _ (parses_field number wireType p Hn Hp)
                   (parses_encoding m2 H2))) as Hparses.
  by rewrite (parses_Unmarshal _ _ m0 Hparses Hb).
Qed.

(** *** A length that overflows [int] *)

Lemma groups_top n : 2 ^ 62 <= n < 2 ^ 63 -> groups n = 9%nat.
Proof.
  intros Hn. unfold groups.
  by rewrite (Z.log2_unique n 62) by lia.
Qed.

Lemma slice_backwards dAtA lo hi :
  hi < lo -> slice dAtA lo hi = Panic SliceBoundsOutOfRange.
Proof.
  intros H. unfold slice.
  destruct (Z.leb_spec lo hi); [lia|]. by rewrite andb_false_r.
Qed.

(** A field of wire type 2, at the head of [dAtA], whose length added to
    the index overflows [int]: the sum is negative, the test against the
    length of [dAtA] lets it through, and the slice expression panics. *)
Theorem Unmarshal_length_overflow (m0 : InternalColumnType') (tag : byte)
    (n : Z) (rest : list byte) :
  In tag [Byte.x2a; Byte.x42; Byte.x4a] ->
  2 ^ 63 - 10 <= n < 2 ^ 63 ->
  len (tag :: varint n ++ rest) < 2 ^ 63 ->
  Unmarshal' m0 (tag :: varint n ++ rest) = Panic SliceBoundsOutOfRange.
Proof.
  intros Ht Hn Hb. unfold Unmarshal. cbn [length].
  assert (val tag < 128) as Hval.
  { destruct Ht as [<-|[<-|[<-|[]]]]; by vm_compute. }
  pose proof (unmarshalFields_tag (length (varint n ++ rest)) m0 [] tag
                (varint n ++ rest) _ Hval eq_refl) as H.
  cbn [app] in H. change (len (A:=byte) []) with 0 in H.
  rewrite H. clear H. cbv zeta.
  assert (len ([tag] ++ varint n) = 10) as Hlen.
  { rewrite len_app. unfold len. rewrite length_varint, groups_top by lia.
    done. }
  assert (forall conv, bitwise conv ->
            readVarint conv shifts (tag :: varint n ++ rest)
              (len (tag :: varint n ++ rest)) (0 + 1) 0
            = Done (conv n, 10)) as Hread.
  { intros conv Hconv. rewrite <- Hlen.
    by apply (readVarint_varint conv n [tag] rest); [|lia|]. }
  pose proof (len_nonneg (tag :: varint n ++ rest)) as Hl.
  assert (int (10 + n) < 0) as Hpost.
  { unfold int. replace (10 + n + 2 ^ 63) with (10 + n - 2 ^ 63 + 1 * 2 ^ 64)
      by lia.
    rewrite Z.mod_add, Z.mod_small by lia. lia. }
  destruct Ht as [<-|[<-|[<-|[]]]].
  - change (int (Z.land (val Byte.x2a) 7) =? 4) with false.
    change (int32 (Z.shiftr (val Byte.x2a) 3) <=? 0) with false.
    cbv iota.
    change (unmarshalField' m0 (int32 (Z.shiftr (val Byte.x2a) 3))
              (int (Z.land (val Byte.x2a) 7)) ?dd ?ll ?pp ?ii)
      with ('(stringLen, i) ← readVarint uint64 shifts dd ll ii 0;
            if int stringLen <? 0 then Error ErrInvalidLengthTypes
            else if ll <? int (i + int stringLen) then Error ErrUnexpectedEOF
            else s ← slice dd i (int (i + int stringLen));
                 Done (set_Locale ColumnType
                         (Some (string_of_list_byte s)) m0,
                       int (i + int stringLen))).
    rewrite (Hread uint64 uint64_bitwise), bind_Done. cbv beta iota.
    rewrite uint64_small, (int_small n) by lia.
    destruct (Z.ltb_spec n 0); [lia|].
    destruct (Z.ltb_spec (len (Byte.x2a :: varint n ++ rest))
                (int (10 + n))); [lia|].
    by rewrite slice_backwards by lia.
  - change (int (Z.land (val Byte.x42) 7) =? 4) with false.
    change (int32 (Z.shiftr (val Byte.x42) 3) <=? 0) with false.
    cbv iota.
    change (unmarshalField' m0 (int32 (Z.shiftr (val Byte.x42) 3))
              (int (Z.land (val Byte.x42) 7)) ?dd ?ll ?pp ?ii)
      with ('(byteLen, i) ← readVarint int shifts dd ll ii 0;
            if byteLen <? 0 then Error ErrInvalidLengthTypes
            else if ll <? int (i + byteLen) then Error ErrUnexpectedEOF
            else b ← slice dd i (int (i + byteLen));
                 v ← ColumnType_Unmarshal ColumnType_zero b;
                 Done (set_TupleContents ColumnType
                         (TupleContents m0 ++ [v])%list m0,
                       int (i + byteLen))).
    rewrite (Hread int int_bitwise), bind_Done. cbv beta iota.
    rewrite (int_small n) by lia.
    destruct (Z.ltb_spec n 0); [lia|].
    destruct (Z.ltb_spec (len (Byte.x42 :: varint n ++ rest))
                (int (10 + n))); [lia|].
    by rewrite slice_backwards by lia.
  - change (int (Z.land (val Byte.x4a) 7) =? 4) with false.
    change (int32 (Z.shiftr (val Byte.x4a) 3) <=? 0) with false.
    cbv iota.
    change (unmarshalField' m0 (int32 (Z.shiftr (val Byte.x4a) 3))
              (int (Z.land (val Byte.x4a) 7)) ?dd ?ll ?pp ?ii)
      with ('(stringLen, i) ← readVarint uint64 shifts dd ll ii 0;
            if int stringLen <? 0 then Error ErrInvalidLengthTypes
            else if ll <? int (i + int stringLen) then Error ErrUnexpectedEOF
            else s ← slice dd i (int (i + int stringLen));
                 Done (set_TupleLabels ColumnType
                         (TupleLabels m0 ++ [string_of_list_byte s])%list m0,
                       int (i + int stringLen))).
    rewrite (Hread uint64 uint64_bitwise), bind_Done. cbv beta iota.
    rewrite uint64_small, (int_small n) by lia.
    destruct (Z.ltb_spec n 0); [lia|].
    destruct (Z.ltb_spec (len (Byte.x4a :: varint n ++ rest))
                (int (10 + n))); [lia|].
    by rewrite slice_backwards by lia.
Qed.

End unmarshal.

(** ** The round trip *)

Lemma merge_zero {ColumnType} (m : InternalColumnType ColumnType) :
  merge zero m = m.
Proof. by destruct m as [? ? ? ? [?|] ? [?|] ? ? ?]. Qed.

Section roundtrip.

Variable ColumnType : Type.
Variable ColumnType_zero : ColumnType.
Variable ColumnType_Size : ColumnType -> Z.
Variable ColumnType_MarshalTo :
  ColumnType -> list byte -> result (list byte * Z).
Variable ColumnType_Unmarshal :
  ColumnType -> list byte -> result ColumnType.

(** The methods of [ColumnType] agree on an encoding. *)
Variable wire : ColumnType -> list byte.
Hypothesis ColumnType_Size_wire :
  forall msg, ColumnType_Size msg = len (wire msg).
Hypothesis ColumnType_MarshalTo_wire :
  forall msg dAtA,
    (length (wire msg) <= length dAtA)%nat ->
    ColumnType_MarshalTo msg dAtA
    = Done ((wire msg ++ drop (length (wire msg)) dAtA)%list,
            len (wire msg)).
Hypothesis ColumnType_Unmarshal_wire :
  forall msg, ColumnType_Unmarshal ColumnType_zero (wire msg) = Done msg.

(** [Unmarshal], called on an empty message with what [Marshal] returns
    for [m], gives [m] back. *)
Theorem Unmarshal_Marshal (m : InternalColumnType ColumnType) :
  typed m -> len (encoding wire m) < 2 ^ 63 ->
  exists dAtA,
    Marshal ColumnType ColumnType_Size ColumnType_MarshalTo m = Done dAtA
    /\ len dAtA = Size ColumnType ColumnType_Size m
    /\ Unmarshal ColumnType ColumnType_zero ColumnType_Unmarshal zero dAtA
       = Done m.
Proof.
  intros Hm Hb. exists (encoding wire m). split; [|split].
  - by apply Marshal_Done.
  - symmetry. by apply Size_len.
  - pose proof (parses_encoding _ _ _ _ ColumnType_Unmarshal_wire m Hm)
      as Hp.
    rewrite (parses_Unmarshal _ _ _ _ _ zero Hp Hb).
    by rewrite merge_zero.
Qed.

End roundtrip.

(** ** The loops end *)

Lemma index_cases dAtA i :
  (exists b, index dAtA i = Done b /\ 0 <= i < len dAtA)
  \/ index dAtA i = Panic IndexOutOfRange.
Proof.
  unfold index.
  destruct (Z.leb_spec 0 i), (Z.ltb_spec i (len dAtA)); cbn [andb];
    [|by right..].
  destruct (dAtA !! Z.to_nat i) as [b|]; [|by right].
  left. exists b. split; [done|lia].
Qed.

(** The loop that reads a varint ends, and when it returns a value the
    index has moved on, within the slice. *)
Lemma readVarint_bounds conv sh : forall dAtA l i acc,
  readVarint conv sh dAtA l i acc <> OutOfFuel
  /\ forall v i', readVarint conv sh dAtA l i acc = Done (v, i') ->
       0 <= i < i' /\ i' <= l.
Proof.
  induction sh as [|s sh IH]; intros dAtA l i acc; cbn [readVarint];
    [done|].
  destruct (Z.leb_spec l i); [done|].
  destruct (index_cases dAtA i) as [(b & -> & Hi)| ->]; [|done].
  rewrite bind_Done. cbv zeta. destruct (val b <? 128).
  - split; [done|]. intros v i' [= <- <-]. lia.
  - destruct (IH dAtA l (i + 1)
                (Z.lor acc (conv (Z.shiftl (Z.land (conv (val b)) 127) s))))
      as [H1 H2].
    split; [done|]. intros v i' Hd. apply H2 in Hd. lia.
Qed.

Lemma skipVarint_bounds sh : forall dAtA l i,
  skipVarint sh dAtA l i <> OutOfFuel
  /\ forall n, skipVarint sh dAtA l i = Done n -> 0 <= i < n /\ n <= l.
Proof.
  induction sh as [|s sh IH]; intros dAtA l i; cbn [skipVarint]; [done|].
  destruct (Z.leb_spec l i); [done|].
  replace (i + 1 - 1) with i by lia.
  destruct (index_cases dAtA i) as [(b & -> & Hi)| ->]; [|done].
  rewrite bind_Done. destruct (val b <? 128).
  - split; [done|]. intros n [= <-]. lia.
  - destruct (IH dAtA l (i + 1)) as [H1 H2].
    split; [done|]. intros n Hd. apply H2 in Hd. lia.
Qed.

Lemma int_range x : - 2 ^ 63 <= int x < 2 ^ 63.
Proof. unfold int. pose proof (Z.mod_pos_bound (x + 2 ^ 63) (2 ^ 64)). lia. Qed.

Lemma int_int x : int (int x) = int x.
Proof. apply int_small, int_range. Qed.

(** A varint read into an [int] is an [int]. *)
Lemma readVarint_int sh : forall dAtA l i acc v i',
  int acc = acc ->
  readVarint int sh dAtA l i acc = Done (v, i') -> int v = v.
Proof.
  induction sh as [|s sh IH]; intros dAtA l i acc v i' Hacc;
    cbn [readVarint]; [done|].
  destruct (l <=? i); [done|].
  destruct (index dAtA i) as [b| | |]; [|done..].
  rewrite bind_Done. cbv zeta.
  assert (int (Z.lor acc (int (Z.shiftl (Z.land (int (val b)) 127) s)))
          = Z.lor acc (int (Z.shiftl (Z.land (int (val b)) 127) s)))
    as Hacc'.
  { destruct int_bitwise as [Hlor _]. by rewrite Hlor, Hacc, int_int. }
  destruct (val b <? 128).
  - by intros [= <- <-].
  - by apply IH.
Qed.

Lemma slice_to_end dAtA i :
  0 <= i <= len dAtA ->
  slice dAtA i (len dAtA) = Done (drop (Z.to_nat i) dAtA).
Proof.
  intros Hi. unfold slice.
  destruct (Z.leb_spec 0 i); [|lia].
  destruct (Z.leb_spec i (len dAtA)); [|lia].
  rewrite Z.leb_refl. cbn [andb]. f_equal.
  apply take_ge. rewrite length_drop. unfold len. lia.
Qed.

Lemma skips_Error l e : skips l (Error e).
Proof. by split. Qed.

Lemma skips_Panic l p : skips l (Panic p).
Proof. by split. Qed.

(** The loop over a group ends when the calls of [skipTypes] in it do. *)
Lemma skipGroup_skips skip dAtA l :
  l = len dAtA -> l < 2 ^ 62 ->
  (forall rest,
     (length rest < length dAtA)%nat -> skips (len rest) (skip rest)) ->
  forall rounds i,
    i < 0 \/ (1 <= i /\ l - i <= Z.of_nat rounds) ->
    skipGroup skip rounds dAtA l i <> OutOfFuel
    /\ forall n, skipGroup skip rounds dAtA l i = Done n -> 1 <= n <= l.
Proof.
  intros -> Hb Hskip.
  induction rounds as [|rounds IH]; intros i Hi; cbn [skipGroup]; cbv zeta;
    destruct (readVarint_bounds uint64 shifts dAtA (len dAtA) i 0)
      as [Hr1 Hr2];
    destruct (readVarint uint64 shifts dAtA (len dAtA) i 0)
      as [[key i']| | |];
    try done; specialize (Hr2 key i' eq_refl); rewrite bind_Done;
    cbv beta iota; destruct (int (Z.land key 7) =? 4);
    try (split; [done|]; intros n [= <-]; lia).
  - lia.
  - rewrite slice_to_end by lia. rewrite bind_Done.
    destruct (Hskip (drop (Z.to_nat i) dAtA)) as [Hs1 Hs2].
    { rewrite length_drop. unfold len in *. lia. }
    destruct (skip (drop (Z.to_nat i) dAtA)) as [next| | |]; try done.
    rewrite bind_Done. destruct (Hs2 next eq_refl) as (Hn & Hrange & _).
    apply IH. unfold int.
    destruct (decide (i + next < 2 ^ 63)).
    + destruct (decide (0 <= i + next)).
      * rewrite Z.mod_small by lia. lia.
      * replace (i + next + 2 ^ 63) with (i + next + 2 ^ 63) by lia.
        rewrite Z.mod_small by lia. lia.
    + replace (i + next + 2 ^ 63) with (i + next - 2 ^ 63 + 1 * 2 ^ 64)
        by lia.
      rewrite Z.mod_add, Z.mod_small by lia. lia.
Qed.

(** [skipTypes] ends on every slice: the length of the slice bounds the
    depth of its calls and the rounds of its loops. *)
Lemma skipTypes_skips fuel : forall dAtA,
  (length dAtA <= fuel)%nat -> len dAtA < 2 ^ 62 ->
  skips (len dAtA) (skipTypes fuel dAtA).
Proof.
  induction fuel as [|fuel IH]; intros dAtA Hf Hb.
  { destruct dAtA; [|simpl in Hf; lia]. by split. }
  cbn [skipTypes]. cbv zeta.
  destruct (0 <? len dAtA); [|apply skips_Panic].
  destruct (readVarint_bounds uint64 shifts dAtA (len dAtA) 0 0)
    as [Hr1 Hr2].
  destruct (readVarint uint64 shifts dAtA (len dAtA) 0 0)
    as [[key i]| | |]; [|apply skips_Error|apply skips_Panic|done].
  specialize (Hr2 key i eq_refl). rewrite bind_Done. cbv beta iota.
  destruct (int (Z.land key 7) =? 0).
  { destruct (skipVarint_bounds shifts dAtA (len dAtA) i) as [H1 H2].
    split; [done|]. intros n Hn. apply H2 in Hn. lia. }
  destruct (int (Z.land key 7) =? 1).
  { split; [done|]. intros n [= <-]. rewrite int_small by lia. lia. }
  destruct (int (Z.land key 7) =? 2).
  { destruct (readVarint_bounds int shifts dAtA (len dAtA) i 0)
      as [Hl1 Hl2].
    pose proof (readVarint_int shifts dAtA (len dAtA) i 0) as Hint.
    destruct (readVarint int shifts dAtA (len dAtA) i 0)
      as [[length i']| | |]; [|apply skips_Error|apply skips_Panic|done].
    specialize (Hl2 length i' eq_refl).
    specialize (Hint length i' eq_refl eq_refl).
    pose proof (int_range length) as Hrange. rewrite Hint in Hrange.
    rewrite bind_Done. cbv beta iota zeta.
    destruct (Z.ltb_spec length 0); [apply skips_Error|].
    split; [done|]. intros n [= <-].
    split; [|split; [apply int_range|lia]].
    unfold int. destruct (decide (i' + length < 2 ^ 63)).
    - rewrite Z.mod_small by lia. lia.
    - replace (i' + length + 2 ^ 63)
        with (i' + length - 2 ^ 63 + 1 * 2 ^ 64) by lia.
      rewrite Z.mod_add, Z.mod_small by lia. lia. }
  destruct (int (Z.land key 7) =? 3).
  { destruct (skipGroup_skips (skipTypes fuel) dAtA (len dAtA)
                eq_refl Hb
                ltac:(intros rest Hrest; apply IH; unfold len in *; lia)
                fuel i ltac:(unfold len in *; lia)) as [H1 H2].
    split; [done|]. intros n Hn. apply H2 in Hn. lia. }
  destruct (int (Z.land key 7) =? 4).
  { split; [done|]. intros n [= <-]. lia. }
  destruct (int (Z.land key 7) =? 5).
  { split; [done|]. intros n [= <-]. rewrite int_small by lia. lia. }
  apply skips_Error.
Qed.

(** [skipTypes] ends on every slice, with fuel for as many rounds as the
    slice has bytes: it returns a number, or an error, or it panics, as it
    does on an empty slice. The number is of type [int] and never 0: it is
    a positive number of bytes, or negative after an overflow. *)
Theorem skipTypes_ends (dAtA : list byte) (fuel : nat) :
  len dAtA < 2 ^ 62 -> (length dAtA <= fuel)%nat ->
  skipTypes fuel dAtA <> OutOfFuel
  /\ (dAtA = [] -> skipTypes fuel dAtA = Panic Unreachable)
  /\ forall n, skipTypes fuel dAtA = Done n ->
       n <> 0 /\ - 2 ^ 63 <= n < 2 ^ 63.
Proof.
  intros Hb Hf. destruct (skipTypes_skips fuel dAtA Hf Hb) as [H1 H2].
  split; [done|]. split.
  - intros ->. by destruct fuel.
  - intros n Hn. apply H2 in Hn. lia.
Qed.

Lemma advances_Error {A} l pre e : advances (A:=A) l pre (Error e).
Proof. by split. Qed.

Lemma advances_Panic {A} l pre p : advances (A:=A) l pre (Panic p).
Proof. by split. Qed.

(** A field of wire type 0. *)
Lemma advances_varint {A} conv (k : Z -> A) dAtA l pre i :
  pre < i ->
  advances l pre ('(v, i) ← readVarint conv shifts dAtA l i 0; Done (k v, i)).
Proof.
  intros Hi.
  destruct (readVarint_bounds conv shifts dAtA l i 0) as [H1 H2].
  destruct (readVarint conv shifts dAtA l i 0) as [[v i']| | |];
    [|apply advances_Error|apply advances_Panic|done].
  specialize (H2 v i' eq_refl). split; [done|].
  intros m j [= <- <-]. lia.
Qed.

Lemma slice_Done dAtA lo hi b :
  slice dAtA lo hi = Done b -> 0 <= lo <= hi /\ hi <= len dAtA.
Proof.
  unfold slice.
  destruct (Z.leb_spec 0 lo), (Z.leb_spec lo hi), (Z.leb_spec hi (len dAtA));
    cbn [andb]; intros [=]. lia.
Qed.

Lemma slice_ends dAtA lo hi : slice dAtA lo hi <> OutOfFuel.
Proof. unfold slice. by case_match. Qed.

(** A field of wire type 2 whose bytes are taken from the slice. *)
Lemma advances_bytes {A} conv (k : list byte -> result A) dAtA l pre i :
  l = len dAtA -> pre < i ->
  (forall b, k b <> OutOfFuel) ->
  advances l pre
    ('(n, i) ← readVarint conv shifts dAtA l i 0;
     if int n <? 0 then Error ErrInvalidLengthTypes
     else if l <? int (i + int n) then Error ErrUnexpectedEOF
     else b ← slice dAtA i (int (i + int n));
          m ← k b;
          Done (m, int (i + int n))).
Proof.
  intros -> Hi Hk.
  destruct (readVarint_bounds conv shifts dAtA (len dAtA) i 0) as [H1 H2].
  destruct (readVarint conv shifts dAtA (len dAtA) i 0) as [[n i']| | |];
    [|apply advances_Error|apply advances_Panic|done].
  specialize (H2 n i' eq_refl). rewrite bind_Done. cbv beta iota.
  destruct (int n <? 0); [apply advances_Error|].
  destruct (len dAtA <? int (i' + int n)); [apply advances_Error|].
  pose proof (slice_Done dAtA i' (int (i' + int n))) as Hs.
  pose proof (slice_ends dAtA i' (int (i' + int n))) as Hs'.
  destruct (slice dAtA i' (int (i' + int n))) as [b| | |];
    [|apply advances_Error|apply advances_Panic|done].
  specialize (Hs b eq_refl). rewrite bind_Done.
  specialize (Hk b).
  destruct (k b) as [m| | |];
    [|apply advances_Error|apply advances_Panic|done].
  rewrite bind_Done. split; [done|]. intros m' j [= <- <-]. lia.
Qed.

Section ends.

Variable ColumnType : Type.
Variable ColumnType_zero : ColumnType.
Variable ColumnType_Unmarshal :
  ColumnType -> list byte -> result ColumnType.

(** [Unmarshal] of [ColumnType] ends. *)
Hypothesis ColumnType_Unmarshal_ends :
  forall v dAtA, ColumnType_Unmarshal v dAtA <> OutOfFuel.

Local Abbreviation InternalColumnType' := (InternalColumnType ColumnType).
Local Abbreviation unmarshalFields' :=
  (unmarshalFields ColumnType ColumnType_zero ColumnType_Unmarshal).
Local Abbreviation unmarshalField' :=
  (unmarshalField ColumnType ColumnType_zero ColumnType_Unmarshal).
Local Abbreviation Unmarshal' :=
  (Unmarshal ColumnType ColumnType_zero ColumnType_Unmarshal).

(** The loop over a packed field. *)
Lemma unmarshalPacked_bounds dAtA l postIndex fuel :
  forall (m : InternalColumnType') i,
    postIndex - i <= Z.of_nat fuel -> i <= l ->
    unmarshalPacked ColumnType fuel m dAtA l postIndex i <> OutOfFuel
    /\ forall m' i',
         unmarshalPacked ColumnType fuel m dAtA l postIndex i = Done (m', i')
         -> i <= i' <= l.
Proof.
  induction fuel as [|fuel IH]; intros m i Hf Hi; cbn [unmarshalPacked];
    destruct (Z.ltb_spec i postIndex);
    try (split; [done|]; intros m' i' [= <- <-]; lia).
  - lia.
  - destruct (readVarint_bounds int32 shifts dAtA l i 0) as [H1 H2].
    destruct (readVarint int32 shifts dAtA l i 0) as [[v i1]| | |];
      try done.
    specialize (H2 v i1 eq_refl). rewrite bind_Done. cbv beta iota.
    destruct (IH (set_ArrayDimensions ColumnType
                    (ArrayDimensions m ++ [v])%list m) i1) as [H3 H4];
      [lia|lia|].
    split; [done|]. intros m' i' Hd. apply H4 in Hd. lia.
Qed.

(** A round of the loop of [Unmarshal] ends. *)
Lemma unmarshalField_advances (m : InternalColumnType') fieldNum wireType
    dAtA l pre i :
  l = len dAtA -> l < 2 ^ 62 -> 0 <= pre < i -> i <= l ->
  advances l pre (unmarshalField' m fieldNum wireType dAtA l pre i).
Proof.
  intros Hl Hb Hpre Hi. unfold unmarshalField.
  repeat match goal with
         | |- advances _ _ (if ?c then _ else _) => destruct c
         end;
    try apply advances_Error;
    try (apply advances_varint; lia).
  - (* ArrayDimensions, packed *)
    destruct (readVarint_bounds int shifts dAtA l i 0) as [H1 H2].
    destruct (readVarint int shifts dAtA l i 0) as [[n i1]| | |];
      [|apply advances_Error|apply advances_Panic|done].
    specialize (H2 n i1 eq_refl). rewrite bind_Done. cbv beta iota zeta.
    destruct (n <? 0); [apply advances_Error|].
    destruct (Z.ltb_spec l (int (i1 + n))); [apply advances_Error|].
    destruct (unmarshalPacked_bounds dAtA l (int (i1 + n)) (length dAtA)
                m i1) as [H3 H4]; [unfold len in *; lia|lia|].
    split; [done|]. intros m' i' Hd. apply H4 in Hd. lia.
  - (* Locale *)
    apply (advances_bytes uint64
             (fun s => Done (set_Locale ColumnType
                               (Some (string_of_list_byte s)) m)));
      [done|lia|done].
  - (* TupleContents *)
    set (k := fun b => v ← ColumnType_Unmarshal ColumnType_zero b;
                       Done (set_TupleContents ColumnType
                               (TupleContents m ++ [v])%list m)).
    assert (forall b, k b <> OutOfFuel) as Hk.
    { intros b. unfold k.
      pose proof (ColumnType_Unmarshal_ends ColumnType_zero b).
      by destruct (ColumnType_Unmarshal ColumnType_zero b). }
    pose proof (advances_bytes int k dAtA l pre i Hl ltac:(lia) Hk) as Ha.
    pose proof (readVarint_int shifts dAtA l i 0) as Hint.
    destruct (readVarint int shifts dAtA l i 0) as [[n i1]| | |];
      [|apply advances_Error|apply advances_Panic|done].
    specialize (Hint n i1 eq_refl eq_refl).
    rewrite bind_Done in Ha. cbv beta iota in Ha. rewrite Hint in Ha.
    rewrite bind_Done. cbv beta iota zeta.
    destruct (n <? 0); [apply advances_Error|].
    destruct (l <? int (i1 + n)); [apply advances_Error|].
    destruct (slice dAtA i1 (int (i1 + n))) as [b| | |];
      [|apply advances_Error|apply advances_Panic|done].
    rewrite bind_Done in Ha. rewrite bind_Done. unfold k in Ha.
    destruct (ColumnType_Unmarshal ColumnType_zero b) as [v| | |];
      [|apply advances_Error|apply advances_Panic|done].
    by rewrite !bind_Done in Ha.
  - (* TupleLabels *)
    apply (advances_bytes uint64
             (fun s => Done (set_TupleLabels ColumnType
                               (TupleLabels m ++ [string_of_list_byte s])%list
                               m)));
      [done|lia|done].
  - (* a field the message does not have *)
    cbv zeta. subst l. rewrite slice_to_end by lia. rewrite bind_Done.
    destruct (skipTypes_skips (length (drop (Z.to_nat pre) dAtA))
                (drop (Z.to_nat pre) dAtA) (le_n _)) as [H1 H2].
    { unfold len in *. rewrite length_drop. lia. }
    destruct (skipTypes _ _) as [skippy| | |];
      [|apply advances_Error|apply advances_Panic|done].
    destruct (H2 skippy eq_refl) as (Hn & Hr & Hbig).
    rewrite bind_Done.
    destruct (Z.ltb_spec skippy 0); [apply advances_Error|].
    destruct (Z.ltb_spec (len dAtA) (int (pre + skippy)));
      [apply advances_Error|].
    split; [done|]. intros m' i' [= <- <-].
    unfold len in Hbig. rewrite length_drop in Hbig.
    revert H0. unfold int.
    destruct (decide (pre + skippy < 2 ^ 63)).
    + rewrite Z.mod_small by lia. lia.
    + replace (pre + skippy + 2 ^ 63)
        with (pre + skippy - 2 ^ 63 + 1 * 2 ^ 64) by lia.
      rewrite Z.mod_add, Z.mod_small by lia. unfold len in *. lia.
Qed.

(** The loop of [Unmarshal] ends. *)
Lemma unmarshalFields_ends dAtA l fuel :
  l = len dAtA -> l < 2 ^ 62 ->
  forall (m : InternalColumnType') i,
    (0 <= i /\ l - i <= Z.of_nat fuel) \/ (i < 0 /\ (1 <= fuel)%nat) ->
    unmarshalFields' fuel m dAtA l i <> OutOfFuel.
Proof.
  intros Hl Hb. induction fuel as [|fuel IH]; intros m i Hi;
    cbn [unmarshalFields]; destruct (Z.ltb_spec i l);
    try (by destruct (l <? i)).
  - lia.
  - destruct (readVarint_bounds uint64 shifts dAtA l i 0) as [H1 H2].
    destruct (readVarint uint64 shifts dAtA l i 0) as [[key i1]| | |];
      try done.
    specialize (H2 key i1 eq_refl). rewrite bind_Done. cbv beta iota zeta.
    destruct (int (Z.land key 7) =? 4); [done|].
    destruct (int32 (Z.shiftr key 3) <=? 0); [done|].
    destruct (unmarshalField_advances m (int32 (Z.shiftr key 3))
                (int (Z.land key 7)) dAtA l i i1 Hl Hb ltac:(lia)
                ltac:(lia)) as [H3 H4].
    destruct (unmarshalField' _ _ _ _ _ _ _) as [[m' i']| | |]; try done.
    specialize (H4 m' i' eq_refl). rewrite bind_Done. cbv beta iota.
    apply IH. lia.
Qed.

(** [Unmarshal] ends on every slice, with fuel for as many rounds as the
    slice has bytes: it returns a message, or an error, or it panics. *)
Theorem Unmarshal_ends (m : InternalColumnType') (dAtA : list byte) :
  len dAtA < 2 ^ 62 -> Unmarshal' m dAtA <> OutOfFuel.
Proof.
  intros Hb. unfold Unmarshal.
  apply (unmarshalFields_ends dAtA (len dAtA) (length dAtA) eq_refl Hb).
  left. unfold len. lia.
Qed.

End ends.

(** ** The enumerations *)

Lemma inverse_maps (names : gmap Z string) (values : gmap string Z) :
  map_Forall (fun k s => values !! s = Some k) names ->
  map_Forall (fun s k => names !! k = Some s) values ->
  forall k s, names !! k = Some s <-> values !! s = Some k.
Proof.
  intros H1 H2 k s. split; intros H.
  - by apply (H1 k s).
  - by apply (H2 s k).
Qed.

(** The maps of an enumeration are the inverse of each other: a number has
    a name exactly when the name has this number. *)
Theorem enum_name_value (k : Z) (s : string) :
  (SemanticType_name !! k = Some s <-> SemanticType_value !! s = Some k)
  /\ (VisibleType_name !! k = Some s <-> VisibleType_value !! s = Some k).
Proof.
  split; apply inverse_maps;
    by apply (bool_decide_unpack _); vm_compute.
Qed.

(** ** [sozTypes] *)

Lemma lxor_ones a n :
  0 <= n -> 0 <= a < 2 ^ n -> Z.lxor a (Z.ones n) = Z.ones n - a.
Proof.
  intros Hn Ha.
  assert (Z.lxor a (Z.ones n) = Z.land (Z.lnot a) (Z.ones n)) as ->.
  { apply Z.bits_inj'. intros i Hi.
    rewrite Z.lxor_spec, Z.land_spec, Z.lnot_spec by lia.
    destruct (Z.ltb_spec i n).
    - rewrite Z.ones_spec_low by lia. by destruct (Z.testbit a i).
    - rewrite Z.ones_spec_high by lia.
      rewrite <- (Z.mod_small a (2 ^ n)) by lia.
      by rewrite Z.mod_pow2_bits_high by lia. }
  rewrite Z.land_ones, Z.ones_equiv by lia. unfold Z.lnot.
  replace (Z.pred (- a)) with (2 ^ n - 1 - a + (-1) * 2 ^ n) by lia.
  rewrite Z.mod_add, Z.mod_small by lia. lia.
Qed.

(** [sozTypes] gives the size of the varint of the zigzag encoding of its
    argument read as an [int64]: twice the number when it is not negative,
    and otherwise twice its distance to -1, plus one. *)
Theorem sozTypes_zigzag (x : Z) :
  0 <= x < 2 ^ 64 ->
  sozTypes x
  = sovTypes (if int x <? 0 then - 2 * int x - 1 else 2 * int x).
Proof.
  intros Hx. unfold sozTypes. f_equal.
  rewrite Z.shiftl_mul_pow2, Z.shiftr_div_pow2 by lia.
  change (2 ^ 1) with 2.
  destruct (decide (x < 2 ^ 63)) as [Hs|Hb].
  - rewrite (int_small x) by lia.
    destruct (Z.ltb_spec x 0); [lia|].
    rewrite Z.div_small by lia.
    rewrite (uint64_small (x * 2)) by lia.
    change (uint64 0) with 0. rewrite Z.lxor_0_r.
    rewrite uint64_small by lia. lia.
  - assert (int x = x - 2 ^ 64) as ->.
    { unfold int.
      replace (x + 2 ^ 63) with (x - 2 ^ 63 + 1 * 2 ^ 64) by lia.
      rewrite Z.mod_add, Z.mod_small by lia. lia. }
    destruct (Z.ltb_spec (x - 2 ^ 64) 0); [|lia].
    assert ((x - 2 ^ 64) / 2 ^ 63 = -1) as ->.
    { symmetry. apply (Z.div_unique _ _ _ (x - 2 ^ 63)); lia. }
    assert (uint64 (x * 2) = x * 2 - 2 ^ 64) as ->.
    { unfold uint64.
      replace (x * 2) with (x * 2 - 2 ^ 64 + 1 * 2 ^ 64) at 1 by lia.
      rewrite Z.mod_add, Z.mod_small by lia. lia. }
    change (uint64 (-1)) with (Z.ones 64).
    rewrite lxor_ones by lia.
    rewrite uint64_small; rewrite Z.ones_equiv; lia.
Qed.

(** ** The sample *)

Lemma Raw_Size_wire msg : Raw.Size msg = len (Raw.wire msg).
Proof. done. Qed.

Lemma Raw_MarshalTo_wire msg dAtA :
  (length (Raw.wire msg) <= length dAtA)%nat ->
  Raw.MarshalTo msg dAtA
  = Done ((Raw.wire msg ++ drop (length (Raw.wire msg)) dAtA)%list,
          len (Raw.wire msg)).
Proof.
  intros H. unfold Raw.MarshalTo, Raw.wire in *.
  destruct (Z.ltb_spec (len dAtA) (len msg)); [unfold len in *; lia|done].
Qed.

Lemma Raw_Unmarshal_wire msg :
  Raw.Unmarshal Raw.zero (Raw.wire msg) = Done msg.
Proof. done. Qed.

Lemma Raw_Unmarshal_ends v dAtA : Raw.Unmarshal v dAtA <> OutOfFuel.
Proof. done. Qed.

Lemma Raw_message_typed : typed Raw.message.
Proof.
  unfold typed, in_int32. cbn.
  repeat split; try lia.
  - repeat constructor; lia.
  - injection H as <-. lia.
  - injection H as <-. lia.
Qed.

Lemma Raw_scalar_typed : typed Raw.scalar.
Proof.
  unfold typed, in_int32. cbn.
  repeat split; try lia; try constructor; done.
Qed.

Lemma Raw_message_fits : len (encoding Raw.wire Raw.message) < 2 ^ 63.
Proof. by vm_compute. Qed.

Lemma Raw_buffer_fits :
  len (replicate 80 Byte.xff : list byte) < 2 ^ 63.
Proof. by vm_compute. Qed.

Lemma Raw_buffer_room :
  Size Raw.ColumnType Raw.Size Raw.message
  <= len (replicate 80 Byte.xff : list byte).
Proof. by vm_compute. Qed.

Lemma Raw_append_fits :
  len (encoding Raw.wire Raw.scalar ++ encoding Raw.wire Raw.message)
  < 2 ^ 63.
Proof. by vm_compute. Qed.

Lemma Raw_unknown_fits :
  len (encoding Raw.wire Raw.scalar
       ++ field 15 2 (varint (len [Byte.x01; Byte.x02])
                      ++ [Byte.x01; Byte.x02])
       ++ encoding Raw.wire Raw.message)
  < 2 ^ 63.
Proof. by vm_compute. Qed.

Lemma Raw_overflow_fits :
  len (Byte.x2a :: varint (2 ^ 63 - 1) ++ []) < 2 ^ 63.
Proof. by vm_compute. Qed.

Lemma Raw_encodeVarintTypes :
  encodeVarintTypes [Byte.x00; Byte.x00; Byte.x00; Byte.x00] 1 300
  = Done ([Byte.x00; Byte.xac; Byte.x02; Byte.x00], 3).
Proof. by vm_compute. Qed.

Lemma Raw_group_fits :
  len [Byte.x0b; Byte.x08; Byte.x01; Byte.x0c] < 2 ^ 62.
Proof. by vm_compute. Qed.

Lemma sovTypes_log2_witness :
  sovTypes 300 = Z.log2 300 / 7 + 1 /\ sovTypes 300 = len (varint 300)
  /\ (300 < 2 ^ 64 -> 1 <= sovTypes 300 <= 10).
Proof. apply (sovTypes_log2 300). lia. Defined.

Lemma sozTypes_zigzag_witness :
  sozTypes (2 ^ 64 - 3)
  = sovTypes (if int (2 ^ 64 - 3) <? 0 then - 2 * int (2 ^ 64 - 3) - 1
              else 2 * int (2 ^ 64 - 3)).
Proof. apply (sozTypes_zigzag (2 ^ 64 - 3)). lia. Defined.

Lemma encodeVarintTypes_varint_witness :
  encodeVarintTypes [Byte.x00; Byte.x00; Byte.x00; Byte.x00] 1 300
  = if 1 + sovTypes 300 <=? len [Byte.x00; Byte.x00; Byte.x00; Byte.x00]
    then Done ((take (Z.to_nat 1) [Byte.x00; Byte.x00; Byte.x00; Byte.x00]
                ++ varint 300
                ++ drop (Z.to_nat (1 + sovTypes 300))
                     [Byte.x00; Byte.x00; Byte.x00; Byte.x00])%list,
               1 + sovTypes 300)
    else Panic IndexOutOfRange.
Proof. apply encodeVarintTypes_varint; lia. Defined.

Lemma readVarint_encodeVarintTypes_witness :
  readVarint uint64 shifts [Byte.x00; Byte.xac; Byte.x02; Byte.x00]
    (len [Byte.x00; Byte.xac; Byte.x02; Byte.x00]) 1 0 = Done (300, 3)
  /\ readVarint int32 shifts [Byte.x00; Byte.xac; Byte.x02; Byte.x00]
       (len [Byte.x00; Byte.xac; Byte.x02; Byte.x00]) 1 0
     = Done (int32 300, 3)
  /\ readVarint uint32 shifts [Byte.x00; Byte.xac; Byte.x02; Byte.x00]
       (len [Byte.x00; Byte.xac; Byte.x02; Byte.x00]) 1 0
     = Done (uint32 300, 3)
  /\ readVarint int shifts [Byte.x00; Byte.xac; Byte.x02; Byte.x00]
       (len [Byte.x00; Byte.xac; Byte.x02; Byte.x00]) 1 0
     = Done (int 300, 3).
Proof.
  apply (readVarint_encodeVarintTypes
           [Byte.x00; Byte.x00; Byte.x00; Byte.x00]);
    [lia|lia|exact Raw_encodeVarintTypes].
Defined.

Lemma MarshalTo_Size_witness :
  MarshalTo Raw.ColumnType Raw.Size Raw.MarshalTo Raw.message
    (replicate 80 Byte.xff)
  = Done ((encoding Raw.wire Raw.message
           ++ drop (Z.to_nat (Size Raw.ColumnType Raw.Size Raw.message))
                (replicate 80 Byte.xff))%list,
          Size Raw.ColumnType Raw.Size Raw.message).
Proof.
  apply MarshalTo_Size;
    [exact Raw_Size_wire|exact Raw_MarshalTo_wire|exact Raw_message_fits
    |exact Raw_buffer_fits|exact Raw_buffer_room].
Defined.

Lemma Marshal_encoding_witness :
  Marshal Raw.ColumnType Raw.Size Raw.MarshalTo Raw.message
  = Done (encoding Raw.wire Raw.message)
  /\ Size Raw.ColumnType Raw.Size Raw.message
     = len (encoding Raw.wire Raw.message).
Proof.
  apply Marshal_encoding;
    [exact Raw_Size_wire|exact Raw_MarshalTo_wire|exact Raw_message_fits].
Defined.

Lemma Unmarshal_merge_witness :
  Unmarshal Raw.ColumnType Raw.zero Raw.Unmarshal Raw.scalar
    (encoding Raw.wire Raw.message)
  = Done (merge Raw.scalar Raw.message).
Proof.
  apply Unmarshal_merge;
    [exact Raw_Unmarshal_wire|exact Raw_message_typed
    |exact Raw_message_fits].
Defined.

Lemma Unmarshal_append_witness :
  Unmarshal Raw.ColumnType Raw.zero Raw.Unmarshal zero
    (encoding Raw.wire Raw.scalar ++ encoding Raw.wire Raw.message)
  = Done (merge (merge zero Raw.scalar) Raw.message).
Proof.
  apply Unmarshal_append;
    [exact Raw_Unmarshal_wire|exact Raw_scalar_typed
    |exact Raw_message_typed|exact Raw_append_fits].
Defined.

Lemma Unmarshal_unknown_field_witness :
  Unmarshal Raw.ColumnType Raw.zero Raw.Unmarshal zero
    (encoding Raw.wire Raw.scalar
     ++ field 15 2 (varint (len [Byte.x01; Byte.x02])
                    ++ [Byte.x01; Byte.x02])
     ++ encoding Raw.wire Raw.message)
  = Done (merge (merge zero Raw.scalar) Raw.message).
Proof.
  apply Unmarshal_unknown_field;
    [exact Raw_Unmarshal_wire|exact Raw_scalar_typed
    |exact Raw_message_typed|lia|apply payload_bytes
    |exact Raw_unknown_fits].
Defined.

Lemma Unmarshal_length_overflow_witness :
  Unmarshal Raw.ColumnType Raw.zero Raw.Unmarshal zero
    (Byte.x2a :: varint (2 ^ 63 - 1) ++ [])
  = Panic SliceBoundsOutOfRange.
Proof.
  apply Unmarshal_length_overflow;
    [by left|lia|exact Raw_overflow_fits].
Defined.

Lemma Unmarshal_Marshal_witness :
  exists dAtA,
    Marshal Raw.ColumnType Raw.Size Raw.MarshalTo Raw.message = Done dAtA
    /\ len dAtA = Size Raw.ColumnType Raw.Size Raw.message
    /\ Unmarshal Raw.ColumnType Raw.zero Raw.Unmarshal zero dAtA
       = Done Raw.message.
Proof.
  apply (Unmarshal_Marshal _ _ _ _ _ Raw.wire);
    [exact Raw_Size_wire|exact Raw_MarshalTo_wire|exact Raw_Unmarshal_wire
    |exact Raw_message_typed|exact Raw_message_fits].
Defined.

Lemma skipTypes_ends_witness :
  skipTypes 4 [Byte.x0b; Byte.x08; Byte.x01; Byte.x0c] <> OutOfFuel
  /\ ([Byte.x0b; Byte.x08; Byte.x01; Byte.x0c] = [] ->
      skipTypes 4 [Byte.x0b; Byte.x08; Byte.x01; Byte.x0c]
      = Panic Unreachable)
  /\ forall n,
       skipTypes 4 [Byte.x0b; Byte.x08; Byte.x01; Byte.x0c] = Done n ->
       n <> 0 /\ - 2 ^ 63 <= n < 2 ^ 63.
Proof.
  apply skipTypes_ends; [exact Raw_group_fits|simpl; lia].
Defined.

Lemma Unmarshal_ends_witness :
  Unmarshal Raw.ColumnType Raw.zero Raw.Unmarshal zero
    [Byte.x0b; Byte.x08; Byte.x01; Byte.x0c]
  <> OutOfFuel.
Proof.
  apply Unmarshal_ends; [exact Raw_Unmarshal_ends|exact Raw_group_fits].
Defined.
